(** * Shall: a small command shell (tokenizer, parser, interpreter, executor)

    A shallow embedding of [reader.c], [token.c], [parser.c], [shall.c] and
    [exec.c].  Characters are [ascii], C strings are [string], a null
    [char *] is [None], the unread input of a reader is the string of bytes
    still to come, and the [for (;;)] loops are either structural on the
    unread input or carry fuel. *)

From Stdlib Require Import List String Ascii ZArith Lia Bool Arith.
Import ListNotations.
Local Open Scope string_scope.

(** ** Characters the sources name *)

Module Chars.

Definition NUL : ascii := "000"%char.
Definition tab : ascii := "009"%char.
Definition newline : ascii := "010"%char.
Definition cr : ascii := "013"%char.
Definition space : ascii := " "%char.
Definition dquote : ascii := "034"%char.
Definition squote : ascii := "'"%char.
Definition backslash : ascii := "\"%char.

(** [EOF] is [-1]; [reader_next] returns a [char], so where [char] is signed
    the byte 0xFF and the end of the input are the same value. *)
Definition EOF : ascii := "255"%char.

(** The string holding the single character [c]. *)
Definition str1 (c : ascii) : string := String c "".

(** What a consumer of a [char *] sees of a byte buffer: the bytes before the
    first null byte. *)
Fixpoint c_string (bytes : string) : string :=
  match bytes with
  | "" => ""
  | String c rest => if (c =? NUL)%char then "" else String c (c_string rest)
  end.

(** Every character of [s] passes the test [f]. *)
Fixpoint all_chars (f : ascii -> bool) (s : string) : bool :=
  match s with
  | "" => true
  | String c rest => f c && all_chars f rest
  end.

End Chars.
Import Chars.

(** ** reader.c *)

Module Reader.

(** The reader is its file descriptor; what matters of it here is the input
    not yet read. *)
Definition reader := string.

(** [reader_next]: the next character, or [EOF] at the end of the input (and
    again at every later call). *)
Definition reader_next (r : reader) : ascii * reader :=
  match r with
  | "" => (EOF, "")
  | String c rest => (c, rest)
  end.

End Reader.

(** ** shall.h: tokens and elements *)

Inductive token : Type :=
| TOKEN_EOF
| TOKEN_SEMI
| TOKEN_EOLN
| TOKEN_STRING (s : string)
| TOKEN_AMPERSAND
| TOKEN_GT
| TOKEN_LT
| TOKEN_CB_OPEN
| TOKEN_CB_CLOSE.

Inductive element : Type :=
| ELEMENT_ARG (s : string)
| ELEMENT_REDIR_FILE_IN (fd : Z) (name : string)
| ELEMENT_REDIR_FILE_OUT (fd : Z) (name : string)
| ELEMENT_REDIR_FILE_APPEND (fd : Z) (name : string)
| ELEMENT_REDIR_FD_IN (fd1 fd2 : Z)
| ELEMENT_REDIR_FD_OUT (fd1 fd2 : Z)
| ELEMENT_SEMI
| ELEMENT_BACKGROUND
| ELEMENT_EOLN
| ELEMENT_ERROR
| ELEMENT_EOF.

(** ** token.c *)

Module Token.

Inductive tokenizer_state : Type :=
| TOKENIZER_NEUTRAL
| TOKENIZER_BUFFERED
| TOKENIZER_ESC
| TOKENIZER_SQ_STRING
| TOKENIZER_DQ_STRING
| TOKENIZER_EOF.

(** [str] is the string being read ([None] for the null pointer); its length
    field [strlen] is the length of that string. *)
Record tokenizer : Type := mkTokenizer {
  reader : Reader.reader;
  state : tokenizer_state;
  buffered : ascii;
  str : option string
}.

Definition set_reader (t : tokenizer) (r : Reader.reader) : tokenizer :=
  mkTokenizer r (state t) (buffered t) (str t).
Definition set_state (t : tokenizer) (s : tokenizer_state) : tokenizer :=
  mkTokenizer (reader t) s (buffered t) (str t).
Definition set_buffered (t : tokenizer) (c : ascii) : tokenizer :=
  mkTokenizer (reader t) (state t) c (str t).
Definition set_str (t : tokenizer) (s : option string) : tokenizer :=
  mkTokenizer (reader t) (state t) (buffered t) s.

(** [calloc] zeroes the structure: neutral state, no string. *)
Definition tokenizer_create (r : Reader.reader) : tokenizer :=
  mkTokenizer r TOKENIZER_NEUTRAL NUL None.

Definition tokenizer_append (t : tokenizer) (c : ascii) : tokenizer :=
  set_str t (Some (match str t with
                   | None => str1 c
                   | Some s => s ++ str1 c
                   end)).

(** The bytes of the string being read once it is null-terminated, as the
    token's [char *]. *)
Definition tokenizer_string (t : tokenizer) : token * tokenizer :=
  let t1 := tokenizer_append t NUL in
  let bytes := match str t1 with Some b => b | None => "" end in
  (TOKEN_STRING (c_string bytes),
   set_state (set_str t1 None) TOKENIZER_NEUTRAL).

(** The token [tt] if no string is being read; otherwise the string, and
    [c] is kept for the next call. *)
Definition tokenizer_buffer (t : tokenizer) (c : ascii) (tt : token)
  : token * tokenizer :=
  match str t with
  | None => (tt, t)
  | Some _ =>
      let '(tok, t1) := tokenizer_string t in
      (tok, set_buffered (set_state t1 TOKENIZER_BUFFERED) c)
  end.

(** The end of the input: the string being read first, if any.  It is
    only called in a state other than [TOKENIZER_EOF], as it asserts. *)
Definition tokenizer_eof (t : tokenizer) : token * tokenizer :=
  let t1 := set_state t TOKENIZER_EOF in
  match str t1 with
  | None => (TOKEN_EOF, t1)
  | Some _ => tokenizer_string t1
  end.

(** One turn of the loop of [tokenizer_next], after its character is read. *)
Inductive turn : Type :=
| Return (tok : token) (t : tokenizer)
| Continue (t : tokenizer)
| AssertionFailed.

Definition returning (r : token * tokenizer) : turn := Return (fst r) (snd r).

Definition is_blank (c : ascii) : bool :=
  ((c =? space) || (c =? tab) || (c =? cr) || (c =? NUL))%char.

Definition tokenizer_switch (t : tokenizer) (c : ascii) : turn :=
  match state t with
  | TOKENIZER_EOF => AssertionFailed
  | TOKENIZER_NEUTRAL =>
      if (c =? EOF)%char then returning (tokenizer_eof t)
      else if (c =? "<")%char then returning (tokenizer_buffer t c TOKEN_LT)
      else if (c =? ">")%char then returning (tokenizer_buffer t c TOKEN_GT)
      else if (c =? "&")%char then returning (tokenizer_buffer t c TOKEN_AMPERSAND)
      else if (c =? "{")%char then returning (tokenizer_buffer t c TOKEN_CB_OPEN)
      else if (c =? "}")%char then returning (tokenizer_buffer t c TOKEN_CB_CLOSE)
      else if (c =? ";")%char then returning (tokenizer_buffer t c TOKEN_SEMI)
      else if (c =? newline)%char then returning (tokenizer_buffer t c TOKEN_EOLN)
      else if is_blank c then
        match str t with
        | Some _ => returning (tokenizer_string t)
        | None => Continue t
        end
      else if (c =? backslash)%char then Continue (set_state t TOKENIZER_ESC)
      else if (c =? squote)%char then Continue (set_state t TOKENIZER_SQ_STRING)
      else if (c =? dquote)%char then Continue (set_state t TOKENIZER_DQ_STRING)
      else Continue (tokenizer_append t c)
  | TOKENIZER_ESC =>
      if (c =? EOF)%char then returning (tokenizer_eof t)
      else Continue (tokenizer_append (set_state t TOKENIZER_NEUTRAL) c)
  | TOKENIZER_SQ_STRING =>
      if (c =? EOF)%char then returning (tokenizer_eof t)
      else if (c =? squote)%char then Continue (set_state t TOKENIZER_NEUTRAL)
      else Continue (tokenizer_append t c)
  | TOKENIZER_DQ_STRING =>
      if (c =? EOF)%char then returning (tokenizer_eof t)
      else if (c =? dquote)%char then Continue (set_state t TOKENIZER_NEUTRAL)
      else Continue (tokenizer_append t c)
  | TOKENIZER_BUFFERED => AssertionFailed
  end.

(** The loop while the state is not [TOKENIZER_BUFFERED]: every turn reads a
    character of [r], the unread input, as [Reader.reader_next] does ([EOF]
    once it is empty).  [None] is a failed assertion; at the end of the input
    every state returns. *)
Fixpoint tokenizer_loop (r : Reader.reader) (t : tokenizer)
  : option (token * tokenizer) :=
  match r with
  | "" =>
      match tokenizer_switch t EOF with
      | Return tok t1 => Some (tok, set_reader t1 "")
      | Continue _ | AssertionFailed => None
      end
  | String c rest =>
      match tokenizer_switch t c with
      | Return tok t1 => Some (tok, set_reader t1 rest)
      | Continue t1 => tokenizer_loop rest t1
      | AssertionFailed => None
      end
  end.

Definition tokenizer_next (t : tokenizer) : option (token * tokenizer) :=
  match state t with
  | TOKENIZER_EOF => Some (TOKEN_EOF, t)
  | TOKENIZER_BUFFERED =>
      match tokenizer_switch (set_state t TOKENIZER_NEUTRAL) (buffered t) with
      | Return tok t1 => Some (tok, t1)
      | Continue t1 => tokenizer_loop (reader t1) t1
      | AssertionFailed => None
      end
  | _ => tokenizer_loop (reader t) t
  end.

(** The tokens of an input up to and including the first [TOKEN_EOF], by
    calling [tokenizer_next] at most [fuel] times. *)
Fixpoint tokenizer_all (fuel : nat) (t : tokenizer) : list token :=
  match fuel with
  | O => []
  | S fuel' =>
      match tokenizer_next t with
      | None => []
      | Some (TOKEN_EOF, _) => [TOKEN_EOF]
      | Some (tok, t1) => tok :: tokenizer_all fuel' t1
      end
  end.

(** Growing the string being read by a whole text at once: what
    [tokenizer_append] does character by character. *)
Definition extend (o : option string) (s : string) : option string :=
  match s with
  | "" => o
  | _ => Some (match o with None => s | Some a => a ++ s end)
  end.

(** The state in which the characters between two [quote]s are read. *)
Definition quoted_state (quote : ascii) : tokenizer_state :=
  if (quote =? squote)%char then TOKENIZER_SQ_STRING else TOKENIZER_DQ_STRING.

(** The states the loop of [tokenizer_next] can be in when it reads a
    character. *)
Definition reading (s : tokenizer_state) : bool :=
  match s with
  | TOKENIZER_NEUTRAL | TOKENIZER_ESC | TOKENIZER_SQ_STRING
  | TOKENIZER_DQ_STRING => true
  | TOKENIZER_BUFFERED | TOKENIZER_EOF => false
  end.

Definition holding (o : option string) : nat :=
  match o with Some _ => 1 | None => 0 end.

(** What the tokenizer still has to hand out: three per unread character
    (a string, the special character after it, and room for both), one for
    a string being read and one for a buffered character. *)
Definition remaining (t : tokenizer) : nat :=
  3 * String.length (reader t) + holding (str t)
  + match state t with TOKENIZER_BUFFERED => 1 | _ => 0 end.

End Token.

(** ** The C library and machine integers *)

Module Libc.

(** [int] and [unsigned int] are 32 bits wide. *)
Definition to_unsigned (z : Z) : Z := z mod 2 ^ 32.
Definition to_int (z : Z) : Z := (z + 2 ^ 31) mod 2 ^ 32 - 2 ^ 31.

Definition isspace (c : ascii) : bool :=
  ((c =? space) || (c =? tab) || (c =? newline) || (c =? "011")
   || (c =? "012") || (c =? cr))%char.

Definition isdigit (c : ascii) : bool :=
  (48 <=? nat_of_ascii c)%nat && (nat_of_ascii c <=? 57)%nat.

Fixpoint skip_spaces (s : string) : string :=
  match s with
  | String c rest => if isspace c then skip_spaces rest else s
  | "" => ""
  end.

Fixpoint digits (s : string) (acc : Z) : Z :=
  match s with
  | String c rest =>
      if isdigit c then digits rest (10 * acc + (Z.of_nat (nat_of_ascii c) - 48))
      else acc
  | "" => acc
  end.

(** [atoi]: leading white space, an optional sign, then decimal digits up to
    the first other character.  A value that does not fit an [int] is
    undefined in C; it wraps here. *)
Definition atoi (s : string) : Z :=
  match skip_spaces s with
  | String "-" rest => to_int (- digits rest 0)
  | String "+" rest => to_int (digits rest 0)
  | rest => to_int (digits rest 0)
  end.

End Libc.

(** What a loop that carries fuel gives back. *)
Inductive result (A : Type) : Type :=
| Done (a : A)
| Aborted
| OutOfFuel.
Arguments Done {A} a.
Arguments Aborted {A}.
Arguments OutOfFuel {A}.

(** ** parser.c *)

Module Parser.

Local Open Scope nat_scope.

Definition MAX_TOKENS : nat := 7.

Inductive parser_state : Type :=
| PARSER_NEUTRAL
| PARSER_ERROR
| PARSER_EOF.

(** A line written to the error stream: the line number and the text after
    it. *)
Inductive diagnostic : Type :=
| Diagnostic (line : Z) (msg : string).

(** [tokens] holds the [ntokens] pending tokens of the array; [errors] is
    what the parser has written to the error stream, oldest first. *)
Record parser : Type := mkParser {
  state : parser_state;
  tokenizer : Token.tokenizer;
  tokens : list token;
  line : Z;
  errors : list diagnostic
}.

Definition ntokens (p : parser) : nat := List.length (tokens p).

Definition set_state (p : parser) (s : parser_state) : parser :=
  mkParser s (tokenizer p) (tokens p) (line p) (errors p).
Definition set_tokenizer (p : parser) (t : Token.tokenizer) : parser :=
  mkParser (state p) t (tokens p) (line p) (errors p).
Definition set_tokens (p : parser) (l : list token) : parser :=
  mkParser (state p) (tokenizer p) l (line p) (errors p).
Definition set_line (p : parser) (n : Z) : parser :=
  mkParser (state p) (tokenizer p) (tokens p) n (errors p).

(** [fprintf(stderr, "line %u: ...", parser->line)]. *)
Definition report (p : parser) (msg : string) : parser :=
  mkParser (state p) (tokenizer p) (tokens p) (line p)
           (errors p ++ [Diagnostic (line p) msg])%list.

Definition parser_create (t : Token.tokenizer) : parser :=
  mkParser PARSER_NEUTRAL t [] 1 [].

Definition parser_truncate (p : parser) : parser := set_tokens p [].

(** What [parser_match] returns: [0], an element that is not
    [ELEMENT_ERROR], or [ELEMENT_ERROR] after a diagnostic. *)
Inductive matching : Type :=
| NoMatch
| Matched (e : element)
| Mismatch (msg : string)
| AssertionFailed.

(** The part of [parser_match] after its first [switch]: [toks[offset]] is
    ['<'] or ['>'] and [fd] the ([unsigned]) descriptor to redirect. *)
Definition match_redirection (toks : list token) (fd : Z) (offset : nat)
  : matching :=
  let ntokens := List.length toks in
  let tok i := nth i toks TOKEN_EOF in
  let is_lt := match tok offset with TOKEN_LT => true | _ => false end in
  if negb (offset <? ntokens) then AssertionFailed
  else if offset =? ntokens - 1 then NoMatch
  else
    match tok (offset + 1) with
    | TOKEN_GT =>
        match tok offset with
        | TOKEN_GT =>
            if offset =? ntokens - 2 then NoMatch
            else
              match tok (offset + 2) with
              | TOKEN_STRING name =>
                  Matched (ELEMENT_REDIR_FILE_APPEND (Libc.to_int fd) name)
              | _ => Mismatch "expected >> string"
              end
        | _ => Mismatch "expected >>"
        end
    | TOKEN_STRING name =>
        if offset =? ntokens - 2 then
          Matched (if is_lt
                   then ELEMENT_REDIR_FILE_IN (Libc.to_int fd) name
                   else ELEMENT_REDIR_FILE_OUT (Libc.to_int fd) name)
        else AssertionFailed
    | TOKEN_CB_OPEN =>
        if ntokens <? offset + 3 then NoMatch
        else
          match tok (offset + 2) with
          | TOKEN_STRING s =>
              if ntokens <? offset + 4 then NoMatch
              else
                match tok (offset + 3) with
                | TOKEN_CB_CLOSE =>
                    Matched (if is_lt
                             then ELEMENT_REDIR_FD_IN (Libc.to_int fd) (Libc.atoi s)
                             else ELEMENT_REDIR_FD_OUT (Libc.to_int fd) (Libc.atoi s))
                | _ => Mismatch "expected a '}'"
                end
          | _ => Mismatch "expected a file descriptor"
          end
    | _ => Mismatch "expected file or fd"
    end.

Definition parser_match (toks : list token) : matching :=
  let ntokens := List.length toks in
  let tok i := nth i toks TOKEN_EOF in
  if negb (0 <? ntokens) then AssertionFailed
  else
    match tok 0 with
    | TOKEN_STRING s =>
        if ntokens =? 1 then Matched (ELEMENT_ARG s) else AssertionFailed
    | TOKEN_LT => match_redirection toks 0 0
    | TOKEN_GT => match_redirection toks 1 0
    | TOKEN_CB_OPEN =>
        if ntokens <? 2 then NoMatch
        else
          match tok 1 with
          | TOKEN_STRING s =>
              if ntokens <? 3 then NoMatch
              else
                match tok 2 with
                | TOKEN_CB_CLOSE =>
                    if ntokens <? 4 then NoMatch
                    else
                      match tok 3 with
                      | TOKEN_LT | TOKEN_GT =>
                          match_redirection toks
                            (Libc.to_unsigned (Libc.atoi s)) 3
                      | _ => Mismatch "expected a redirection character"
                      end
                | _ => Mismatch "expected a '}'"
                end
          | _ => Mismatch "expected a file descriptor"
          end
    | _ => Mismatch "unexpected token"
    end.

(** One turn of the loop of [parser_next], after its token is read. *)
Inductive turn : Type :=
| Return (e : element) (p : parser)
| Continue (p : parser)
| Abort.

Section Switch.

(** The body of the loop of [parser_next] against the function it calls to
    match the pending tokens. *)
Variable matcher : list token -> matching.

Definition parser_switch_with (p : parser) (token : token) : turn :=
  match state p with
  | PARSER_NEUTRAL =>
      match token with
      | TOKEN_EOF =>
          if 0 <? ntokens p
          then Return ELEMENT_ERROR (parser_truncate (report p "unrecognized eof"))
          else Return ELEMENT_EOF p
      | TOKEN_EOLN =>
          let p1 := set_line p (Libc.to_unsigned (line p + 1)) in
          if ntokens p1 =? 0 then Return ELEMENT_EOLN p1 else Continue p1
      | TOKEN_SEMI =>
          if ntokens p =? 0 then Return ELEMENT_SEMI p
          else Return ELEMENT_ERROR
                 (parser_truncate (report p "unrecognized semicolon"))
      | TOKEN_AMPERSAND =>
          if ntokens p =? 0 then Return ELEMENT_BACKGROUND p
          else Return ELEMENT_ERROR
                 (parser_truncate (report p "unrecognized ampersand"))
      | _ =>
          if negb (ntokens p <? MAX_TOKENS) then Abort
          else
            let p1 := set_tokens p (tokens p ++ [token])%list in
            match matcher (tokens p1) with
            | Matched e => Return e (parser_truncate p1)
            | Mismatch msg =>
                Return ELEMENT_ERROR (parser_truncate (report p1 msg))
            | AssertionFailed => Abort
            | NoMatch =>
                if ntokens p1 =? MAX_TOKENS
                then Return ELEMENT_ERROR
                       (set_state
                          (parser_truncate (report p1 "pattern too long"))
                          PARSER_ERROR)
                else Continue p1
            end
      end
  | PARSER_ERROR =>
      match token with
      | TOKEN_EOLN => Continue (set_state (parser_truncate p) PARSER_NEUTRAL)
      | _ => Continue p
      end
  | PARSER_EOF =>
      if ntokens p =? 0 then Return ELEMENT_EOF p else Abort
  end.

End Switch.

Definition parser_switch : parser -> token -> turn :=
  parser_switch_with parser_match.

(** [parser_next]: every turn of the loop takes one token from the
    tokenizer; [fuel] bounds the number of turns. *)
Fixpoint parser_next (fuel : nat) (p : parser) : result (element * parser) :=
  match fuel with
  | O => OutOfFuel
  | S fuel' =>
      match Token.tokenizer_next (tokenizer p) with
      | None => Aborted
      | Some (token, t) =>
          match parser_switch (set_tokenizer p t) token with
          | Return e p1 => Done (e, p1)
          | Continue p1 => parser_next fuel' p1
          | Abort => Aborted
          end
      end
  end.

(** The elements of an input up to and including the first [ELEMENT_EOF]:
    at most [fuel] calls of [parser_next], each of at most [fuel] turns. *)
Fixpoint parser_all_from (calls fuel : nat) (p : parser) : list element :=
  match calls with
  | O => []
  | S calls' =>
      match parser_next fuel p with
      | Done (ELEMENT_EOF, _) => [ELEMENT_EOF]
      | Done (e, p1) => e :: parser_all_from calls' fuel p1
      | _ => []
      end
  end.

Definition parser_all (fuel : nat) (input : string) : list element :=
  parser_all_from fuel fuel (parser_create (Token.tokenizer_create input)).

(** The turns of [parser_next] on tokens given one by one, whatever
    tokenizer hands them over: the elements returned on the way and the
    parser left behind, [None] after a failed assertion. *)
Fixpoint feed (p : parser) (toks : list token) : option (list element * parser) :=
  match toks with
  | [] => Some ([], p)
  | token :: rest =>
      match parser_switch p token with
      | Return e p1 =>
          match feed p1 rest with
          | Some (es, p2) => Some (e :: es, p2)
          | None => None
          end
      | Continue p1 => feed p1 rest
      | Abort => None
      end
  end.

(** What holds of a parser between two tokens, from its creation on: it is
    in the neutral state and [parser_match] returns 0 on its pending
    tokens, if any. *)
Definition window_ok (p : parser) : Prop :=
  state p = PARSER_NEUTRAL
  /\ (tokens p = [] \/ parser_match (tokens p) = NoMatch).

Definition turn_ok (r : turn) : Prop :=
  match r with
  | Return _ p1 => window_ok p1
  | Continue p1 => window_ok p1
  | Abort => False
  end.

(** The tokens that go to the window: all but the end of the input and the
    three terminators. *)
Definition window_token (tok : token) : bool :=
  match tok with
  | TOKEN_EOF | TOKEN_EOLN | TOKEN_SEMI | TOKEN_AMPERSAND => false
  | _ => true
  end.

(** An error stream without the diagnostic of the overflow. *)
Definition quiet (p : parser) : Prop :=
  forall ln, ~ In (Diagnostic ln "pattern too long") (errors p).

(** What the parser still has to return: twice what the tokenizer has to
    hand out, and one for pending tokens. *)
Definition remaining (p : parser) : nat :=
  2 * Token.remaining (tokenizer p)
  + match tokens p with [] => 0 | _ => 1 end.

End Parser.

(** ** shall.c *)

Module Shall.

Local Open Scope nat_scope.

(** [argv] is the array of [argc] argument pointers ([None] is the null
    pointer that ends it for [perform]); [redirs] the [nredirs] redirection
    elements. *)
Record command : Type := mkCommand {
  argv : list (option string);
  redirs : list element
}.

Definition argc (c : command) : nat := List.length (argv c).
Definition nredirs (c : command) : nat := List.length (redirs c).

(** [memset(&command, 0, sizeof(command))]. *)
Definition command_zero : command := mkCommand [] [].

Definition arg_append (c : command) (arg : option string) : command :=
  mkCommand (argv c ++ [arg])%list (redirs c).

Definition redir_append (c : command) (elt : element) : command :=
  mkCommand (argv c) (redirs c ++ [elt])%list.

(** How a turn of the loop of [interpret] ends: [Next] goes round again,
    [Last] has cleared [more], [Gone] is a [perform] that did not return (the
    process exited or was replaced). *)
Inductive turn (World : Type) : Type :=
| Next (c : command) (w : World)
| Last (c : command) (w : World)
| Gone (w : World).
Arguments Next {World} c w.
Arguments Last {World} c w.
Arguments Gone {World} w.

(** How [interpret] ends. *)
Inductive ending : Type :=
| Completed
| ProcessGone
| AssertFailed
| NoFuel.

Section Interpret.

(** The interpreter against an executor: [perform c background w] gives the
    world after the command and whether control came back; [write_stderr] is
    [fprintf(stderr, ...)]. *)
Variable World : Type.
Variable perform : command -> bool -> World -> World * bool.
Variable write_stderr : string -> World -> World.

Definition display_prompt (w : World) : World := write_stderr "-> " w.

(** [gotline]: the command as it is left, the world, and whether [perform]
    came back. *)
Definition gotline (c : command) (background : bool) (w : World)
  : command * World * bool :=
  let '(w1, back) :=
    if 0 <? argc c then perform (arg_append c None) background w
    else (w, true) in
  (mkCommand [] [], w1, back).

Definition after_gotline (r : command * World * bool)
  (k : command -> World -> turn World) : turn World :=
  let '(c, w, back) := r in
  if back then k c w else Gone w.

Definition interpret_switch (interactive : bool) (elt : element)
  (c : command) (w : World) : turn World :=
  let prompt w := if interactive then display_prompt w else w in
  match elt with
  | ELEMENT_ARG s => Next (arg_append c (Some s)) w
  | ELEMENT_REDIR_FILE_IN _ _
  | ELEMENT_REDIR_FILE_OUT _ _
  | ELEMENT_REDIR_FILE_APPEND _ _
  | ELEMENT_REDIR_FD_IN _ _
  | ELEMENT_REDIR_FD_OUT _ _ => Next (redir_append c elt) w
  | ELEMENT_EOLN =>
      after_gotline (gotline c false w) (fun c1 w1 => Next c1 (prompt w1))
  | ELEMENT_SEMI =>
      after_gotline (gotline c false w) (fun c1 w1 => Next c1 w1)
  | ELEMENT_BACKGROUND =>
      after_gotline (gotline c true w) (fun c1 w1 => Next c1 w1)
  | ELEMENT_ERROR => Next c (prompt w)
  | ELEMENT_EOF =>
      let w0 := if interactive then write_stderr ("EOF" ++ str1 newline) w
                else w in
      after_gotline (gotline c false w0) (fun c1 w1 => Last c1 w1)
  end.

(** The [while (more)] loop: at most [fuel] elements, each from a
    [parser_next] of at most [fuel] turns. *)
Fixpoint interpret_loop (turns fuel : nat) (interactive : bool)
  (p : Parser.parser) (c : command) (w : World) : World * ending :=
  match turns with
  | O => (w, NoFuel)
  | S turns' =>
      match Parser.parser_next fuel p with
      | Done (elt, p1) =>
          match interpret_switch interactive elt c w with
          | Next c1 w1 => interpret_loop turns' fuel interactive p1 c1 w1
          | Last _ w1 => (w1, Completed)
          | Gone w1 => (w1, ProcessGone)
          end
      | Aborted => (w, AssertFailed)
      | OutOfFuel => (w, NoFuel)
      end
  end.

Definition interpret (fuel : nat) (reader : Reader.reader)
  (interactive : bool) (w : World) : World * ending :=
  let tokenizer := Token.tokenizer_create reader in
  let parser := Parser.parser_create tokenizer in
  let w1 := if interactive then display_prompt w else w in
  interpret_loop fuel fuel interactive parser command_zero w1.

End Interpret.

(** An executor that only records: the world is the list of what the
    interpreter did, oldest first, and every [perform] returns. *)
Inductive event : Type :=
| Stderr (s : string)
| Perform (c : command) (background : bool).

Definition record_perform (c : command) (background : bool)
  (w : list event) : list event * bool :=
  ((w ++ [Perform c background])%list, true).

Definition record_stderr (s : string) (w : list event) : list event :=
  (w ++ [Stderr s])%list.

(** What [interpret] dispatches on an input, and how it ends. *)
Definition dispatched (fuel : nat) (input : string) (interactive : bool)
  : list event * ending :=
  interpret (list event) record_perform record_stderr fuel input interactive [].

(** The commands [perform] may be called on: a first argument, perhaps
    more, and the null pointer that ends them. *)
Definition performed_ok (ev : event) : Prop :=
  match ev with
  | Perform c _ =>
      exists first rest, argv c = (map Some (first :: rest) ++ [None])%list
  | Stderr _ => True
  end.

End Shall.

(** ** The operating system, as one process sees it *)

Module Os.

Inductive open_flag : Type :=
| O_RDONLY | O_WRONLY | O_CREAT | O_TRUNC | O_APPEND.

Definition open_flag_eqb (a b : open_flag) : bool :=
  match a, b with
  | O_RDONLY, O_RDONLY | O_WRONLY, O_WRONLY | O_CREAT, O_CREAT
  | O_TRUNC, O_TRUNC | O_APPEND, O_APPEND => true
  | _, _ => false
  end.

(** Flags joined by [|] are the list of them. *)
Definition has_flag (f : open_flag) (flags : list open_flag) : bool :=
  existsb (open_flag_eqb f) flags.

(** What [wait] stores in [*status]: [WIFEXITED] with [WEXITSTATUS], or
    [WIFSIGNALED] with [WTERMSIG]. *)
Inductive wstatus : Type :=
| Exited (status : Z)
| Signaled (sig : Z).

(** What the process does on [SIGINT]. *)
Inductive disposition : Type :=
| SIG_IGN
| SIG_DFL
| Handler.

Inductive arg : Type :=
| Int (z : Z)
| Str (s : string).

(** What a process did, call by call: the system calls with what they
    returned, and what it printed ([Printf] on the standard output,
    [Eprintf] on the error stream) as format and arguments. *)
Inductive call : Type :=
| Sys_signal (d : disposition)
| Sys_open (name : string) (flags : list open_flag) (mode : option Z) (ret : Z)
| Sys_dup2 (oldfd newfd : Z) (ret : Z)
| Sys_close (fd : Z)
| Sys_chdir (dir : option string) (ret : Z)
| Sys_execv (path : string) (argv : list string) (ret : Z)
| Sys_exit (status : Z)
| Sys_fork (ret : Z)
| Sys_wait (ret : Z) (status : option wstatus)
| Printf (fmt : string) (args : list arg)
| Eprintf (fmt : string) (args : list arg)
| Perror (s : string).

(** A child of the process: what it did after the fork, and when and how it
    terminates ([None]: not as far as the model follows it). *)
Record child : Type := mkChild {
  child_pid : Z;
  child_trace : list call;
  child_ends : option (nat * wstatus)
}.

(** [files] are the paths that exist with their contents, [programs] the
    executable ones with how long each runs and how it ends, [fds] the open
    descriptors with the path each is open on, [clock] a logical time that
    only moves when the process blocks. *)
Record os : Type := mkOs {
  files : list (string * string);
  dirs : list string;
  programs : list (string * (nat * wstatus));
  environ : list (string * string);
  cwd : string;
  fds : list (Z * string);
  sigint : disposition;
  pid : Z;
  next_pid : Z;
  max_children : nat;
  children : list child;
  clock : nat;
  trace : list call
}.

Definition set_files (s : os) (x : list (string * string)) : os :=
  mkOs x (dirs s) (programs s) (environ s) (cwd s) (fds s) (sigint s) (pid s)
       (next_pid s) (max_children s) (children s) (clock s) (trace s).
Definition set_cwd (s : os) (x : string) : os :=
  mkOs (files s) (dirs s) (programs s) (environ s) x (fds s) (sigint s) (pid s)
       (next_pid s) (max_children s) (children s) (clock s) (trace s).
Definition set_fds (s : os) (x : list (Z * string)) : os :=
  mkOs (files s) (dirs s) (programs s) (environ s) (cwd s) x (sigint s) (pid s)
       (next_pid s) (max_children s) (children s) (clock s) (trace s).
Definition set_sigint (s : os) (x : disposition) : os :=
  mkOs (files s) (dirs s) (programs s) (environ s) (cwd s) (fds s) x (pid s)
       (next_pid s) (max_children s) (children s) (clock s) (trace s).
Definition set_children (s : os) (n : Z) (x : list child) : os :=
  mkOs (files s) (dirs s) (programs s) (environ s) (cwd s) (fds s) (sigint s)
       (pid s) n (max_children s) x (clock s) (trace s).
Definition set_clock (s : os) (x : nat) : os :=
  mkOs (files s) (dirs s) (programs s) (environ s) (cwd s) (fds s) (sigint s)
       (pid s) (next_pid s) (max_children s) (children s) x (trace s).
Definition log (c : call) (s : os) : os :=
  mkOs (files s) (dirs s) (programs s) (environ s) (cwd s) (fds s) (sigint s)
       (pid s) (next_pid s) (max_children s) (children s) (clock s)
       (trace s ++ [c])%list.

(** The process a fork creates: the same but for its identity, with no
    children and nothing done yet. *)
Definition forked (s : os) (cpid : Z) : os :=
  mkOs (files s) (dirs s) (programs s) (environ s) (cwd s) (fds s) (sigint s)
       cpid (next_pid s) (max_children s) [] (clock s) [].

(** How a process stops short of returning from a call: [exit], a successful
    [execv], a wait that never ends, or its own fault (a null pointer handed
    to the C library, a failed assertion). *)
Inductive stop : Type :=
| ByExit (status : Z)
| ByExec (path : string) (argv : list string)
| Hangs
| Faults.

Inductive outcome (A : Type) : Type :=
| Returned (a : A) (s : os)
| Stopped (why : stop) (s : os).
Arguments Returned {A} a s.
Arguments Stopped {A} why s.

Definition M (A : Type) : Type := os -> outcome A.

Definition ret {A} (a : A) : M A := fun s => Returned a s.

Definition bind {A B} (m : M A) (k : A -> M B) : M B :=
  fun s =>
    match m s with
    | Returned a s1 => k a s1
    | Stopped why s1 => Stopped why s1
    end.

Definition os_of {A} (o : outcome A) : os :=
  match o with
  | Returned _ s => s
  | Stopped _ s => s
  end.

Fixpoint lookup {V} (k : string) (l : list (string * V)) : option V :=
  match l with
  | [] => None
  | (k1, v) :: rest => if (k1 =? k)%string then Some v else lookup k rest
  end.

Fixpoint lookup_fd (fd : Z) (l : list (Z * string)) : option string :=
  match l with
  | [] => None
  | (fd1, v) :: rest => if (fd1 =? fd)%Z then Some v else lookup_fd fd rest
  end.

Definition remove_fd (fd : Z) (l : list (Z * string)) : list (Z * string) :=
  filter (fun e => negb (fst e =? fd)%Z) l.

(** The lowest descriptor that is not open. *)
Definition lowest_free (l : list (Z * string)) : Z :=
  match find (fun n => match lookup_fd n l with None => true | Some _ => false end)
             (map Z.of_nat (seq 0 (S (List.length l)))) with
  | Some n => n
  | None => Z.of_nat (List.length l)
  end.

Definition print (c : call) : M unit := fun s => Returned tt (log c s).

Definition printf (fmt : string) (args : list arg) : M unit :=
  print (Printf fmt args).
Definition eprintf (fmt : string) (args : list arg) : M unit :=
  print (Eprintf fmt args).
Definition perror (s : string) : M unit := print (Perror s).

Definition sys_signal (d : disposition) : M unit :=
  fun s => Returned tt (log (Sys_signal d) (set_sigint s d)).

(** A path at its last slash: the directory before it ([None] for a path
    without a slash, the empty string for the root) and the name after it. *)
Fixpoint split_path (path : string) : option string * string :=
  match path with
  | "" => (None, "")
  | String c rest =>
      match split_path rest with
      | (Some dir, name) => (Some (String c dir), name)
      | (None, name) =>
          if (c =? "/")%char then (Some "", name) else (None, String c name)
      end
  end.

(** Whether [open] with [O_CREAT] can create the path: it has a name after
    its last slash, it is no directory, and the directory it is to be in
    exists (the working directory for a path without a slash).  Every file
    and directory of the model is one the process may use. *)
Definition can_create (path : string) (s : os) : bool :=
  let '(dir, name) := split_path path in
  negb (name =? "")%string
  && negb (existsb (String.eqb path) (dirs s))
  && match dir with
     | None | Some "" => true
     | Some d => existsb (String.eqb d) (dirs s)
     end.

(** [open]: a file that is there is opened ([O_TRUNC] empties it); a
    directory is opened for reading only; a path that is not there is
    created empty with [O_CREAT], where it can be; anything else fails.
    The descriptor is the lowest one free. *)
Definition sys_open (name : string) (flags : list open_flag) (mode : option Z)
  : M Z :=
  fun s =>
    let fd := lowest_free (fds s) in
    let opened files1 :=
      Returned fd
        (log (Sys_open name flags mode fd)
             (set_fds (set_files s files1) ((fd, name) :: fds s))) in
    match lookup name (files s) with
    | Some _ =>
        opened (if has_flag O_TRUNC flags
                then map (fun e => if (fst e =? name)%string then (name, "")
                                   else e)
                         (files s)
                else files s)
    | None =>
        if existsb (String.eqb name) (dirs s)
           && negb (has_flag O_WRONLY flags) && negb (has_flag O_CREAT flags)
        then opened (files s)
        else if has_flag O_CREAT flags && can_create name s
        then opened ((name, "") :: files s)
        else Returned (-1)%Z (log (Sys_open name flags mode (-1)) s)
    end.

(** Whether [open] succeeds. *)
Definition opens (name : string) (flags : list open_flag) (s : os) : bool :=
  match lookup name (files s) with
  | Some _ => true
  | None =>
      existsb (String.eqb name) (dirs s)
      && negb (has_flag O_WRONLY flags) && negb (has_flag O_CREAT flags)
      || has_flag O_CREAT flags && can_create name s
  end.

(** [dup2]: fails on a descriptor that is not open. *)
Definition sys_dup2 (oldfd newfd : Z) : M Z :=
  fun s =>
    match lookup_fd oldfd (fds s) with
    | None => Returned (-1)%Z (log (Sys_dup2 oldfd newfd (-1)) s)
    | Some f =>
        if (newfd <? 0)%Z
        then Returned (-1)%Z (log (Sys_dup2 oldfd newfd (-1)) s)
        else
          let fds1 := if (oldfd =? newfd)%Z then fds s
                      else (newfd, f) :: remove_fd newfd (fds s) in
          Returned newfd (log (Sys_dup2 oldfd newfd newfd) (set_fds s fds1))
    end.

Definition sys_close (fd : Z) : M unit :=
  fun s => Returned tt (log (Sys_close fd) (set_fds s (remove_fd fd (fds s)))).

Definition sys_getenv (name : string) : M (option string) :=
  fun s => Returned (lookup name (environ s)) s.

Definition sys_getpid : M Z := fun s => Returned (pid s) s.

Definition sys_chdir (dir : option string) : M Z :=
  fun s =>
    match dir with
    | Some d =>
        if existsb (String.eqb d) (dirs s)
        then Returned 0%Z (log (Sys_chdir dir 0) (set_cwd s d))
        else Returned (-1)%Z (log (Sys_chdir dir (-1)) s)
    | None => Returned (-1)%Z (log (Sys_chdir dir (-1)) s)
    end.

(** [execv] comes back only when it fails. *)
Definition sys_execv (path : string) (argv : list string) : M Z :=
  fun s =>
    match lookup path (programs s) with
    | Some _ => Stopped (ByExec path argv) (log (Sys_execv path argv 0) s)
    | None => Returned (-1)%Z (log (Sys_execv path argv (-1)) s)
    end.

(** [exit] and [_exit]. *)
Definition sys_exit {A} (status : Z) : M A :=
  fun s => Stopped (ByExit status) (log (Sys_exit status) s).

Definition fault {A} : M A := fun s => Stopped Faults s.

(** [fork]: in the parent it returns the child's pid, or -1 when the process
    may have no more children; in the child it returns 0 and [body] is what
    the child goes on to do.  The files the child creates or empties on the
    way are there for the parent at once; its descriptors are its own. *)
Definition sys_fork (body : M unit) : M Z :=
  fun s =>
    if (max_children s <=? List.length (children s))%nat
    then Returned (-1)%Z (log (Sys_fork (-1)) s)
    else
      let cpid := next_pid s in
      let ran := body (forked s cpid) in
      let ends :=
        match ran with
        | Stopped (ByExit n) _ => Some (clock s, Exited (n mod 256))
        | Stopped (ByExec path _) _ =>
            match lookup path (programs s) with
            | Some (duration, w) => Some ((clock s + duration)%nat, w)
            | None => None
            end
        | Stopped Faults _ => Some (clock s, Signaled 11)
        | Stopped Hangs _ | Returned _ _ => None
        end in
      let c := mkChild cpid (trace (os_of ran)) ends in
      Returned cpid
        (log (Sys_fork cpid)
             (set_children (set_files s (files (os_of ran))) (cpid + 1)%Z
                           (children s ++ [c])%list)).

(** The child that terminates first, the earlier in the table among equals. *)
Fixpoint earliest (l : list child) : option (child * nat * wstatus) :=
  match l with
  | [] => None
  | c :: rest =>
      match child_ends c, earliest rest with
      | Some (t, w), Some (c1, t1, w1) =>
          if (t <=? t1)%nat then Some (c, t, w) else Some (c1, t1, w1)
      | Some (t, w), None => Some (c, t, w)
      | None, other => other
      end
  end.

(** [wait]: any one child that has terminated; with none yet, the process
    blocks until the first one does.  With no child at all it returns -1 and
    leaves [*status] alone. *)
Definition sys_wait : M (Z * option wstatus) :=
  fun s =>
    match children s with
    | [] => Returned ((-1)%Z, None) (log (Sys_wait (-1) None) s)
    | _ =>
        match earliest (children s) with
        | None => Stopped Hangs s
        | Some (c, t, w) =>
            let rest :=
              filter (fun c1 => negb (child_pid c1 =? child_pid c)%Z)
                     (children s) in
            Returned (child_pid c, Some w)
              (log (Sys_wait (child_pid c) (Some w))
                   (set_clock (set_children s (next_pid s) rest)
                              (Nat.max (clock s) t)))
        end
    end.

End Os.

(** ** exec.c *)

Module Exec.

Import Os.

Notation "x <- m ;; k" := (bind m (fun x => k))
  (at level 61, m at next level, right associativity).
Notation "m ;; k" := (bind m (fun _ => k))
  (at level 61, right associativity).

(** A format string that ends in a newline. *)
Definition line (s : string) : string := s ++ str1 newline.

(** Octal 0644. *)
Definition mode_0644 : Z := 6 * 64 + 4 * 8 + 4.

Definition interrupts_disable : M unit := sys_signal SIG_IGN.
Definition interrupts_enable : M unit := sys_signal SIG_DFL.
Definition interrupts_catch : M unit := sys_signal Handler.

Definition redir_fd (fd1 fd2 : Z) : M unit :=
  printf (line "REDIRECT %d TO %d") [Int fd1; Int fd2] ;;
  newfd <- sys_dup2 fd2 fd1 ;;
  if (newfd <? 0)%Z then sys_exit 1 else ret tt.

Definition redir_file (name : string) (fd : Z) (flags : list open_flag)
  : M unit :=
  newfd <- sys_open name flags (Some mode_0644) ;;
  redir_fd fd newfd ;;
  sys_close newfd.

(** The [switch] of [redir] on one element; its [default] is [assert(0)]. *)
Definition redir_one (elt : element) : M unit :=
  match elt with
  | ELEMENT_REDIR_FILE_IN fd name => redir_file name fd [O_RDONLY]
  | ELEMENT_REDIR_FILE_OUT fd name =>
      redir_file name fd [O_WRONLY; O_CREAT; O_TRUNC]
  | ELEMENT_REDIR_FILE_APPEND fd name =>
      redir_file name fd [O_WRONLY; O_APPEND]
  | ELEMENT_REDIR_FD_IN fd1 fd2
  | ELEMENT_REDIR_FD_OUT fd1 fd2 => redir_fd fd1 fd2
  | _ => fault
  end.

Fixpoint redir_each (l : list element) : M unit :=
  match l with
  | [] => ret tt
  | elt :: rest => redir_one elt ;; redir_each rest
  end.

Definition redir (c : Shall.command) : M unit := redir_each (Shall.redirs c).

(** The strings of a null-terminated [char **]. *)
Fixpoint strings (argv : list (option string)) : list string :=
  match argv with
  | Some s :: rest => s :: strings rest
  | _ => []
  end.

Fixpoint contains (c : ascii) (s : string) : bool :=
  match s with
  | "" => false
  | String c1 rest => (c1 =? c)%char || contains c rest
  end.

(** The directories of a search path, between its colons; [cur] is the one
    being read. *)
Fixpoint directories (path cur : string) : list string :=
  match path with
  | "" => [cur]
  | String c rest =>
      if (c =? ":")%char then cur :: directories rest ""
      else directories rest (cur ++ str1 c)
  end.

(** The loop of [do_exec] over the directories: it comes back only when no
    [execv] succeeded. *)
Fixpoint search (dirs : list string) (prog : string) (argv : list string)
  : M unit :=
  match dirs with
  | [] => ret tt
  | dir :: rest =>
      (if (String.length dir =? 0)%nat then sys_execv prog argv
       else sys_execv (dir ++ "/" ++ prog) argv) ;;
      search rest prog argv
  end.

Definition do_exec (argv : list (option string)) : M unit :=
  match nth 0 argv None with
  | None => fault
  | Some prog =>
      if negb (contains "/" prog) then
        found <- sys_getenv "PATH" ;;
        let path := match found with Some p => p | None => "" end in
        search (directories path "") prog (strings argv) ;;
        eprintf (line "%s: command not found") [Str prog] ;;
        sys_exit 1
      else
        sys_execv prog (strings argv) ;;
        perror prog ;;
        sys_exit 1
  end.

Definition execute (c : Shall.command) : M unit := do_exec (Shall.argv c).

(** What the child does after the fork in [spawn]. *)
Definition spawn_child (c : Shall.command) (background : bool) : M unit :=
  (if background then
     interrupts_disable ;;
     me <- sys_getpid ;;
     printf (line "process %i running in background:") [Int me]
   else ret tt) ;;
  redir c ;;
  execute c.

Definition spawn (c : Shall.command) (background : bool) : M unit :=
  pid <- sys_fork (spawn_child c background) ;;
  if (pid <? 0)%Z then eprintf (line "fork failed") []
  else if negb background then
    r <- sys_wait ;;
    let '(endpid, status) := r in
    match status with
    | Some (Exited n) =>
        printf (line "process:%d terminated with status %d") [Int endpid; Int n]
    | Some (Signaled n) =>
        printf (line "process:%d terminated with signal %d") [Int endpid; Int n]
    | None => ret tt
    end
  else ret tt.

Definition cd (c : Shall.command) : M unit :=
  if (3 <? Shall.argc c)%nat then eprintf (line "Usage: cd [directory]") []
  else
    match nth 1 (Shall.argv c) None with
    | None =>
        home <- sys_getenv "HOME" ;;
        sys_chdir home ;;
        ret tt
    | Some dir =>
        success <- sys_chdir (Some dir) ;;
        if (success =? -1)%Z then eprintf (line "No such file or directory") []
        else ret tt
    end.

Definition do_exit (c : Shall.command) : M unit :=
  if (3 <? Shall.argc c)%nat then eprintf (line "Usage: exit [status]") []
  else
    match nth 1 (Shall.argv c) None with
    | None => sys_exit 0
    | Some status => sys_exit (Libc.atoi status)
    end.

Definition exec (c : Shall.command) : M unit :=
  redir c ;;
  if (2 <? Shall.argc c)%nat then do_exec (tl (Shall.argv c)) else ret tt.

Definition builtin_check (c : Shall.command) (background : bool) : M bool :=
  if background then
    eprintf (line "can't run builtin commands in background") [] ;;
    ret false
  else if (0 <? Shall.nredirs c)%nat then
    eprintf (line "can't redirect I/O for builtin commands") [] ;;
    ret false
  else ret true.

Section Perform.

(** [interpret] of [shall.c], which [source] calls on each file: here on
    what a reader of the file would read. *)
Variable interpret : Reader.reader -> bool -> M unit.

(** What a reader on descriptor [fd] reads: the content of the file it is
    open on, nothing where the descriptor is not open. *)
Definition reader_create (fd : Z) : M Reader.reader :=
  fun s =>
    Returned
      match lookup_fd fd (fds s) with
      | Some path =>
          match lookup path (files s) with Some text => text | None => "" end
      | None => ""
      end s.

(** The loop of [source] from [argv[i]] on, up to the null pointer. *)
Fixpoint source_each (args : list (option string)) : M unit :=
  match args with
  | Some file :: rest =>
      fd <- sys_open file [O_RDONLY] None ;;
      reader <- reader_create fd ;;
      interpret reader false ;;
      sys_close fd ;;
      source_each rest
  | _ => ret tt
  end.

Definition source (c : Shall.command) : M unit :=
  source_each (tl (Shall.argv c)).

Definition perform (c : Shall.command) (background : bool) : M unit :=
  match nth 0 (Shall.argv c) None with
  | None => fault
  | Some name =>
      if (name =? "cd")%string then
        ok <- builtin_check c background ;;
        if ok then cd c else ret tt
      else if (name =? "source")%string then
        ok <- builtin_check c background ;;
        if ok then source c else ret tt
      else if (name =? "exit")%string then
        ok <- builtin_check c background ;;
        if ok then do_exit c else ret tt
      else if (name =? "exec")%string then
        if background then eprintf (line "can't exec in background") []
        else exec c
      else spawn c background
  end.

End Perform.

(** [perform] as the executor of [Shall.interpret]: the system after it and
    whether it came back. *)
Definition run (m : M unit) (s : os) : os * bool :=
  match m s with
  | Returned _ s1 => (s1, true)
  | Stopped _ s1 => (s1, false)
  end.

(** [interpret] of [shall.c] on this system, with [interpret_file] for what
    [source] runs. *)
Definition interpret (interpret_file : Reader.reader -> bool -> M unit)
  (fuel : nat) (reader : Reader.reader) (interactive : bool) (s : os)
  : os * Shall.ending :=
  Shall.interpret os (fun c background => run (perform interpret_file c background))
    (fun msg => log (Eprintf msg [])) fuel reader interactive s.

(** The builtin commands that go through [builtin_check]. *)
Definition restricted (name : string) : bool :=
  ((name =? "cd") || (name =? "source") || (name =? "exit"))%string.

End Exec.

(** ** Quoted and escaped text, as the user writes it *)

Module Quoting.

(** A piece of a word: a character written as it is, one written after a
    backslash, or a run of characters between single or double quotes. *)
Inductive piece : Type :=
| Plain (c : ascii)
| Escaped (c : ascii)
| SingleQuoted (s : string)
| DoubleQuoted (s : string).

Definition printable (c : ascii) : bool :=
  (32 <=? nat_of_ascii c)%nat && (nat_of_ascii c <=? 126)%nat.

(** The one-byte tokens of the tokenizer. *)
Definition is_special (c : ascii) : bool :=
  ((c =? "<") || (c =? ">") || (c =? "&") || (c =? "{") || (c =? "}")
   || (c =? ";") || (c =? newline))%char.

(** A printable character that stands for itself outside quotes. *)
Definition ordinary (c : ascii) : bool :=
  printable c && negb (is_special c) && negb (Token.is_blank c)
  && negb (c =? backslash)%char && negb (c =? squote)%char
  && negb (c =? dquote)%char.

Definition quotable (quote : ascii) (c : ascii) : bool :=
  printable c && negb (c =? quote)%char.

Definition piece_ok (p : piece) : bool :=
  match p with
  | Plain c => ordinary c
  | Escaped c => printable c
  | SingleQuoted s => all_chars (quotable squote) s
  | DoubleQuoted s => all_chars (quotable dquote) s
  end.

(** The bytes of a piece in the input. *)
Definition written (p : piece) : string :=
  match p with
  | Plain c => str1 c
  | Escaped c => String backslash (str1 c)
  | SingleQuoted s => String squote (s ++ str1 squote)
  | DoubleQuoted s => String dquote (s ++ str1 dquote)
  end.

(** The text a piece stands for: the quotes and the escaping backslash
    removed. *)
Definition meant (p : piece) : string :=
  match p with
  | Plain c => str1 c
  | Escaped c => str1 c
  | SingleQuoted s => s
  | DoubleQuoted s => s
  end.

Fixpoint written_all (ps : list piece) : string :=
  match ps with
  | [] => ""
  | p :: rest => written p ++ written_all rest
  end.

Fixpoint meant_all (ps : list piece) : string :=
  match ps with
  | [] => ""
  | p :: rest => meant p ++ meant_all rest
  end.

End Quoting.

(** ** A system to run examples on *)

Module Sample.

Import Os.

(** A terminal on the three standard descriptors, a few programs, no child,
    and room for eight. *)
Definition a_system : os :=
  mkOs [("/etc/motd", "hello")] ["/"; "/tmp"]
       [("/bin/sleep", (100%nat, Exited 0)); ("/bin/true", (1%nat, Exited 0));
        ("/bin/echo", (1%nat, Exited 0))]
       [("PATH", "/usr/bin:/bin"); ("HOME", "/")] "/"
       [(0%Z, "/dev/tty"); (1%Z, "/dev/tty"); (2%Z, "/dev/tty")]
       Handler 10 11 8 [] 0 [].

(** The command [gotline] hands to [perform] for these words. *)
Definition command_of (words : list string) (redirs : list element)
  : Shall.command :=
  Shall.mkCommand (map Some words ++ [None])%list redirs.

(** The same system with two scripts: the first changes directory, sources
    the second and a file that is not there, and runs a program. *)
Definition scripts : os :=
  set_files a_system
    [("/tmp/rc",
      "cd /tmp" ++ str1 newline ++ "source /tmp/more /nowhere" ++ str1 newline
      ++ "true" ++ str1 newline);
     ("/tmp/more", "cd /" ++ str1 newline)].

(** An [interpret] for [source] that reads nothing. *)
Definition no_interpret (r : Reader.reader) (interactive : bool) : M unit :=
  ret tt.

End Sample.

(** ** The special characters *)

Module Special.

(** The token of each of the seven one-byte special characters of
    [tokenizer_next]. *)
Definition special_token (c : ascii) : option token :=
  if (c =? "<")%char then Some TOKEN_LT
  else if (c =? ">")%char then Some TOKEN_GT
  else if (c =? "&")%char then Some TOKEN_AMPERSAND
  else if (c =? "{")%char then Some TOKEN_CB_OPEN
  else if (c =? "}")%char then Some TOKEN_CB_CLOSE
  else if (c =? ";")%char then Some TOKEN_SEMI
  else if (c =? newline)%char then Some TOKEN_EOLN
  else None.

End Special.

(** ** The grammar *)

Module Grammar.

(** The grammar in the header of [parser.c]: an element is a string, or a
    redirection with an optional descriptor in braces, a direction, and a
    file name or a descriptor in braces; appending is to a file only. *)
Inductive direction : Type := Input | Output | Appending.

Inductive target : Type :=
| ToFile (name : string)
| ToFd (n : string).

Inductive production : Type :=
| Word (s : string)
| Redirection (fd : option string) (d : direction) (to : target).

Definition in_grammar (g : production) : bool :=
  match g with
  | Redirection _ Appending (ToFd _) => false
  | _ => true
  end.

Definition braces (n : string) : list token :=
  [TOKEN_CB_OPEN; TOKEN_STRING n; TOKEN_CB_CLOSE].

Definition tokens_of (g : production) : list token :=
  match g with
  | Word s => [TOKEN_STRING s]
  | Redirection fd d to =>
      (match fd with Some n => braces n | None => [] end
       ++ match d with
          | Input => [TOKEN_LT]
          | Output => [TOKEN_GT]
          | Appending => [TOKEN_GT; TOKEN_GT]
          end
       ++ match to with ToFile name => [TOKEN_STRING name] | ToFd n => braces n end)%list
  end.

(** The element a production stands for: the descriptor is 0 for input and
    1 for the others unless it is given. *)
Definition element_of (g : production) : element :=
  match g with
  | Word s => ELEMENT_ARG s
  | Redirection fd d to =>
      let fd1 :=
        match fd, d with
        | Some n, _ => Libc.to_int (Libc.to_unsigned (Libc.atoi n))
        | None, Input => 0%Z
        | None, _ => 1%Z
        end in
      match d, to with
      | Input, ToFile name => ELEMENT_REDIR_FILE_IN fd1 name
      | Output, ToFile name => ELEMENT_REDIR_FILE_OUT fd1 name
      | Appending, ToFile name => ELEMENT_REDIR_FILE_APPEND fd1 name
      | Input, ToFd n => ELEMENT_REDIR_FD_IN fd1 (Libc.atoi n)
      | Output, ToFd n => ELEMENT_REDIR_FD_OUT fd1 (Libc.atoi n)
      | Appending, ToFd _ => ELEMENT_ERROR
      end
  end.

Definition is_error (e : element) : bool :=
  match e with ELEMENT_ERROR => true | _ => false end.

Definition is_newline (tok : token) : bool :=
  match tok with TOKEN_EOLN => true | _ => false end.

(** How many newline tokens, and how many error elements. *)
Definition newlines (toks : list token) : nat :=
  List.length (filter is_newline toks).

Definition errors_in (es : list element) : nat :=
  List.length (filter is_error es).

End Grammar.

(** ** Lines of elements and of words *)

Module Lines.

Import Shall.

Section Elements.

Variable World : Type.
Variable perform : command -> bool -> World -> World * bool.
Variable write_stderr : string -> World -> World.

(** The turns of the loop of [interpret] on elements given one by one,
    whatever parser hands them over, up to the first turn that does not go
    round again. *)
Fixpoint interpret_elements (interactive : bool) (es : list element)
  (c : command) (w : World) : turn World :=
  match es with
  | [] => Next c w
  | elt :: rest =>
      match interpret_switch World perform write_stderr interactive elt c w with
      | Next c1 w1 => interpret_elements interactive rest c1 w1
      | other => other
      end
  end.

End Elements.

(** The same with the executor that only records. *)
Definition run_elements : bool -> list element -> command -> list event
                          -> turn (list event) :=
  interpret_elements (list event) record_perform record_stderr.

(** The elements a command is made of. *)
Definition is_item (e : element) : bool :=
  match e with
  | ELEMENT_ARG _
  | ELEMENT_REDIR_FILE_IN _ _ | ELEMENT_REDIR_FILE_OUT _ _
  | ELEMENT_REDIR_FILE_APPEND _ _
  | ELEMENT_REDIR_FD_IN _ _ | ELEMENT_REDIR_FD_OUT _ _ => true
  | _ => false
  end.

(** The elements that end a line before the end of the input. *)
Definition is_terminator (e : element) : bool :=
  match e with
  | ELEMENT_EOLN | ELEMENT_SEMI | ELEMENT_BACKGROUND => true
  | _ => false
  end.

Fixpoint arguments (es : list element) : list string :=
  match es with
  | [] => []
  | ELEMENT_ARG s :: rest => s :: arguments rest
  | _ :: rest => arguments rest
  end.

Fixpoint redirections (es : list element) : list element :=
  match es with
  | [] => []
  | ELEMENT_ARG _ :: rest => redirections rest
  | e :: rest => e :: redirections rest
  end.

(** What the interpreter records for a line of items ended by [term]. *)
Definition line_events (interactive : bool) (es : list element)
  (term : element) : list event :=
  (match arguments es with
   | [] => []
   | args =>
       [Perform (mkCommand (map Some args ++ [None]) (redirections es))
                match term with ELEMENT_BACKGROUND => true | _ => false end]
   end
   ++ match term with
      | ELEMENT_EOLN => if interactive then [Stderr "-> "] else []
      | _ => []
      end)%list.

(** Words with one space between them. *)
Fixpoint words_text (words : list (list Quoting.piece)) : string :=
  match words with
  | [] => ""
  | w :: rest =>
      match rest with
      | [] => Quoting.written_all w
      | _ => Quoting.written_all w ++ String space (words_text rest)
      end
  end.

(** The tokenizer once the words of a line are read and the newline after
    them is next: still unread before it if there was no word, buffered
    behind the last word otherwise. *)
Definition at_newline (words : list (list Quoting.piece)) (rest : string)
  : Token.tokenizer :=
  match words with
  | [] => Token.tokenizer_create (String newline rest)
  | _ => Token.mkTokenizer rest Token.TOKENIZER_BUFFERED newline None
  end.

Definition word_ok (w : list Quoting.piece) : bool :=
  forallb Quoting.piece_ok w
  && negb (Quoting.meant_all w =? "")%string.

End Lines.

(** ** The search path *)

Module Path.

Import Os.

(** The file [do_exec] tries for a program in a directory of the search
    path: the program itself for the empty directory. *)
Definition candidate (dir prog : string) : string :=
  if (String.length dir =? 0)%nat then prog else dir ++ "/" ++ prog.

(** Directories written as a search path, with colons between them. *)
Fixpoint joined (dirs : list string) : string :=
  match dirs with
  | [] => ""
  | dir :: rest =>
      match rest with
      | [] => dir
      | _ => dir ++ ":" ++ joined rest
      end
  end.

(** The call that fails for a program in a directory. *)
Definition failed (prog : string) (argv : list string) (dir : string) : call :=
  Sys_execv (candidate dir prog) argv (-1).

End Path.

(** ** The shell on files that name other files *)

Module Nested.

Import Os Exec.

(** [interpret] of [shall.c] as a call that [source] makes: it comes back
    at the end of the input, and does not when a command made the process
    exit or replaced it.  [interpret_file] is what a [source] inside the
    input runs.  The world of the interpreter is the system with the reason
    the last [perform] did not come back for (at the start there is none,
    and any will do: it is looked at after such a [perform] only). *)
Definition interpret_call (interpret_file : Reader.reader -> bool -> M unit)
  (fuel : nat) (reader : Reader.reader) (interactive : bool) : M unit :=
  fun s =>
    match
      Shall.interpret (os * stop)
        (fun c background w =>
           match perform interpret_file c background (fst w) with
           | Returned _ s1 => ((s1, snd w), true)
           | Stopped why s1 => ((s1, why), false)
           end)
        (fun msg w => (log (Eprintf msg []) (fst w), snd w))
        fuel reader interactive (s, Hangs)
    with
    | ((s1, _), Shall.Completed) => Returned tt s1
    | ((s1, why), Shall.ProcessGone) => Stopped why s1
    | ((s1, _), Shall.AssertFailed) => Stopped Faults s1
    | ((s1, _), Shall.NoFuel) => Stopped Hangs s1
    end.

(** The shell itself: [source] runs the same interpreter on its files,
    which may name others, [depth] deep at most. *)
Fixpoint shell (depth fuel : nat) : Reader.reader -> bool -> M unit :=
  match depth with
  | O => fun _ _ s => Stopped Hangs s
  | S depth' => interpret_call (shell depth' fuel) fuel
  end.

Definition is_dup2 (c : call) : bool :=
  match c with
  | Sys_dup2 _ _ _ => true
  | _ => false
  end.

(** The process went from [s] to [s1] and, unless it made a [dup2] on the
    way, its descriptors are what they were. *)
Definition kept (s s1 : os) : Prop :=
  exists t,
    trace s1 = (trace s ++ t)%list
    /\ (existsb is_dup2 t = false ->
        lookup_fd (-1) (fds s) = None ->
        fds s1 = fds s).

(** Two turns of the interpreter, each on its own world, that end the same
    way with the same command. *)
Definition same_turn {World1 World2 : Type} (same : World1 -> World2 -> Prop)
  (a : Shall.turn World1) (b : Shall.turn World2) : Prop :=
  match a, b with
  | Shall.Next c1 w1, Shall.Next c2 w2 => c1 = c2 /\ same w1 w2
  | Shall.Last c1 w1, Shall.Last c2 w2 => c1 = c2 /\ same w1 w2
  | Shall.Gone w1, Shall.Gone w2 => same w1 w2
  | _, _ => False
  end.

End Nested.

(** * Properties *)

(** * Strings *)

Lemma append_nil_r (s : string) : s ++ "" = s.
Proof. induction s as [|c s IH]; simpl; [reflexivity | now rewrite IH]. Qed.

Lemma append_assoc (a b c : string) : (a ++ b) ++ c = a ++ (b ++ c).
Proof. induction a as [|x a IH]; simpl; [reflexivity | now rewrite IH]. Qed.

Lemma all_chars_append (f : ascii -> bool) (a b : string) :
  all_chars f (a ++ b) = all_chars f a && all_chars f b.
Proof.
  induction a as [|x a IH]; simpl; [reflexivity|].
  now rewrite IH, andb_assoc.
Qed.

Lemma c_string_terminated (s : string) :
  all_chars (fun c => negb (c =? NUL)%char) s = true ->
  c_string (s ++ str1 NUL) = s.
Proof.
  induction s as [|c s IH]; simpl; [reflexivity|].
  intros H. apply andb_prop in H as [Hc Hs].
  apply negb_true_iff in Hc. rewrite Hc, IH by assumption. reflexivity.
Qed.

(** * The tokenizer, turn by turn *)

Section TokenizerTurns.

Import Token.

(** Every turn of the loop reads its character with [reader_next]. *)
Lemma tokenizer_loop_reads (r : Reader.reader) (t : tokenizer) :
  tokenizer_loop r t
  = let '(c, rest) := Reader.reader_next r in
    match tokenizer_switch t c with
    | Return tok t1 => Some (tok, set_reader t1 rest)
    | Continue t1 =>
        match r with
        | "" => None
        | _ => tokenizer_loop rest t1
        end
    | AssertionFailed => None
    end.
Proof. destruct r; reflexivity. Qed.

Lemma extend_char (o : option string) (c : ascii) (s : string) :
  extend (Some (match o with None => str1 c | Some a => a ++ str1 c end)) s
  = extend o (String c s).
Proof.
  destruct s as [|d s]; simpl.
  - reflexivity.
  - destruct o as [a|]; simpl; [|reflexivity].
    now rewrite append_assoc.
Qed.

Lemma extend_append (o : option string) (a b : string) :
  extend (extend o a) b = extend o (a ++ b).
Proof.
  destruct a as [|x a]; [reflexivity|].
  destruct b as [|y b].
  - simpl. now rewrite append_nil_r.
  - destruct o as [s|]; simpl; [|reflexivity].
    now rewrite append_assoc.
Qed.

Lemma printable_not (c d : ascii) :
  Quoting.printable c = true -> Quoting.printable d = false ->
  (c =? d)%char = false.
Proof.
  intros Hc Hd. destruct (c =? d)%char eqn:E; [|reflexivity].
  apply Ascii.eqb_eq in E. subst. congruence.
Qed.

Lemma switch_blank (t : tokenizer) (c : ascii) :
  state t = TOKENIZER_NEUTRAL -> str t = None -> is_blank c = true ->
  tokenizer_switch t c = Continue t.
Proof.
  intros Hs Hn Hb. unfold tokenizer_switch. rewrite Hs.
  unfold is_blank in Hb.
  repeat (apply orb_prop in Hb as [Hb|Hb]);
    apply Ascii.eqb_eq in Hb; subst c; cbn; now rewrite Hn.
Qed.

Lemma switch_ordinary (t : tokenizer) (c : ascii) :
  state t = TOKENIZER_NEUTRAL -> Quoting.ordinary c = true ->
  tokenizer_switch t c = Continue (tokenizer_append t c).
Proof.
  intros Hs Ho. unfold Quoting.ordinary in Ho.
  destruct (Quoting.printable c) eqn:Hp; [|discriminate Ho].
  repeat (apply andb_prop in Ho as [Ho ?]).
  repeat match goal with H : negb _ = true |- _ => apply negb_true_iff in H end.
  unfold Quoting.is_special in *.
  repeat match goal with H : (_ || _) = false |- _ =>
    apply orb_false_elim in H as [H ?] end.
  assert (He : (c =? EOF)%char = false) by (now apply printable_not).
  unfold tokenizer_switch. rewrite Hs.
  repeat match goal with H : (c =? _)%char = false |- _ => rewrite H; clear H end.
  match goal with H : is_blank c = false |- _ => rewrite H end.
  reflexivity.
Qed.

Lemma switch_open (t : tokenizer) (q : ascii) :
  state t = TOKENIZER_NEUTRAL ->
  tokenizer_switch t backslash = Continue (set_state t TOKENIZER_ESC)
  /\ tokenizer_switch t squote = Continue (set_state t TOKENIZER_SQ_STRING)
  /\ tokenizer_switch t dquote = Continue (set_state t TOKENIZER_DQ_STRING).
Proof. intros Hs. unfold tokenizer_switch. rewrite Hs. now cbn. Qed.

Lemma switch_escaped (t : tokenizer) (c : ascii) :
  state t = TOKENIZER_ESC -> Quoting.printable c = true ->
  tokenizer_switch t c
  = Continue (tokenizer_append (set_state t TOKENIZER_NEUTRAL) c).
Proof.
  intros Hs Hc. unfold tokenizer_switch. rewrite Hs.
  now rewrite (printable_not c EOF).
Qed.

Lemma switch_quoted (t : tokenizer) (quote c : ascii) :
  quote = squote \/ quote = dquote ->
  state t = quoted_state quote -> Quoting.quotable quote c = true ->
  tokenizer_switch t c = Continue (tokenizer_append t c).
Proof.
  intros Hq Hs Hc. unfold Quoting.quotable in Hc.
  destruct (Quoting.printable c) eqn:Hp; [|discriminate Hc].
  apply negb_true_iff in Hc. rename Hc into Hn.
  unfold tokenizer_switch. rewrite Hs.
  destruct Hq; subst quote; cbn;
    rewrite (printable_not c EOF) by easy; now rewrite Hn.
Qed.

Lemma switch_close (t : tokenizer) (quote : ascii) :
  quote = squote \/ quote = dquote ->
  state t = quoted_state quote ->
  tokenizer_switch t quote = Continue (set_state t TOKENIZER_NEUTRAL).
Proof.
  intros Hq Hs. unfold tokenizer_switch. rewrite Hs.
  destruct Hq; subst quote; now cbn.
Qed.

Lemma loop_blanks (b rest : string) (t : tokenizer) :
  state t = TOKENIZER_NEUTRAL -> str t = None ->
  all_chars is_blank b = true ->
  tokenizer_loop (b ++ rest) t = tokenizer_loop rest t.
Proof.
  intros Hs Hn. induction b as [|c b IH]; simpl; [reflexivity|].
  intros H. apply andb_prop in H as [Hc Hb].
  destruct rest; rewrite (switch_blank t c) by assumption; now apply IH.
Qed.

Lemma set_str_append (t : tokenizer) (c : ascii) (o : option string) :
  set_str (tokenizer_append t c) o = set_str t o.
Proof. now destruct t. Qed.

Lemma loop_quoted (quote : ascii) (s rest : string) :
  quote = squote \/ quote = dquote ->
  all_chars (Quoting.quotable quote) s = true ->
  forall t : tokenizer,
    state t = quoted_state quote ->
    tokenizer_loop (s ++ rest) t
    = tokenizer_loop rest (set_str t (extend (str t) s)).
Proof.
  intros Hq. induction s as [|c s IH]; simpl; intros Hall t Hs.
  - now destruct t.
  - apply andb_prop in Hall as [Hc Hall].
    rewrite (switch_quoted t quote c) by assumption.
    rewrite IH by assumption.
    rewrite set_str_append. simpl str. now rewrite extend_char.
Qed.

Lemma loop_continue (c : ascii) (rest : string) (t t1 : tokenizer) :
  tokenizer_switch t c = Continue t1 ->
  tokenizer_loop (String c rest) t = tokenizer_loop rest t1.
Proof. intros H. simpl. now rewrite H. Qed.

Lemma loop_piece (p : Quoting.piece) (rest : string) (t : tokenizer) :
  Quoting.piece_ok p = true ->
  state t = TOKENIZER_NEUTRAL ->
  tokenizer_loop (Quoting.written p ++ rest) t
  = tokenizer_loop rest (set_str t (extend (str t) (Quoting.meant p))).
Proof.
  intros Hok Hs.
  destruct (switch_open t squote Hs) as (Hesc & Hsq & Hdq).
  destruct p as [c|c|s|s]; simpl in Hok; simpl Quoting.written;
    simpl Quoting.meant; simpl append.
  - rewrite (loop_continue _ _ _ _ (switch_ordinary t c Hs Hok)).
    destruct t as [r st b o]. simpl in *. subst st. now destruct o.
  - rewrite (loop_continue _ _ _ _ Hesc).
    erewrite loop_continue by (apply switch_escaped; [reflexivity | exact Hok]).
    destruct t as [r st b o]. simpl in *. subst st. now destruct o.
  - rewrite (loop_continue _ _ _ _ Hsq).
    rewrite append_assoc. change (str1 squote ++ rest) with (String squote rest).
    rewrite (loop_quoted squote) by (auto; reflexivity).
    erewrite loop_continue by (apply (switch_close _ squote); [auto | reflexivity]).
    destruct t as [r st b o]. simpl in *. now subst st.
  - rewrite (loop_continue _ _ _ _ Hdq).
    rewrite append_assoc. change (str1 dquote ++ rest) with (String dquote rest).
    rewrite (loop_quoted dquote) by (auto; reflexivity).
    erewrite loop_continue by (apply (switch_close _ dquote); [auto | reflexivity]).
    destruct t as [r st b o]. simpl in *. now subst st.
Qed.

Lemma loop_pieces (ps : list Quoting.piece) (rest : string) :
  forallb Quoting.piece_ok ps = true ->
  forall t : tokenizer,
    state t = TOKENIZER_NEUTRAL ->
    tokenizer_loop (Quoting.written_all ps ++ rest) t
    = tokenizer_loop rest (set_str t (extend (str t) (Quoting.meant_all ps))).
Proof.
  induction ps as [|p ps IH]; simpl; intros Hok t Hs.
  - now destruct t.
  - apply andb_prop in Hok as [Hp Hok].
    rewrite append_assoc, loop_piece by assumption.
    rewrite IH by (assumption || now destruct t).
    destruct t as [r st b o]. simpl. now rewrite extend_append.
Qed.

Lemma quotable_printable (quote : ascii) (s : string) :
  all_chars (Quoting.quotable quote) s = true ->
  all_chars Quoting.printable s = true.
Proof.
  induction s as [|c s IH]; simpl; [reflexivity|].
  intros H. apply andb_prop in H as [Hc Hs]. unfold Quoting.quotable in Hc.
  destruct (Quoting.printable c); [now apply IH | discriminate].
Qed.

Lemma meant_printable (ps : list Quoting.piece) :
  forallb Quoting.piece_ok ps = true ->
  all_chars Quoting.printable (Quoting.meant_all ps) = true.
Proof.
  induction ps as [|p ps IH]; simpl; [reflexivity|].
  intros H. apply andb_prop in H as [Hp Hps].
  rewrite all_chars_append, IH, andb_true_r by assumption.
  destruct p as [c|c|s|s]; simpl in *.
  - unfold Quoting.ordinary in Hp.
    destruct (Quoting.printable c); [reflexivity | discriminate].
  - now rewrite Hp.
  - now apply quotable_printable in Hp.
  - now apply quotable_printable in Hp.
Qed.

Lemma printable_no_nul (s : string) :
  all_chars Quoting.printable s = true ->
  all_chars (fun c => negb (c =? NUL)%char) s = true.
Proof.
  induction s as [|c s IH]; simpl; [reflexivity|].
  intros H. apply andb_prop in H as [Hc Hs].
  now rewrite (printable_not c NUL), IH.
Qed.

Lemma loop_empty_quotes (quote : ascii) (rest : string) (t : tokenizer) :
  quote = squote \/ quote = dquote ->
  state t = TOKENIZER_NEUTRAL ->
  tokenizer_loop (String quote (String quote rest)) t = tokenizer_loop rest t.
Proof.
  intros Hq Hs. destruct (switch_open t squote Hs) as (_ & Hsq & Hdq).
  destruct t as [r st b o]. simpl in Hs. subst st.
  destruct Hq; subst quote.
  - rewrite (loop_continue _ _ _ _ Hsq).
    erewrite loop_continue
      by (apply (switch_close _ squote); [now left | reflexivity]).
    reflexivity.
  - rewrite (loop_continue _ _ _ _ Hdq).
    erewrite loop_continue
      by (apply (switch_close _ dquote); [now right | reflexivity]).
    reflexivity.
Qed.

End TokenizerTurns.

(** * The round trip of quoted text *)

Lemma tokenizer_next_quoted (ps : list Quoting.piece) :
  forallb Quoting.piece_ok ps = true ->
  Quoting.meant_all ps <> "" ->
  Token.tokenizer_next (Token.tokenizer_create (Quoting.written_all ps))
  = Some (TOKEN_STRING (Quoting.meant_all ps),
          Token.mkTokenizer "" Token.TOKENIZER_NEUTRAL NUL None).
Proof.
  intros Hok Hne.
  unfold Token.tokenizer_next, Token.tokenizer_create. simpl Token.state.
  simpl Token.reader.
  rewrite <- (append_nil_r (Quoting.written_all ps)) at 1.
  rewrite loop_pieces by easy.
  pose proof (printable_no_nul _ (meant_printable ps Hok)) as Hnul.
  destruct (Quoting.meant_all ps) as [|c m] eqn:E; [congruence|].
  cbn -[c_string append].
  now rewrite (c_string_terminated (String c m)).
Qed.

(** C8, as amended: quoted, escaped and ordinary printable text that stands
    for a text that is not empty comes out of the tokenizer and the parser
    as exactly one argument, that text, and then the end of the input. *)
Theorem quoted_text_is_one_argument (ps : list Quoting.piece) (fuel : nat) :
  forallb Quoting.piece_ok ps = true ->
  Quoting.meant_all ps <> "" ->
  (2 <= fuel)%nat ->
  Parser.parser_all fuel (Quoting.written_all ps)
  = [ELEMENT_ARG (Quoting.meant_all ps); ELEMENT_EOF].
Proof.
  intros Hok Hne Hfuel.
  destruct fuel as [|[|fuel]]; try lia.
  unfold Parser.parser_all.
  cbn [Parser.parser_all_from Parser.parser_next Parser.parser_create
       Parser.tokenizer].
  rewrite tokenizer_next_quoted by assumption.
  reflexivity.
Qed.

Lemma quoted_text_is_one_argument_witness :
  Parser.parser_all 2
    (Quoting.written_all
       [Quoting.SingleQuoted "a b"; Quoting.Escaped ";"; Quoting.Plain "c";
        Quoting.DoubleQuoted "d'e"])
  = [ELEMENT_ARG "a b;cd'e"; ELEMENT_EOF].
Proof.
  apply (quoted_text_is_one_argument
           [Quoting.SingleQuoted "a b"; Quoting.Escaped ";"; Quoting.Plain "c";
            Quoting.DoubleQuoted "d'e"] 2).
  - reflexivity.
  - discriminate.
  - lia.
Defined.

(** C8, as stated, fails on the empty quoted string: it is quoted text, it
    stands for the empty text, and no argument comes out at all. *)
Lemma empty_quotes_no_argument :
  forallb Quoting.piece_ok [Quoting.SingleQuoted ""] = true
  /\ Quoting.written_all [Quoting.SingleQuoted ""] = "''"
  /\ Parser.parser_all 9 (Quoting.written_all [Quoting.SingleQuoted ""])
     = [ELEMENT_EOF]
  /\ Parser.parser_all 9 (Quoting.written_all [Quoting.SingleQuoted ""])
     <> [ELEMENT_ARG (Quoting.meant_all [Quoting.SingleQuoted ""]); ELEMENT_EOF].
Proof. repeat split; try reflexivity. discriminate. Qed.

(** The sixth scenario of the specification: [echo "a b" c] is a command
    with the two arguments [a b] and [c]. *)
Example two_arguments :
  Shall.dispatched 99
    ("echo " ++ str1 dquote ++ "a b" ++ str1 dquote ++ " c" ++ str1 newline)
    false
  = ([Shall.Perform
        (Shall.mkCommand [Some "echo"; Some "a b"; Some "c"; None] []) false],
     Shall.Completed).
Proof. reflexivity. Qed.

(** A string that is followed by a special character comes first, and the
    character at the next call. *)
Example string_then_special :
  Token.tokenizer_all 9 (Token.tokenizer_create "out>>log;")
  = [TOKEN_STRING "out"; TOKEN_GT; TOKEN_GT; TOKEN_STRING "log"; TOKEN_SEMI;
     TOKEN_EOF].
Proof. reflexivity. Qed.

(** * Empty quotes *)

(** C10: an input that is an empty pair of quotes between separators gives
    no token but the end of the input, and so no element but the end of the
    input: the empty argument is lost. *)
Theorem empty_quotes_vanish (quote : ascii) (before after : string)
  (fuel : nat) :
  quote = squote \/ quote = dquote ->
  all_chars Token.is_blank before = true ->
  all_chars Token.is_blank after = true ->
  (1 <= fuel)%nat ->
  let input := before ++ String quote (String quote after) in
  Token.tokenizer_all fuel (Token.tokenizer_create input) = [TOKEN_EOF]
  /\ Parser.parser_all fuel input = [ELEMENT_EOF].
Proof.
  intros Hq Hb Ha Hfuel input.
  assert (Hnext : Token.tokenizer_next (Token.tokenizer_create input)
                  = Some (TOKEN_EOF,
                          Token.mkTokenizer "" Token.TOKENIZER_EOF NUL None)).
  { unfold Token.tokenizer_next, Token.tokenizer_create, input.
    simpl Token.state. simpl Token.reader.
    rewrite loop_blanks by easy.
    rewrite loop_empty_quotes by easy.
    rewrite <- (append_nil_r after), loop_blanks by easy.
    reflexivity. }
  destruct fuel as [|fuel]; [lia|]. split.
  - simpl. now rewrite Hnext.
  - unfold Parser.parser_all.
    cbn [Parser.parser_all_from Parser.parser_next Parser.parser_create
         Parser.tokenizer].
    now rewrite Hnext.
Qed.

Lemma empty_quotes_vanish_witness :
  Token.tokenizer_all 3 (Token.tokenizer_create (" " ++ "''" ++ " "))
  = [TOKEN_EOF]
  /\ Parser.parser_all 3 (" " ++ "''" ++ " ") = [ELEMENT_EOF].
Proof.
  apply (empty_quotes_vanish squote " " " " 3).
  - left; reflexivity.
  - reflexivity.
  - reflexivity.
  - lia.
Defined.

(** * The window of pending tokens *)

Section ParserWindow.

Import Parser.

(** Case analysis on the pending tokens, one more token at a time, as far as
    [parser_match] looks: [H] is what the match is known to give. *)
Ltac next_token H :=
  match type of H with
  | context [?l] =>
      is_var l;
      match type of l with
      | list token => destruct l as [|[] l]; cbn in H; try discriminate H
      end
  end.

Ltac all_tokens H :=
  unfold parser_match, match_redirection in H; repeat next_token H.

(** [parser_match] returns 0 on six tokens at most. *)
Lemma match_pending_short (toks : list token) :
  parser_match toks = NoMatch -> (List.length toks < MAX_TOKENS)%nat.
Proof.
  intros H. all_tokens H; cbn; unfold MAX_TOKENS; lia.
Qed.

(** A token more on pending tokens breaks no assertion of [parser_match]. *)
Lemma match_pending_push (toks : list token) (tok : token) :
  parser_match toks = NoMatch ->
  parser_match (toks ++ [tok])%list <> AssertionFailed.
Proof.
  intros H. all_tokens H; destruct tok; cbn; discriminate.
Qed.

Lemma match_first (tok : token) : parser_match [tok] <> AssertionFailed.
Proof. destruct tok; cbn; discriminate. Qed.

Lemma window_ok_short (p : parser) :
  window_ok p -> (ntokens p < MAX_TOKENS)%nat.
Proof.
  unfold ntokens. intros [_ [H|H]].
  - rewrite H. cbn. unfold MAX_TOKENS. lia.
  - now apply match_pending_short.
Qed.

Lemma switch_window_ok (p : parser) (tok : token) :
  window_ok p -> turn_ok (parser_switch p tok).
Proof.
  intros Hok. pose proof (window_ok_short p Hok) as Hshort.
  destruct Hok as [Hs Hw].
  unfold parser_switch, parser_switch_with. rewrite Hs.
  assert (Hpush : turn_ok
      (if negb (ntokens p <? MAX_TOKENS)%nat then Abort
       else
         let p1 := set_tokens p (tokens p ++ [tok])%list in
         match parser_match (tokens p1) with
         | NoMatch =>
             if (ntokens p1 =? MAX_TOKENS)%nat
             then Return ELEMENT_ERROR
                    (set_state (parser_truncate (report p1 "pattern too long"))
                               PARSER_ERROR)
             else Continue p1
         | Matched e => Return e (parser_truncate p1)
         | Mismatch msg => Return ELEMENT_ERROR (parser_truncate (report p1 msg))
         | AssertionFailed => Abort
         end)).
  { apply Nat.ltb_lt in Hshort. rewrite Hshort. cbn [negb].
    cbv zeta. cbn [tokens set_tokens].
    destruct (parser_match (tokens p ++ [tok])%list) eqn:Hm; cbn.
    - pose proof (match_pending_short _ Hm) as Hlt.
      unfold ntokens. cbn [tokens].
      destruct (Nat.eqb_spec (List.length (tokens p ++ [tok])%list) MAX_TOKENS);
        [lia|].
      split; [exact Hs | now right].
    - split; [exact Hs | now left].
    - split; [exact Hs | now left].
    - destruct Hw as [H|H].
      + rewrite H in Hm. now apply match_first in Hm.
      + now apply match_pending_push in Hm. }
  assert (Hcut : forall msg, window_ok (parser_truncate (report p msg)))
    by (intros msg; split; [exact Hs | now left]).
  destruct tok; try exact Hpush.
  - destruct (0 <? ntokens p)%nat; cbn; [apply Hcut | now split].
  - destruct (ntokens p =? 0)%nat; cbn; [now split | apply Hcut].
  - cbn. unfold ntokens. cbn [tokens set_line].
    destruct (List.length (tokens p) =? 0)%nat; cbn; now split.
  - destruct (ntokens p =? 0)%nat; cbn; [now split | apply Hcut].
Qed.

Lemma created_window_ok (t : Token.tokenizer) : window_ok (parser_create t).
Proof. split; [reflexivity | now left]. Qed.

Lemma feed_window_ok (toks : list token) :
  forall p : parser,
    window_ok p ->
    exists es p1, feed p toks = Some (es, p1) /\ window_ok p1.
Proof.
  induction toks as [|tok toks IH]; intros p Hok; simpl.
  - now exists [], p.
  - pose proof (switch_window_ok p tok Hok) as Hturn.
    destruct (parser_switch p tok) as [e p1|p1|]; cbn in Hturn.
    + destruct (IH p1 Hturn) as (es & p2 & -> & Hok2). now exists (e :: es), p2.
    + exact (IH p1 Hturn).
    + contradiction.
Qed.

Lemma seven_tokens_resolve (toks : list token) :
  List.length toks = MAX_TOKENS -> parser_match toks <> NoMatch.
Proof.
  intros Hlen Hm. apply match_pending_short in Hm. lia.
Qed.

(** The overflow branch of [parser_next], against whatever the match could
    return: were the match to return 0 on seven tokens, the turn would give
    [ELEMENT_ERROR] with [pattern too long] and the error state.  With
    [parser_match] as it is, [seven_tokens_resolve] says it is never taken. *)
Lemma overflow_branch (matcher : list token -> matching) (p : parser)
  (tok : token) :
  state p = PARSER_NEUTRAL ->
  window_token tok = true ->
  (ntokens p + 1 = MAX_TOKENS)%nat ->
  matcher (tokens p ++ [tok])%list = NoMatch ->
  parser_switch_with matcher p tok
  = Return ELEMENT_ERROR
      (mkParser PARSER_ERROR (tokenizer p) [] (line p)
         (errors p ++ [Diagnostic (line p) "pattern too long"])%list).
Proof.
  intros Hs Htok Hn Hm. unfold parser_switch_with. rewrite Hs.
  assert (Hlt : (ntokens p <? MAX_TOKENS)%nat = true)
    by (apply Nat.ltb_lt; lia).
  assert (Heq : (ntokens (set_tokens p (tokens p ++ [tok])%list)
                 =? MAX_TOKENS)%nat = true).
  { apply Nat.eqb_eq. unfold ntokens in *. cbn.
    rewrite length_app. cbn. lia. }
  destruct tok; try discriminate Htok;
    rewrite Hlt; cbn [negb]; cbv zeta;
    cbn [tokens set_tokens]; rewrite Hm, Heq; reflexivity.
Qed.

(** Six pending tokens are a redirection of a descriptor to a descriptor
    that lacks its closing brace. *)
Lemma six_pending (toks : list token) :
  parser_match toks = NoMatch ->
  (List.length toks + 1 = MAX_TOKENS)%nat ->
  exists a r b,
    toks = [TOKEN_CB_OPEN; TOKEN_STRING a; TOKEN_CB_CLOSE; r;
            TOKEN_CB_OPEN; TOKEN_STRING b]
    /\ (r = TOKEN_LT \/ r = TOKEN_GT).
Proof.
  intros H Hlen. unfold MAX_TOKENS in Hlen.
  all_tokens H; cbn in Hlen; try lia; do 3 eexists; split; eauto.
Qed.

(** No diagnostic of [parser_match] is the one of the overflow. *)
Lemma mismatch_message (toks : list token) (msg : string) :
  parser_match toks = Mismatch msg -> msg <> "pattern too long".
Proof.
  intros H. all_tokens H; inversion H; discriminate.
Qed.

Lemma quiet_report (p : parser) (msg : string) :
  quiet p -> msg <> "pattern too long" ->
  quiet (parser_truncate (report p msg)).
Proof.
  intros Hq Hmsg ln Hin. cbn in Hin. apply in_app_or in Hin as [Hin|[E|[]]].
  - exact (Hq ln Hin).
  - inversion E. congruence.
Qed.

Lemma switch_quiet (p : parser) (tok : token) :
  window_ok p -> quiet p ->
  match parser_switch p tok with
  | Return _ p1 => quiet p1
  | Continue p1 => quiet p1
  | Abort => True
  end.
Proof.
  intros Hok Hq. pose proof (window_ok_short p Hok) as Hshort.
  destruct Hok as [Hs Hw].
  unfold parser_switch, parser_switch_with. rewrite Hs.
  assert (Hpush :
      match
        (if negb (ntokens p <? MAX_TOKENS)%nat then Abort
         else
           let p1 := set_tokens p (tokens p ++ [tok])%list in
           match parser_match (tokens p1) with
           | NoMatch =>
               if (ntokens p1 =? MAX_TOKENS)%nat
               then Return ELEMENT_ERROR
                      (set_state
                         (parser_truncate (report p1 "pattern too long"))
                         PARSER_ERROR)
               else Continue p1
           | Matched e => Return e (parser_truncate p1)
           | Mismatch msg =>
               Return ELEMENT_ERROR (parser_truncate (report p1 msg))
           | AssertionFailed => Abort
           end)
      with
      | Return _ p1 => quiet p1
      | Continue p1 => quiet p1
      | Abort => True
      end).
  { apply Nat.ltb_lt in Hshort. rewrite Hshort. cbn [negb]. cbv zeta.
    cbn [tokens set_tokens].
    destruct (parser_match (tokens p ++ [tok])%list) eqn:Hm.
    - pose proof (match_pending_short _ Hm) as Hlt.
      unfold ntokens. cbn [tokens set_tokens].
      destruct (Nat.eqb_spec (List.length (tokens p ++ [tok])%list) MAX_TOKENS);
        [lia | exact Hq].
    - exact Hq.
    - apply (quiet_report (set_tokens p (tokens p ++ [tok])%list)
               msg Hq (mismatch_message _ _ Hm)).
    - exact I. }
  assert (Hcut : forall msg, msg <> "pattern too long" ->
                             quiet (parser_truncate (report p msg)))
    by (intros msg; now apply quiet_report).
  destruct tok; try exact Hpush.
  - destruct (0 <? ntokens p)%nat; [apply Hcut; discriminate | exact Hq].
  - destruct (ntokens p =? 0)%nat; [exact Hq | apply Hcut; discriminate].
  - cbv zeta. unfold ntokens. cbn [tokens set_line].
    destruct (List.length (tokens p) =? 0)%nat; exact Hq.
  - destruct (ntokens p =? 0)%nat; [exact Hq | apply Hcut; discriminate].
Qed.

Lemma feed_quiet (toks : list token) :
  forall p : parser,
    window_ok p -> quiet p ->
    exists es p1, feed p toks = Some (es, p1) /\ window_ok p1 /\ quiet p1.
Proof.
  induction toks as [|tok toks IH]; intros p Hok Hq; simpl.
  - now exists [], p.
  - pose proof (switch_window_ok p tok Hok) as Hturn.
    pose proof (switch_quiet p tok Hok Hq) as Hquiet.
    destruct (parser_switch p tok) as [e p1|p1|]; cbn in Hturn.
    + destruct (IH p1 Hturn Hquiet) as (es & p2 & -> & Hok2 & Hq2).
      now exists (e :: es), p2.
    + exact (IH p1 Hturn Hquiet).
    + contradiction.
Qed.

(** The seventh token on six pending ones: the closing brace completes the
    redirection, any other token is a mismatch. *)
Lemma seventh_token (p : parser) (tok : token) :
  window_ok p ->
  (ntokens p + 1 = MAX_TOKENS)%nat ->
  window_token tok = true ->
  exists e,
    parser_switch p tok
    = Return e
        (mkParser PARSER_NEUTRAL (tokenizer p) [] (line p)
           (errors p
            ++ match tok with
               | TOKEN_CB_CLOSE => []
               | _ => [Diagnostic (line p) "expected a '}'"]
               end)%list)
    /\ match tok with
       | TOKEN_CB_CLOSE =>
           exists fd1 fd2,
             e = ELEMENT_REDIR_FD_IN fd1 fd2 \/ e = ELEMENT_REDIR_FD_OUT fd1 fd2
       | _ => e = ELEMENT_ERROR
       end.
Proof.
  intros [Hs Hw] Hlen Htok. unfold ntokens in Hlen.
  destruct Hw as [Hw|Hw]; [rewrite Hw in Hlen; discriminate Hlen|].
  destruct (six_pending _ Hw Hlen) as (a & r & b & Htoks & Hr).
  destruct p as [st tz toks ln errs]. cbn in Hs, Htoks. subst st toks.
  unfold parser_switch, parser_switch_with.
  destruct Hr as [-> | ->]; destruct tok; try discriminate Htok;
    cbn -[Libc.to_int Libc.to_unsigned Libc.atoi];
    rewrite ?app_nil_r; eexists; (split; [reflexivity|]); eauto.
Qed.

End ParserWindow.

(** * The bounded window *)

(** C9, as amended: the window never holds more than seven tokens: between
    two tokens it holds six at most, whatever tokens come, and no assertion
    fails.  Six tokens can be pending, and then they are [{ fd } < { fd] or
    [{ fd } > { fd]; the seventh token never leaves a partial match behind:
    a closing brace gives the redirection, any other token gives
    [ELEMENT_ERROR] with the diagnostic of [parser_match], [expected a '}'],
    and either way the window is empty afterwards.  So on seven tokens
    [parser_match] never returns 0, and the diagnostic [pattern too long] is
    never printed. *)
Theorem window_is_bounded :
  (forall (t : Token.tokenizer) (toks : list token),
      exists es p,
        Parser.feed (Parser.parser_create t) toks = Some (es, p)
        /\ (Parser.ntokens p < Parser.MAX_TOKENS)%nat
        /\ forall ln,
             ~ In (Parser.Diagnostic ln "pattern too long") (Parser.errors p))
  /\ (forall (t : Token.tokenizer) (a b : string),
        exists p,
          Parser.feed (Parser.parser_create t)
            [TOKEN_CB_OPEN; TOKEN_STRING a; TOKEN_CB_CLOSE; TOKEN_GT;
             TOKEN_CB_OPEN; TOKEN_STRING b]
          = Some ([], p)
          /\ Parser.window_ok p
          /\ (Parser.ntokens p + 1 = Parser.MAX_TOKENS)%nat)
  /\ (forall (p : Parser.parser) (tok : token),
        Parser.window_ok p ->
        (Parser.ntokens p + 1 = Parser.MAX_TOKENS)%nat ->
        Parser.window_token tok = true ->
        exists e p1,
          Parser.parser_switch p tok = Parser.Return e p1
          /\ Parser.tokens p1 = []
          /\ Parser.tokenizer p1 = Parser.tokenizer p
          /\ Parser.line p1 = Parser.line p
          /\ Parser.errors p1
             = (Parser.errors p
                ++ match tok with
                   | TOKEN_CB_CLOSE => []
                   | _ => [Parser.Diagnostic (Parser.line p) "expected a '}'"]
                   end)%list
          /\ match tok with
             | TOKEN_CB_CLOSE =>
                 exists fd1 fd2,
                   e = ELEMENT_REDIR_FD_IN fd1 fd2
                   \/ e = ELEMENT_REDIR_FD_OUT fd1 fd2
             | _ => e = ELEMENT_ERROR
             end)
  /\ (forall toks : list token,
        List.length toks = Parser.MAX_TOKENS ->
        Parser.parser_match toks <> Parser.NoMatch).
Proof.
  split; [|split; [|split]].
  - intros t toks.
    destruct (feed_quiet toks _ (created_window_ok t)) as (es & p & H & Hok & Hq).
    + intros ln [].
    + exists es, p. split; [exact H|]. split; [now apply window_ok_short|].
      exact Hq.
  - intros t a b. eexists. split; [reflexivity|].
    split; [split; [reflexivity | right; reflexivity] | reflexivity].
  - intros p tok Hok Hlen Htok.
    destruct (seventh_token p tok Hok Hlen Htok) as (e & Hrun & He).
    eexists e, _. split; [exact Hrun|].
    repeat (split; [reflexivity|]). exact He.
  - exact seven_tokens_resolve.
Qed.

Lemma window_is_bounded_witness :
  exists e p1,
    Parser.parser_switch
      (Parser.mkParser Parser.PARSER_NEUTRAL (Token.tokenizer_create "")
         [TOKEN_CB_OPEN; TOKEN_STRING "2"; TOKEN_CB_CLOSE; TOKEN_GT;
          TOKEN_CB_OPEN; TOKEN_STRING "1"] 1 [])
      (TOKEN_STRING "x")
    = Parser.Return e p1
    /\ Parser.tokens p1 = []
    /\ Parser.tokenizer p1 = Token.tokenizer_create ""
    /\ Parser.line p1 = 1%Z
    /\ Parser.errors p1 = [Parser.Diagnostic 1 "expected a '}'"]
    /\ e = ELEMENT_ERROR.
Proof.
  apply (proj1 (proj2 (proj2 window_is_bounded))
           (Parser.mkParser Parser.PARSER_NEUTRAL (Token.tokenizer_create "")
              [TOKEN_CB_OPEN; TOKEN_STRING "2"; TOKEN_CB_CLOSE; TOKEN_GT;
               TOKEN_CB_OPEN; TOKEN_STRING "1"] 1 [])
           (TOKEN_STRING "x")).
  - split; [reflexivity | right; reflexivity].
  - reflexivity.
  - reflexivity.
Defined.

(** C9, as stated, fails on [{2}>{1 x]: the seventh token [x] resolves no
    production, yet the diagnostic is not [pattern too long], the parser is
    not in the error state, and the [rm] after it on the same line comes out
    as an argument. *)
Lemma seventh_token_is_a_mismatch :
  let six := [TOKEN_CB_OPEN; TOKEN_STRING "2"; TOKEN_CB_CLOSE; TOKEN_GT;
              TOKEN_CB_OPEN; TOKEN_STRING "1"] in
  let t := Token.tokenizer_create "" in
  let pending := Parser.mkParser Parser.PARSER_NEUTRAL t six 1 [] in
  let after := Parser.mkParser Parser.PARSER_NEUTRAL t [] 1
                 [Parser.Diagnostic 1 "expected a '}'"] in
  Parser.feed (Parser.parser_create t) six = Some ([], pending)
  /\ (Parser.ntokens pending + 1 = Parser.MAX_TOKENS)%nat
  /\ Parser.parser_switch pending (TOKEN_STRING "x")
     = Parser.Return ELEMENT_ERROR after
  /\ Parser.state after <> Parser.PARSER_ERROR
  /\ ~ In (Parser.Diagnostic 1 "pattern too long") (Parser.errors after)
  /\ Parser.parser_all 40 ("{2}>{1 x rm" ++ str1 newline)
     = [ELEMENT_ERROR; ELEMENT_ARG "rm"; ELEMENT_EOLN; ELEMENT_EOF].
Proof.
  cbv zeta.
  repeat match goal with |- _ /\ _ => split end;
    try (vm_compute; reflexivity).
  - discriminate.
  - intros [H|[]]. discriminate H.
Qed.

(** * Errors of the grammar *)

(** C2: the parser never enters the error state: whatever tokens come, it is
    left in the neutral state.  After the mismatch of [{ {] the argument [a]
    of the same line is returned, not discarded, and [{ { { {] gives two
    [ELEMENT_ERROR]s before the newline. *)
Theorem mismatch_does_not_recover (t : Token.tokenizer) :
  (forall toks : list token,
      exists es p,
        Parser.feed (Parser.parser_create t) toks = Some (es, p)
        /\ Parser.state p = Parser.PARSER_NEUTRAL)
  /\ Parser.feed (Parser.parser_create t)
       [TOKEN_CB_OPEN; TOKEN_CB_OPEN; TOKEN_STRING "a"; TOKEN_EOLN]
     = Some ([ELEMENT_ERROR; ELEMENT_ARG "a"; ELEMENT_EOLN],
             Parser.mkParser Parser.PARSER_NEUTRAL t [] 2
               [Parser.Diagnostic 1 "expected a file descriptor"])
  /\ Parser.feed (Parser.parser_create t)
       [TOKEN_CB_OPEN; TOKEN_CB_OPEN; TOKEN_CB_OPEN; TOKEN_CB_OPEN; TOKEN_EOLN]
     = Some ([ELEMENT_ERROR; ELEMENT_ERROR; ELEMENT_EOLN],
             Parser.mkParser Parser.PARSER_NEUTRAL t [] 2
               [Parser.Diagnostic 1 "expected a file descriptor";
                Parser.Diagnostic 1 "expected a file descriptor"]).
Proof.
  split; [|split; reflexivity].
  intros toks.
  destruct (feed_window_ok toks _ (created_window_ok t)) as (es & p & H & Hok).
  exists es, p. split; [exact H | exact (proj1 Hok)].
Qed.

(** C3: a newline that comes while tokens are pending is no error: it only
    counts the line, and the pending tokens go on matching on the next line;
    a semicolon or an ampersand there gives [ELEMENT_ERROR]. *)
Theorem newline_does_not_end_a_redirection (t : Token.tokenizer) :
  Parser.feed (Parser.parser_create t)
    [TOKEN_GT; TOKEN_EOLN; TOKEN_STRING "out"; TOKEN_EOLN]
  = Some ([ELEMENT_REDIR_FILE_OUT 1 "out"; ELEMENT_EOLN],
          Parser.mkParser Parser.PARSER_NEUTRAL t [] 3 [])
  /\ Parser.feed (Parser.parser_create t) [TOKEN_GT; TOKEN_SEMI]
     = Some ([ELEMENT_ERROR],
             Parser.mkParser Parser.PARSER_NEUTRAL t [] 1
               [Parser.Diagnostic 1 "unrecognized semicolon"])
  /\ Parser.feed (Parser.parser_create t) [TOKEN_GT; TOKEN_AMPERSAND]
     = Some ([ELEMENT_ERROR],
             Parser.mkParser Parser.PARSER_NEUTRAL t [] 1
               [Parser.Diagnostic 1 "unrecognized ampersand"])
  /\ (forall p : Parser.parser,
        Parser.state p = Parser.PARSER_NEUTRAL ->
        Parser.tokens p <> [] ->
        Parser.parser_switch p TOKEN_EOLN
        = Parser.Continue
            (Parser.set_line p (Libc.to_unsigned (Parser.line p + 1)))).
Proof.
  repeat split.
  intros p Hs Hne. unfold Parser.parser_switch, Parser.parser_switch_with.
  rewrite Hs. cbv zeta. unfold Parser.ntokens. cbn [Parser.tokens Parser.set_line].
  destruct (Parser.tokens p); [congruence | reflexivity].
Qed.

Lemma newline_does_not_end_a_redirection_witness :
  Parser.parser_switch
    (Parser.mkParser Parser.PARSER_NEUTRAL (Token.tokenizer_create "")
       [TOKEN_GT] 1 [])
    TOKEN_EOLN
  = Parser.Continue
      (Parser.mkParser Parser.PARSER_NEUTRAL (Token.tokenizer_create "")
         [TOKEN_GT] 2 []).
Proof.
  apply (proj2 (proj2 (proj2
           (newline_does_not_end_a_redirection (Token.tokenizer_create ""))))
           (Parser.mkParser Parser.PARSER_NEUTRAL (Token.tokenizer_create "")
              [TOKEN_GT] 1 [])).
  - reflexivity.
  - discriminate.
Defined.

(** * The command accumulator *)

Lemma record_gotline_ok (c : Shall.command) (background : bool)
  (w : list Shall.event) (args : list string) :
  Shall.argv c = map Some args ->
  Forall Shall.performed_ok w ->
  Forall Shall.performed_ok
    (snd (fst (Shall.gotline (list Shall.event) Shall.record_perform
                 c background w)))
  /\ snd (Shall.gotline (list Shall.event) Shall.record_perform c background w)
     = true.
Proof.
  intros Hargs Hw. unfold Shall.gotline, Shall.argc. rewrite Hargs.
  destruct args as [|a args]; cbn; [now split|].
  split; [|reflexivity].
  apply Forall_app. split; [exact Hw|].
  constructor; [|constructor]. cbn. exists a, args. now rewrite Hargs.
Qed.

Lemma record_stderr_ok (s : string) (w : list Shall.event) :
  Forall Shall.performed_ok w -> Forall Shall.performed_ok (Shall.record_stderr s w).
Proof.
  intros Hw. apply Forall_app. split; [exact Hw|]. now repeat constructor.
Qed.

Lemma record_loop_ok (fuel : nat) (interactive : bool) (turns : nat) :
  forall (p : Parser.parser) (c : Shall.command) (w : list Shall.event)
         (args : list string),
    Shall.argv c = map Some args ->
    Forall Shall.performed_ok w ->
    Forall Shall.performed_ok
      (fst (Shall.interpret_loop (list Shall.event) Shall.record_perform
              Shall.record_stderr turns fuel interactive p c w)).
Proof.
  induction turns as [|turns IH]; intros p c w args Hargs Hw; cbn; [exact Hw|].
  destruct (Parser.parser_next fuel p) as [[elt p1]| |]; cbn; try exact Hw.
  assert (Hprompt : forall w1, Forall Shall.performed_ok w1 ->
            Forall Shall.performed_ok
              (if interactive
               then Shall.display_prompt (list Shall.event) Shall.record_stderr w1
               else w1))
    by (intros w1 H1; destruct interactive; [now apply record_stderr_ok | exact H1]).
  assert (Hline : forall background w0 k,
            Forall Shall.performed_ok w0 ->
            (forall w1, Forall Shall.performed_ok w1 ->
               Forall Shall.performed_ok
                 (fst match k Shall.command_zero w1 with
                      | Shall.Next c1 w2 =>
                          Shall.interpret_loop (list Shall.event)
                            Shall.record_perform Shall.record_stderr turns fuel
                            interactive p1 c1 w2
                      | Shall.Last _ w2 => (w2, Shall.Completed)
                      | Shall.Gone w2 => (w2, Shall.ProcessGone)
                      end)) ->
            Forall Shall.performed_ok
              (fst match Shall.after_gotline (list Shall.event)
                           (Shall.gotline (list Shall.event) Shall.record_perform
                              c background w0) k with
                   | Shall.Next c1 w2 =>
                       Shall.interpret_loop (list Shall.event)
                         Shall.record_perform Shall.record_stderr turns fuel
                         interactive p1 c1 w2
                   | Shall.Last _ w2 => (w2, Shall.Completed)
                   | Shall.Gone w2 => (w2, Shall.ProcessGone)
                   end)).
  { intros background w0 k H0 Hk.
    destruct (record_gotline_ok c background w0 args Hargs H0) as [H1 H2].
    unfold Shall.after_gotline.
    destruct (Shall.gotline (list Shall.event) Shall.record_perform
                c background w0) as [[c1 w1] back] eqn:E.
    cbn in H1, H2. subst back.
    assert (c1 = Shall.command_zero) as ->.
    { unfold Shall.gotline in E.
      destruct (if (0 <? Shall.argc c)%nat then _ else _) in E.
      now inversion E. }
    now apply Hk. }
  assert (Hredir : Forall Shall.performed_ok
            (fst (Shall.interpret_loop (list Shall.event) Shall.record_perform
                    Shall.record_stderr turns fuel interactive p1
                    (Shall.redir_append c elt) w)))
    by (apply (IH _ _ _ args); [exact Hargs | exact Hw]).
  destruct elt; cbn [Shall.interpret_switch]; try exact Hredir.
  - apply (IH _ _ _ (args ++ [s])%list); [|exact Hw].
    cbn. now rewrite Hargs, map_app.
  - apply Hline; [exact Hw|]. intros w1 H1.
    now apply (IH _ _ _ []).
  - apply Hline; [exact Hw|]. intros w1 H1.
    now apply (IH _ _ _ []).
  - apply Hline; [exact Hw|]. intros w1 H1.
    apply (IH _ _ _ []); [reflexivity|]. now apply Hprompt.
  - apply (IH _ _ _ args); [exact Hargs|]. now apply Hprompt.
  - apply Hline.
    + destruct interactive; [now apply record_stderr_ok | exact Hw].
    + intros w1 H1. exact H1.
Qed.

(** C7: [perform] is only ever called on a command with a first argument:
    whatever the input and however long the interpreter runs, every command
    it dispatches has one; [gotline] on a command without arguments leaves
    the executor alone, whatever the executor; and the bare redirection
    [{2}>{1}] is parsed (as a redirection, not as an error) but nothing is
    dispatched. *)
Theorem empty_command_is_not_performed :
  (forall (fuel : nat) (input : string) (interactive : bool),
      Forall Shall.performed_ok (fst (Shall.dispatched fuel input interactive)))
  /\ (forall (World : Type)
             (perform : Shall.command -> bool -> World -> World * bool)
             (redirs : list element) (background : bool) (w : World),
        Shall.gotline World perform (Shall.mkCommand [] redirs) background w
        = (Shall.command_zero, w, true))
  /\ Parser.parser_all 9 ("{2}>{1}" ++ str1 newline)
     = [ELEMENT_REDIR_FD_OUT 2 1; ELEMENT_EOLN; ELEMENT_EOF]
  /\ Shall.dispatched 9 ("{2}>{1}" ++ str1 newline) false
     = ([], Shall.Completed).
Proof.
  split; [|repeat split].
  intros fuel input interactive. unfold Shall.dispatched, Shall.interpret.
  apply (record_loop_ok _ _ _ _ _ _ []); [reflexivity|].
  destruct interactive; [now apply record_stderr_ok | constructor].
Qed.

(** C1: [gotline] leaves the command without arguments and redirections,
    but [ELEMENT_ERROR] leaves it as it is, so the arguments before an error
    go into the next command that is dispatched: [echo a < ; ls] runs
    [echo a ls]. *)
Theorem error_keeps_the_arguments :
  (forall (World : Type)
          (perform : Shall.command -> bool -> World -> World * bool)
          (c : Shall.command) (background : bool) (w : World),
      fst (fst (Shall.gotline World perform c background w))
      = Shall.mkCommand [] [])
  /\ (forall (World : Type)
             (perform : Shall.command -> bool -> World -> World * bool)
             (write_stderr : string -> World -> World)
             (interactive : bool) (c : Shall.command) (w : World),
        Shall.interpret_switch World perform write_stderr interactive
          ELEMENT_ERROR c w
        = Shall.Next c
            (if interactive
             then Shall.display_prompt World write_stderr w else w))
  /\ Parser.parser_all 9 ("echo a < ; ls" ++ str1 newline)
     = [ELEMENT_ARG "echo"; ELEMENT_ARG "a"; ELEMENT_ERROR; ELEMENT_ARG "ls";
        ELEMENT_EOLN; ELEMENT_EOF]
  /\ Shall.dispatched 9 ("echo a < ; ls" ++ str1 newline) false
     = ([Shall.Perform
           (Shall.mkCommand [Some "echo"; Some "a"; Some "ls"; None] [])
           false],
        Shall.Completed).
Proof.
  split; [|repeat split].
  intros World perform c background w. unfold Shall.gotline.
  now destruct (if (0 <? Shall.argc c)%nat then _ else _).
Qed.

(** * Termination *)

Section TokenizerProgress.

Import Token.

(** Every branch of the [switch] on the character. *)
Ltac each_branch :=
  repeat match goal with
  | |- context [if ?b then _ else _] => destruct b
  | |- context [match ?o with Some _ => _ | None => _ end] => destruct o
  end.

Lemma switch_runs (t : tokenizer) (c : ascii) :
  reading (state t) = true -> tokenizer_switch t c <> AssertionFailed.
Proof.
  intros H. destruct t as [r st b o]. cbn in H.
  destruct st; try discriminate H; cbn -[Ascii.eqb is_blank];
    each_branch; discriminate.
Qed.

Lemma switch_goes_on (t t1 : tokenizer) (c : ascii) :
  reading (state t) = true -> tokenizer_switch t c = Continue t1 ->
  reading (state t1) = true.
Proof.
  intros H. destruct t as [r st b o]. cbn in H.
  destruct st; try discriminate H; cbn -[Ascii.eqb is_blank];
    each_branch; intros E; inversion E; reflexivity.
Qed.

Lemma switch_at_end (t : tokenizer) :
  reading (state t) = true ->
  tokenizer_switch t EOF
  = match str t with
    | None => Return TOKEN_EOF (set_state t TOKENIZER_EOF)
    | Some s =>
        Return (TOKEN_STRING (c_string (s ++ str1 NUL)))
               (mkTokenizer (reader t) TOKENIZER_NEUTRAL (buffered t) None)
    end.
Proof.
  intros H. destruct t as [r st b o]. cbn in H.
  destruct st; try discriminate H; destruct o; reflexivity.
Qed.

(** A token returned in the neutral state without reading: the end of the
    input, or less is left to hand out. *)
Lemma switch_neutral_returns (t t1 : tokenizer) (c : ascii) (tok : token) :
  state t = TOKENIZER_NEUTRAL ->
  tokenizer_switch t c = Return tok t1 ->
  reader t1 = reader t
  /\ (holding (str t1)
      + match state t1 with TOKENIZER_BUFFERED => 1 | _ => 0 end
      <= holding (str t))%nat.
Proof.
  intros H. destruct t as [r st b [s|]]; cbn in H; subst st;
    cbn -[Ascii.eqb is_blank];
    each_branch; intros E; inversion E; subst; cbn; split; (reflexivity || lia).
Qed.

Lemma remaining_bound (t : tokenizer) (n : nat) :
  (String.length (reader t) <= n ->
   remaining t <= 3 * n + 2)%nat.
Proof.
  unfold remaining. intros H.
  destruct (str t); destruct (state t); cbn [holding]; lia.
Qed.

Lemma loop_progress (r : Reader.reader) :
  forall (t t1 : tokenizer) (tok : token),
    reading (state t) = true ->
    tokenizer_loop r t = Some (tok, t1) ->
    (remaining t1 <= 3 * String.length r + holding (str t)
     /\ (tok = TOKEN_EOF
         \/ remaining t1 < 3 * String.length r + holding (str t)))%nat.
Proof.
  induction r as [|c r IH]; intros t t1 tok Hst; simpl tokenizer_loop.
  - rewrite switch_at_end by assumption.
    destruct (str t) as [s|] eqn:Hstr; intros E; inversion E; subst;
      unfold remaining; cbn; rewrite ?Hstr; cbn.
    + split; [lia | right; lia].
    + split; [lia | now left].
  - destruct (tokenizer_switch t c) as [tok1 t2|t2|] eqn:Hsw.
    + intros E. inversion E. subst.
      assert (remaining (set_reader t2 r) <= 3 * String.length r + 2)%nat
        by (apply remaining_bound; cbn; lia).
      cbn [String.length]. split; [lia | right; lia].
    + intros E. apply IH in E; [|now apply (switch_goes_on t t2 c)].
      assert (holding (str t2) <= 1)%nat by (destruct (str t2); cbn; lia).
      cbn [String.length].
      destruct E as [Hle [Heof|Hlt]]; (split; [lia | (now left) || (right; lia)]).
    + discriminate.
Qed.

Lemma loop_returns (r : Reader.reader) :
  forall t : tokenizer,
    reading (state t) = true ->
    exists tok t1, tokenizer_loop r t = Some (tok, t1).
Proof.
  induction r as [|c r IH]; intros t Hst; simpl tokenizer_loop.
  - rewrite switch_at_end by assumption. destruct (str t); eauto.
  - destruct (tokenizer_switch t c) as [tok1 t2|t2|] eqn:Hsw.
    + eauto.
    + apply IH. now apply (switch_goes_on t t2 c).
    + now apply switch_runs in Hsw.
Qed.

(** [tokenizer_next] always returns a token. *)
Lemma tokenizer_next_returns (t : tokenizer) :
  exists tok t1, tokenizer_next t = Some (tok, t1).
Proof.
  unfold tokenizer_next. destruct (state t) eqn:Hs;
    try (apply loop_returns; now rewrite Hs); [|eauto].
  destruct (tokenizer_switch (set_state t TOKENIZER_NEUTRAL) (buffered t))
    as [tok1 t2|t2|] eqn:Hsw.
  - eauto.
  - apply loop_returns. now apply switch_goes_on in Hsw.
  - now apply switch_runs in Hsw.
Qed.

(** Every token but the end of the input leaves less to hand out. *)
Lemma tokenizer_next_progress (t t1 : tokenizer) (tok : token) :
  tokenizer_next t = Some (tok, t1) ->
  (remaining t1 <= remaining t
   /\ (tok = TOKEN_EOF \/ remaining t1 < remaining t))%nat.
Proof.
  unfold tokenizer_next. destruct (state t) eqn:Hs.
  - intros E. apply loop_progress in E; [|now rewrite Hs].
    unfold remaining in *. rewrite Hs.
    destruct E as [Hle [Heof|Hlt]]; (split; [lia | (now left) || (right; lia)]).
  - destruct (tokenizer_switch (set_state t TOKENIZER_NEUTRAL) (buffered t))
      as [tok1 t2|t2|] eqn:Hsw; [| |discriminate].
    + intros E. inversion E. subst.
      apply switch_neutral_returns in Hsw as (Hr & Hle); [|reflexivity].
      unfold remaining. rewrite Hr, Hs. cbn in Hle |- *.
      split; [lia | right; lia].
    + intros E.
      assert (reader t2 = reader t /\ holding (str t2) <= 1)%nat as [Hr Hh].
      { split; [|destruct (str t2); cbn; lia].
        destruct t as [r st b [s|]]; cbn in Hs; subst st;
          revert Hsw; cbn -[Ascii.eqb is_blank];
          each_branch; intros E1; inversion E1; reflexivity. }
      apply loop_progress in E; [|now apply switch_goes_on in Hsw].
      rewrite Hr in E. unfold remaining in *. rewrite Hs.
      destruct E as [Hle [Heof|Hlt]]; (split; [lia | (now left) || (right; lia)]).
  - intros E. apply loop_progress in E; [|now rewrite Hs].
    unfold remaining in *. rewrite Hs.
    destruct E as [Hle [Heof|Hlt]]; (split; [lia | (now left) || (right; lia)]).
  - intros E. apply loop_progress in E; [|now rewrite Hs].
    unfold remaining in *. rewrite Hs.
    destruct E as [Hle [Heof|Hlt]]; (split; [lia | (now left) || (right; lia)]).
  - intros E. apply loop_progress in E; [|now rewrite Hs].
    unfold remaining in *. rewrite Hs.
    destruct E as [Hle [Heof|Hlt]]; (split; [lia | (now left) || (right; lia)]).
  - intros E. inversion E. subst. split; [lia | now left].
Qed.

End TokenizerProgress.

Section ParserProgress.

Import Parser.

(** A turn of [parser_next] keeps the tokenizer; it goes on only after a
    token that is not the end of the input, and on the end of the input it
    returns [ELEMENT_EOF] or empties a window that was not empty. *)
Lemma switch_turn (p : parser) (tok : token) :
  state p = PARSER_NEUTRAL ->
  match parser_switch p tok with
  | Return e p1 =>
      tokenizer p1 = tokenizer p
      /\ (tok = TOKEN_EOF ->
          (e = ELEMENT_EOF /\ p1 = p) \/ (tokens p <> [] /\ tokens p1 = []))
  | Continue p1 => tokenizer p1 = tokenizer p /\ tok <> TOKEN_EOF
  | Abort => True
  end.
Proof.
  intros Hs. unfold parser_switch, parser_switch_with. rewrite Hs.
  destruct tok; cbv zeta;
    repeat match goal with
    | |- context [if ?b then _ else _] => destruct b eqn:?
    | |- context [match parser_match ?l with _ => _ end] =>
        destruct (parser_match l)
    end; cbn; try easy.
  - split; [reflexivity|]. intros _. right. split; [|reflexivity].
    unfold ntokens in *. destruct (tokens p); [discriminate | easy].
  - split; [reflexivity|]. intros _. now left.
Qed.

Lemma remaining_turn (p : parser) (t : Token.tokenizer) :
  (2 * Token.remaining t <= remaining (set_tokenizer p t)
   <= 2 * Token.remaining t + 1)%nat.
Proof. unfold remaining. cbn. destruct (tokens p); lia. Qed.

(** With more fuel than there is left to return, [parser_next] returns an
    element; unless that is [ELEMENT_EOF], less is left afterwards. *)
Lemma parser_next_returns (fuel : nat) :
  forall p : parser,
    window_ok p ->
    (remaining p < fuel)%nat ->
    exists e p1,
      parser_next fuel p = Done (e, p1)
      /\ window_ok p1
      /\ (e = ELEMENT_EOF \/ remaining p1 < remaining p)%nat.
Proof.
  induction fuel as [|fuel IH]; intros p Hok Hfuel; [lia|].
  cbn [parser_next].
  destruct (tokenizer_next_returns (tokenizer p)) as (tok & t1 & Hnext).
  rewrite Hnext.
  destruct (tokenizer_next_progress _ _ _ Hnext) as [Hle Hlt].
  assert (Hok1 : window_ok (set_tokenizer p t1)) by exact Hok.
  pose proof (switch_window_ok _ tok Hok1) as Hturn.
  pose proof (switch_turn (set_tokenizer p t1) tok (proj1 Hok1)) as Hprog.
  assert (Hp : (remaining p
                = 2 * Token.remaining (tokenizer p)
                  + match tokens p with [] => 0 | _ => 1 end)%nat)
    by reflexivity.
  destruct (parser_switch (set_tokenizer p t1) tok) as [e p1|p1|];
    cbn in Hturn; [| |contradiction].
  - exists e, p1. split; [reflexivity|]. split; [exact Hturn|].
    destruct Hprog as [Ht Heof]. cbn in Ht.
    assert (Hp1 : (remaining p1 <= 2 * Token.remaining t1 + 1)%nat)
      by (unfold remaining; rewrite Ht; destruct (tokens p1); lia).
    destruct Hlt as [->|Hlt]; [|right; lia].
    destruct (Heof eq_refl) as [[-> _]|[Hne Hnil]]; [now left|right].
    unfold remaining. rewrite Ht, Hnil. cbn [tokens set_tokenizer] in Hne.
    destruct (tokens p); [congruence | lia].
  - destruct Hprog as [Ht Hne]. cbn in Ht.
    assert (Hp1 : (remaining p1 <= 2 * Token.remaining t1 + 1)%nat)
      by (unfold remaining; rewrite Ht; destruct (tokens p1); lia).
    destruct Hlt as [->|Hlt]; [congruence|].
    destruct (IH p1 Hturn) as (e & p2 & Hrun & Hok2 & Hless); [lia|].
    exists e, p2. split; [exact Hrun|]. split; [exact Hok2|].
    destruct Hless; [now left | right; lia].
Qed.

End ParserProgress.

Section InterpretProgress.

Import Shall.

Lemma record_after_gotline (c : command) (background : bool)
  (w : list event) (k : command -> list event -> turn (list event)) :
  exists w1,
    after_gotline (list event)
      (gotline (list event) record_perform c background w) k
    = k command_zero w1.
Proof.
  unfold after_gotline, gotline, record_perform.
  destruct (0 <? argc c)%nat; eexists; reflexivity.
Qed.

(** With an executor that always comes back, [interpret] reaches the end of
    the input. *)
Lemma record_loop_completes (fuel : nat) (interactive : bool) (turns : nat) :
  forall (p : Parser.parser) (c : command) (w : list event),
    Parser.window_ok p ->
    (Parser.remaining p < turns)%nat ->
    (Parser.remaining p < fuel)%nat ->
    snd (interpret_loop (list event) record_perform record_stderr
           turns fuel interactive p c w) = Completed.
Proof.
  induction turns as [|turns IH]; intros p c w Hok Hturns Hfuel; [lia|].
  cbn [interpret_loop].
  destruct (parser_next_returns fuel p Hok Hfuel) as (e & p1 & -> & Hok1 & Hless).
  assert (Hgo : forall c1 w1,
             e <> ELEMENT_EOF ->
             snd (interpret_loop (list event) record_perform record_stderr
                    turns fuel interactive p1 c1 w1) = Completed).
  { intros c1 w1 Hne. destruct Hless as [->|Hless]; [congruence|].
    apply IH; [exact Hok1 | lia | lia]. }
  destruct e; cbn [interpret_switch]; try (apply Hgo; discriminate).
  - destruct (record_after_gotline c false w (fun c1 w1 => Next c1 w1))
      as (w1 & ->). apply Hgo; discriminate.
  - destruct (record_after_gotline c true w (fun c1 w1 => Next c1 w1))
      as (w1 & ->). apply Hgo; discriminate.
  - match goal with
    | |- context [after_gotline _ (gotline _ _ c false w) ?k] =>
        destruct (record_after_gotline c false w k) as (w1 & ->)
    end. apply Hgo; discriminate.
  - match goal with
    | |- context [after_gotline _ (gotline _ _ c false ?w0) ?k] =>
        destruct (record_after_gotline c false w0 k) as (w1 & ->)
    end. reflexivity.
Qed.

(** On every input the interpreter finishes, given fuel in proportion to the
    length of the input. *)
Lemma interpret_completes (fuel : nat) (input : string) (interactive : bool) :
  (6 * String.length input < fuel)%nat ->
  snd (dispatched fuel input interactive) = Completed.
Proof.
  intros Hfuel. unfold dispatched, interpret.
  apply record_loop_completes.
  - apply created_window_ok.
  - cbn. lia.
  - cbn. lia.
Qed.

End InterpretProgress.

(** * The executor *)

Section Executor.

Import Os Exec.

(** * Builtin commands *)

(** C5, as amended: [cd], [source] and [exit] do nothing but report the
    restriction when they are run in the background or with a redirection;
    [exec] is refused in the background only: with redirections and in the
    foreground it applies them to the shell itself and then, if a program is
    named, replaces the shell with it. *)
Theorem builtins_are_restricted
  (interpret : Reader.reader -> bool -> M unit) (c : Shall.command)
  (background : bool) (name : string) (s : os) :
  nth 0 (Shall.argv c) None = Some name ->
  (restricted name = true ->
   background = true ->
   perform interpret c background s
   = Returned tt
       (log (Eprintf (line "can't run builtin commands in background") []) s))
  /\ (restricted name = true ->
      background = false -> (0 < Shall.nredirs c)%nat ->
      perform interpret c background s
      = Returned tt
          (log (Eprintf (line "can't redirect I/O for builtin commands") []) s))
  /\ (name = "exec" ->
      background = true ->
      perform interpret c background s
      = Returned tt (log (Eprintf (line "can't exec in background") []) s))
  /\ (name = "exec" ->
      background = false ->
      perform interpret c background s
      = (redir c ;;
         if (2 <? Shall.argc c)%nat then do_exec (tl (Shall.argv c))
         else ret tt) s).
Proof.
  intros Hname. unfold perform. rewrite Hname.
  repeat split.
  - intros Hr -> . unfold restricted in Hr.
    destruct (name =? "cd")%string; [reflexivity|].
    destruct (name =? "source")%string; [reflexivity|].
    destruct (name =? "exit")%string; [reflexivity|discriminate].
  - intros Hr -> Hn. apply Nat.ltb_lt in Hn. unfold restricted in Hr.
    unfold builtin_check, bind. rewrite Hn.
    destruct (name =? "cd")%string; [reflexivity|].
    destruct (name =? "source")%string; [reflexivity|].
    destruct (name =? "exit")%string; [reflexivity|discriminate].
  - intros -> ->. reflexivity.
  - intros -> ->. reflexivity.
Qed.

Lemma builtins_are_restricted_witness :
  perform Sample.no_interpret
    (Sample.command_of ["cd"; "/tmp"] [ELEMENT_REDIR_FILE_OUT 1 "out"])
    false Sample.a_system
  = Returned tt
      (log (Eprintf (line "can't redirect I/O for builtin commands") [])
           Sample.a_system).
Proof.
  apply (proj1 (proj2 (builtins_are_restricted Sample.no_interpret
           (Sample.command_of ["cd"; "/tmp"] [ELEMENT_REDIR_FILE_OUT 1 "out"])
           false "cd" Sample.a_system eq_refl))).
  - reflexivity.
  - reflexivity.
  - cbn. lia.
Defined.

(** C5, as stated, fails for [exec]: with a redirection and in the
    foreground nothing is reported and the redirection is applied to the
    shell's own descriptors. *)
Lemma exec_takes_redirections :
  let c := Sample.command_of ["exec"] [ELEMENT_REDIR_FD_OUT 2 1] in
  let after := os_of (perform Sample.no_interpret c false Sample.a_system) in
  (0 < Shall.nredirs c)%nat
  /\ perform Sample.no_interpret c false Sample.a_system
     = Returned tt
         (log (Sys_dup2 1 2 2)
            (log (Printf (line "REDIRECT %d TO %d") [Int 2; Int 1])
               (set_fds Sample.a_system
                  [(2%Z, "/dev/tty"); (0%Z, "/dev/tty"); (1%Z, "/dev/tty")])))
  /\ (forall fmt args, ~ In (Eprintf fmt args) (trace after))
  /\ fds after <> fds Sample.a_system.
Proof.
  cbv zeta. split; [cbn; lia|]. split; [reflexivity|]. split.
  - intros fmt args [H|[H|[]]]; discriminate H.
  - discriminate.
Qed.

(** * Redirections *)

(** C6: input opens read-only and output opens for writing, creating and
    truncating, but append opens for writing and appending without
    [O_CREAT]: [>> log] where [log] does not exist fails to open, so the
    process exits with status 1 and the file is not created, where [> log]
    creates it, duplicates the descriptor and closes it. *)
Theorem append_does_not_create :
  (forall fd name,
      redir_one (ELEMENT_REDIR_FILE_IN fd name)
      = redir_file name fd [O_RDONLY]
      /\ redir_one (ELEMENT_REDIR_FILE_OUT fd name)
         = redir_file name fd [O_WRONLY; O_CREAT; O_TRUNC]
      /\ redir_one (ELEMENT_REDIR_FILE_APPEND fd name)
         = redir_file name fd [O_WRONLY; O_APPEND])
  /\ lookup "log" (files Sample.a_system) = None
  /\ redir (Sample.command_of ["echo"; "hi"] [ELEMENT_REDIR_FILE_APPEND 1 "log"])
       Sample.a_system
     = Stopped (ByExit 1)
         (log (Sys_exit 1)
            (log (Sys_dup2 (-1) 1 (-1))
               (log (Printf (line "REDIRECT %d TO %d") [Int 1; Int (-1)])
                  (log (Sys_open "log" [O_WRONLY; O_APPEND] (Some mode_0644) (-1))
                     Sample.a_system))))
  /\ redir (Sample.command_of ["echo"; "hi"] [ELEMENT_REDIR_FILE_OUT 1 "log"])
       Sample.a_system
     = Returned tt
         (log (Sys_close 3)
            (log (Sys_dup2 3 1 1)
               (log (Printf (line "REDIRECT %d TO %d") [Int 1; Int 3])
                  (log (Sys_open "log" [O_WRONLY; O_CREAT; O_TRUNC]
                          (Some mode_0644) 3)
                     (set_fds
                        (set_files Sample.a_system
                           (("log", "") :: files Sample.a_system))
                        [(1%Z, "log"); (0%Z, "/dev/tty"); (2%Z, "/dev/tty")]))))).
Proof.
  split; [intros fd name; repeat split|].
  split; [reflexivity|]. split; vm_compute; reflexivity.
Qed.

(** * Waiting for the child *)

(** In the background [spawn] forks and comes back: no wait, no time
    passes. *)
Lemma background_does_not_wait (c : Shall.command) (s : os) :
  (0 <= next_pid s)%Z ->
  exists s1,
    spawn c true s = Returned tt s1
    /\ clock s1 = clock s
    /\ (trace s1 = (trace s ++ [Sys_fork (next_pid s)])%list
        \/ trace s1
           = (trace s ++ [Sys_fork (-1); Eprintf (line "fork failed") []])%list).
Proof.
  intros Hpid. unfold spawn, bind, sys_fork.
  destruct (max_children s <=? List.length (children s))%nat.
  - eexists. split; [reflexivity|]. split; [reflexivity|]. right.
    cbn. now rewrite <- app_assoc.
  - destruct (Z.ltb_spec (next_pid s) 0); [lia|].
    eexists. split; [reflexivity|]. split; [reflexivity|]. now left.
Qed.


(** C4: [spawn] in the foreground takes whichever child [wait] returns.
    After [true &], the foreground [sleep 100] is forked as process 12, but
    the wait returns process 11, the background one: its status is what is
    reported, the shell goes on at time 1, and process 12, which ends at
    time 100, is still its child.  In the background [spawn] forks and does
    not wait.  This is what the shell does on the two lines [true &] and
    [sleep 100]. *)
Theorem foreground_waits_for_any_child :
  let background_job := Sample.command_of ["true"] [] in
  let foreground_job := Sample.command_of ["sleep"; "100"] [] in
  let s1 := os_of (spawn background_job true Sample.a_system) in
  let s2 := os_of (spawn foreground_job false s1) in
  spawn background_job true Sample.a_system = Returned tt s1
  /\ trace s1 = [Sys_fork 11]
  /\ clock s1 = clock Sample.a_system
  /\ spawn foreground_job false s1 = Returned tt s2
  /\ trace s2
     = [Sys_fork 11; Sys_fork 12; Sys_wait 11 (Some (Exited 0));
        Printf (line "process:%d terminated with status %d") [Int 11; Int 0]]
  /\ children s2
     = [mkChild 12
          [Sys_execv "/usr/bin/sleep" ["sleep"; "100"] (-1);
           Sys_execv "/bin/sleep" ["sleep"; "100"] 0]
          (Some (100%nat, Exited 0))]
  /\ clock s2 = 1%nat
  /\ Exec.interpret Sample.no_interpret 99
       ("true &" ++ str1 newline ++ "sleep 100" ++ str1 newline) false
       Sample.a_system
     = (s2, Shall.Completed).
Proof.
  cbv zeta.
  repeat match goal with |- _ /\ _ => split end; vm_compute; reflexivity.
Qed.

End Executor.

(** * More on the tokenizer *)

Section TokenizerEnd.

Import Token.

Lemma switch_eof_token (t t1 : tokenizer) (c : ascii) :
  tokenizer_switch t c = Return TOKEN_EOF t1 -> state t1 = TOKENIZER_EOF.
Proof.
  destruct t as [r st b [s|]]; destruct st; cbn -[Ascii.eqb is_blank];
    repeat match goal with
    | |- context [if ?b then _ else _] => destruct b
    end; intros E; inversion E; reflexivity.
Qed.

Lemma loop_eof_token (r : Reader.reader) :
  forall t t1 : tokenizer,
    tokenizer_loop r t = Some (TOKEN_EOF, t1) -> state t1 = TOKENIZER_EOF.
Proof.
  induction r as [|c r IH]; intros t t1; simpl tokenizer_loop.
  - destruct (tokenizer_switch t EOF) as [tok t2|t2|] eqn:Hsw; try discriminate.
    intros E. inversion E. subst. now apply switch_eof_token in Hsw.
  - destruct (tokenizer_switch t c) as [tok t2|t2|] eqn:Hsw; try discriminate.
    + intros E. inversion E. subst. now apply switch_eof_token in Hsw.
    + apply IH.
Qed.

(** [tokenizer_next] returns a token in every state, without failing an
    assertion, and once it has returned [TOKEN_EOF] it returns it at every
    later call and reads no further, whatever input is left (the byte 0xFF
    is an end of input too). *)
Theorem eof_token_is_final (t : tokenizer) :
  exists tok t1,
    tokenizer_next t = Some (tok, t1)
    /\ (tok = TOKEN_EOF -> tokenizer_next t1 = Some (TOKEN_EOF, t1)).
Proof.
  destruct (tokenizer_next_returns t) as (tok & t1 & H).
  exists tok, t1. split; [exact H|]. intros ->.
  assert (Hs : state t1 = TOKENIZER_EOF).
  { revert H. unfold tokenizer_next. destruct (state t) eqn:Hs;
      try apply loop_eof_token.
    - destruct (tokenizer_switch _ _) as [tok t2|t2|] eqn:Hsw; try discriminate.
      + intros E. inversion E. subst. now apply switch_eof_token in Hsw.
      + apply loop_eof_token.
    - intros E. now inversion E; subst. }
  unfold tokenizer_next. now rewrite Hs.
Qed.

End TokenizerEnd.

Section TokenizerWords.

Import Token Special.

Lemma special_token_cases (c : ascii) (tt : token) :
  special_token c = Some tt ->
  (c = "<"%char /\ tt = TOKEN_LT) \/ (c = ">"%char /\ tt = TOKEN_GT)
  \/ (c = "&"%char /\ tt = TOKEN_AMPERSAND)
  \/ (c = "{"%char /\ tt = TOKEN_CB_OPEN)
  \/ (c = "}"%char /\ tt = TOKEN_CB_CLOSE)
  \/ (c = ";"%char /\ tt = TOKEN_SEMI)
  \/ (c = newline /\ tt = TOKEN_EOLN).
Proof.
  unfold special_token.
  repeat match goal with
  | |- context [if (c =? ?d)%char then _ else _] =>
      destruct (Ascii.eqb_spec c d)
  end; intros E; inversion E; subst; tauto.
Qed.

(** The characters of a word are read up to the character after it. *)
Lemma loop_word (ps : list Quoting.piece) (c : ascii) (rest : string)
  (t : tokenizer) :
  forallb Quoting.piece_ok ps = true ->
  state t = TOKENIZER_NEUTRAL -> str t = None ->
  tokenizer_loop (Quoting.written_all ps ++ String c rest) t
  = tokenizer_loop (String c rest)
      (set_str t (extend None (Quoting.meant_all ps))).
Proof.
  intros Hok Hs Hn. rewrite loop_pieces by assumption. now rewrite Hn.
Qed.

Lemma word_text (ps : list Quoting.piece) :
  forallb Quoting.piece_ok ps = true ->
  c_string (Quoting.meant_all ps ++ str1 NUL) = Quoting.meant_all ps.
Proof.
  intros Hok. apply c_string_terminated, printable_no_nul.
  now apply meant_printable.
Qed.

(** What [tokenizer_next] does with a word and the special character after
    it. *)
Lemma word_then_special (ps : list Quoting.piece) (c : ascii)
  (tt : token) (rest : string) :
  forallb Quoting.piece_ok ps = true ->
  special_token c = Some tt ->
  let t := tokenizer_create (Quoting.written_all ps ++ String c rest) in
  (Quoting.meant_all ps = "" ->
   tokenizer_next t = Some (tt, mkTokenizer rest TOKENIZER_NEUTRAL NUL None))
  /\ (Quoting.meant_all ps <> "" ->
      tokenizer_next t
      = Some (TOKEN_STRING (Quoting.meant_all ps),
              mkTokenizer rest TOKENIZER_BUFFERED c None)
      /\ tokenizer_next (mkTokenizer rest TOKENIZER_BUFFERED c None)
         = Some (tt, mkTokenizer rest TOKENIZER_NEUTRAL c None)).
Proof.
  intros Hok Hc t. pose proof (word_text ps Hok) as Htext.
  unfold t, tokenizer_next, tokenizer_create. cbn [state reader buffered].
  rewrite loop_word by easy.
  apply special_token_cases in Hc.
  destruct (Quoting.meant_all ps) as [|a m] eqn:Hm; split; try congruence;
    intros _.
  - decompose [and or] Hc; subst; reflexivity.
  - decompose [and or] Hc; subst; cbn -[c_string append];
      rewrite Htext; split; reflexivity.
Qed.

(** A word that is followed by a special character: the word is returned
    first and the character kept, and the next call returns the token of
    the character without reading; with no word before it the token comes
    at once.  Nothing of the input is lost or read twice. *)
Theorem special_after_word (ps : list Quoting.piece) (c : ascii)
  (tt : token) (rest : string) :
  forallb Quoting.piece_ok ps = true ->
  special_token c = Some tt ->
  let t := tokenizer_create (Quoting.written_all ps ++ String c rest) in
  (Quoting.meant_all ps = "" ->
   tokenizer_next t = Some (tt, mkTokenizer rest TOKENIZER_NEUTRAL NUL None))
  /\ (Quoting.meant_all ps <> "" ->
      tokenizer_next t
      = Some (TOKEN_STRING (Quoting.meant_all ps),
              mkTokenizer rest TOKENIZER_BUFFERED c None)
      /\ tokenizer_next (mkTokenizer rest TOKENIZER_BUFFERED c None)
         = Some (tt, mkTokenizer rest TOKENIZER_NEUTRAL c None)).
Proof. exact (word_then_special ps c tt rest). Qed.

Lemma special_after_word_witness :
  tokenizer_next (tokenizer_create ("out" ++ String ">" "log"))
  = Some (TOKEN_STRING "out", mkTokenizer "log" TOKENIZER_BUFFERED ">" None)
  /\ tokenizer_next (mkTokenizer "log" TOKENIZER_BUFFERED ">" None)
     = Some (TOKEN_GT, mkTokenizer "log" TOKENIZER_NEUTRAL ">" None).
Proof.
  apply (special_after_word
           [Quoting.Plain "o"; Quoting.Plain "u"; Quoting.Plain "t"]
           ">" TOKEN_GT "log"); [reflexivity | reflexivity | discriminate].
Defined.

(** A word that is followed by a separator is returned whole, and the
    separator is gone. *)
Lemma next_word (ps : list Quoting.piece) (c : ascii) (rest : string) :
  forallb Quoting.piece_ok ps = true ->
  Quoting.meant_all ps <> "" ->
  is_blank c = true ->
  tokenizer_next (tokenizer_create (Quoting.written_all ps ++ String c rest))
  = Some (TOKEN_STRING (Quoting.meant_all ps),
          mkTokenizer rest TOKENIZER_NEUTRAL NUL None).
Proof.
  intros Hok Hne Hb. pose proof (word_text ps Hok) as Htext.
  unfold tokenizer_next, tokenizer_create. cbn [state reader buffered].
  rewrite loop_word by easy.
  destruct (Quoting.meant_all ps) as [|a m] eqn:Hm; [congruence|].
  unfold is_blank in Hb.
  repeat (apply orb_prop in Hb as [Hb|Hb]);
    apply Ascii.eqb_eq in Hb; subst c; cbn -[c_string append];
    now rewrite Htext.
Qed.

(** At the end of the input an open quote or a backslash is no error: the
    text read so far is the last string token (none if there is no text),
    and then comes [TOKEN_EOF]. *)
Theorem open_quote_at_end (ps : list Quoting.piece) (quote : ascii)
  (s : string) (fuel : nat) :
  forallb Quoting.piece_ok ps = true ->
  quote = squote \/ quote = dquote ->
  all_chars (Quoting.quotable quote) s = true ->
  (2 <= fuel)%nat ->
  tokenizer_all fuel
    (tokenizer_create (Quoting.written_all ps ++ String quote s))
  = match Quoting.meant_all ps ++ s with
    | "" => [TOKEN_EOF]
    | text => [TOKEN_STRING text; TOKEN_EOF]
    end
  /\ tokenizer_all fuel
       (tokenizer_create (Quoting.written_all ps ++ str1 backslash))
     = match Quoting.meant_all ps with
       | "" => [TOKEN_EOF]
       | text => [TOKEN_STRING text; TOKEN_EOF]
       end.
Proof.
  intros Hok Hq Hs Hfuel. destruct fuel as [|[|fuel]]; try lia.
  assert (Hall : all_chars Quoting.printable (Quoting.meant_all ps ++ s) = true)
    by (rewrite all_chars_append, meant_printable by assumption;
        now apply quotable_printable in Hs).
  pose proof (c_string_terminated _ (printable_no_nul _ Hall)) as Htext.
  pose proof (word_text ps Hok) as Hword.
  split.
  - cbn [tokenizer_all]. unfold tokenizer_next at 1, tokenizer_create.
    cbn [state reader]. rewrite loop_word by easy.
    destruct Hq; subst quote;
      (erewrite loop_continue;
       [|match goal with |- tokenizer_switch ?t _ = _ =>
           destruct (switch_open t squote eq_refl) as (_ & Hsq & Hdq) end;
         first [exact Hsq | exact Hdq]]);
      rewrite <- (append_nil_r s) at 1;
      [rewrite (loop_quoted squote) by (auto; reflexivity)
      |rewrite (loop_quoted dquote) by (auto; reflexivity)];
      cbn [set_str set_state str reader state buffered tokenizer_loop];
      rewrite switch_at_end by reflexivity;
      cbn [str]; rewrite extend_append;
      (destruct (Quoting.meant_all ps ++ s) as [|a m] eqn:Hm;
       [reflexivity | cbn -[c_string append]; rewrite Htext; reflexivity]).
  - cbn [tokenizer_all]. unfold tokenizer_next at 1, tokenizer_create.
    cbn [state reader]. change (str1 backslash) with (String backslash "").
    rewrite loop_word by easy.
    erewrite loop_continue.
    2:{ match goal with |- tokenizer_switch ?t _ = _ =>
          destruct (switch_open t squote eq_refl) as (Hesc & _ & _) end.
        exact Hesc. }
    cbn [set_str set_state str reader state buffered tokenizer_loop].
    rewrite switch_at_end by reflexivity.
    cbn [str].
    destruct (Quoting.meant_all ps) as [|a m] eqn:Hm.
    + reflexivity.
    + cbn -[c_string append]. rewrite Hword. reflexivity.
Qed.

Lemma open_quote_at_end_witness :
  tokenizer_all 2 (tokenizer_create ("a" ++ String squote "b c"))
  = [TOKEN_STRING "ab c"; TOKEN_EOF]
  /\ tokenizer_all 2 (tokenizer_create ("a" ++ str1 backslash))
     = [TOKEN_STRING "a"; TOKEN_EOF].
Proof.
  apply (open_quote_at_end [Quoting.Plain "a"] squote "b c" 2);
    [reflexivity | now left | reflexivity | lia].
Defined.

End TokenizerWords.

(** * More on the parser *)

Section ParserGrammar.

Import Parser Grammar.

Lemma feed_production (g : production) (rest : list token) (p : parser) :
  in_grammar g = true ->
  state p = PARSER_NEUTRAL -> tokens p = [] ->
  feed p (tokens_of g ++ rest)%list
  = match feed p rest with
    | Some (es, p1) => Some (element_of g :: es, p1)
    | None => None
    end.
Proof.
  intros Hg Hs Ht. destruct p as [st tz toks ln errs]. cbn in Hs, Ht. subst.
  destruct g as [s|[n|] [| |] [name|m]]; try discriminate Hg;
    cbn -[Libc.to_int Libc.to_unsigned Libc.atoi]; reflexivity.
Qed.

(** Every sequence of productions of the grammar is parsed into their
    elements, one for one and in order, with no error and nothing left
    pending. *)
Theorem grammar_is_parsed (gs : list production) (p : parser) :
  forallb in_grammar gs = true ->
  state p = PARSER_NEUTRAL -> tokens p = [] ->
  feed p (List.concat (map tokens_of gs)) = Some (map element_of gs, p).
Proof.
  intros Hgs Hs Ht. induction gs as [|g gs IH]; [reflexivity|].
  cbn in Hgs. apply andb_prop in Hgs as [Hg Hgs].
  cbn [map List.concat]. rewrite feed_production by assumption.
  now rewrite IH.
Qed.

Lemma grammar_is_parsed_witness :
  feed (parser_create (Token.tokenizer_create ""))
    [TOKEN_STRING "sort"; TOKEN_LT; TOKEN_STRING "in";
     TOKEN_CB_OPEN; TOKEN_STRING "2"; TOKEN_CB_CLOSE; TOKEN_GT; TOKEN_GT;
     TOKEN_STRING "log";
     TOKEN_CB_OPEN; TOKEN_STRING "2"; TOKEN_CB_CLOSE; TOKEN_GT;
     TOKEN_CB_OPEN; TOKEN_STRING "1"; TOKEN_CB_CLOSE]
  = Some ([ELEMENT_ARG "sort"; ELEMENT_REDIR_FILE_IN 0 "in";
           ELEMENT_REDIR_FILE_APPEND 2 "log"; ELEMENT_REDIR_FD_OUT 2 1],
          parser_create (Token.tokenizer_create "")).
Proof.
  apply (grammar_is_parsed
           [Word "sort"; Redirection None Input (ToFile "in");
            Redirection (Some "2") Appending (ToFile "log");
            Redirection (Some "2") Output (ToFd "1")]
           (parser_create (Token.tokenizer_create ""))); reflexivity.
Defined.

End ParserGrammar.

Section ParserDiagnostics.

Import Parser Grammar.

Ltac more_tokens H :=
  unfold parser_match, match_redirection in H;
  repeat match type of H with
  | context [?l] =>
      is_var l;
      match type of l with
      | list token => destruct l as [|[] l]; cbn in H; try discriminate H
      end
  end.

(** [parser_match] itself never makes an [ELEMENT_ERROR] without a
    diagnostic. *)
Lemma match_no_silent_error (toks : list token) (e : element) :
  parser_match toks = Matched e -> is_error e = false.
Proof.
  intros H. more_tokens H; inversion H; reflexivity.
Qed.

(** What a turn in the neutral state does to the line counter and to the
    error stream: a newline counts, an [ELEMENT_ERROR] comes with one
    diagnostic, nothing else is touched. *)
Lemma switch_effects (p : parser) (tok : token) :
  state p = PARSER_NEUTRAL ->
  match parser_switch p tok with
  | Return e p1 =>
      line p1 = (if is_newline tok then Libc.to_unsigned (line p + 1) else line p)
      /\ List.length (errors p1)
         = (List.length (errors p) + if is_error e then 1 else 0)%nat
  | Continue p1 =>
      line p1 = (if is_newline tok then Libc.to_unsigned (line p + 1) else line p)
      /\ errors p1 = errors p
  | Abort => True
  end.
Proof.
  intros Hs. unfold parser_switch, parser_switch_with. rewrite Hs.
  assert (Hlen : forall d, List.length (errors p ++ [d])%list
                           = (List.length (errors p) + 1)%nat)
    by (intros d; rewrite length_app; reflexivity).
  destruct tok; cbv zeta; cbn [is_newline];
    repeat match goal with
    | |- context [if negb ?b then _ else _] => destruct b eqn:?; cbn [negb]
    | |- context [if (?a <? ?b)%nat then _ else _] =>
        destruct (a <? b)%nat eqn:?
    | |- context [if (?a =? ?b)%nat then _ else _] =>
        destruct (a =? b)%nat eqn:?
    | |- context [match parser_match ?l with _ => _ end] =>
        destruct (parser_match l) eqn:?
    end; cbn; rewrite ?Hlen;
    try match goal with
    | H : parser_match _ = Matched ?e |- _ =>
        rewrite (match_no_silent_error _ _ H)
    end; try (split; [reflexivity | lia]); auto.
Qed.

Lemma feed_effects (toks : list token) :
  forall p : parser,
    window_ok p ->
    (0 <= line p < 2 ^ 32)%Z ->
    exists es p1,
      feed p toks = Some (es, p1)
      /\ line p1 = Libc.to_unsigned (line p + Z.of_nat (newlines toks))
      /\ List.length (errors p1)
         = (List.length (errors p) + errors_in es)%nat.
Proof.
  induction toks as [|tok toks IH]; intros p Hok Hline.
  - exists [], p. split; [reflexivity|]. split; [|cbn; lia].
    unfold Libc.to_unsigned. cbn. rewrite Z.add_0_r, Z.mod_small; lia.
  - cbn [feed].
    pose proof (switch_window_ok p tok Hok) as Hturn.
    pose proof (switch_effects p tok (proj1 Hok)) as Heff.
    assert (Hnext : forall p1,
               line p1 = (if is_newline tok
                          then Libc.to_unsigned (line p + 1) else line p) ->
               (0 <= line p1 < 2 ^ 32)%Z
               /\ forall n, Libc.to_unsigned (line p1 + Z.of_nat n)
                            = Libc.to_unsigned
                                (line p + Z.of_nat (newlines (tok :: toks)
                                                    - newlines toks + n))).
    { intros p1 ->. unfold newlines. cbn [filter].
      destruct (is_newline tok); cbn [List.length].
      - split; [apply Z.mod_pos_bound; lia|]. intros n.
        unfold Libc.to_unsigned. rewrite Zplus_mod_idemp_l.
        f_equal. lia.
      - split; [exact Hline|]. intros n. f_equal. lia. }
    assert (Hcount : (newlines toks <= newlines (tok :: toks))%nat)
      by (unfold newlines; cbn [filter]; destruct (is_newline tok); cbn; lia).
    destruct (parser_switch p tok) as [e p1|p1|]; cbn in Hturn;
      [| |contradiction].
    + destruct Heff as [Hl He]. destruct (Hnext p1 Hl) as [Hr Hto].
      destruct (IH p1 Hturn Hr) as (es & p2 & -> & Hl2 & He2).
      exists (e :: es), p2. split; [reflexivity|]. split.
      * rewrite Hl2, Hto. f_equal. lia.
      * rewrite He2, He. unfold errors_in. cbn [filter].
        destruct (is_error e); cbn [List.length]; lia.
    + destruct Heff as [Hl He]. destruct (Hnext p1 Hl) as [Hr Hto].
      destruct (IH p1 Hturn Hr) as (es & p2 & -> & Hl2 & He2).
      exists es, p2. split; [reflexivity|]. split.
      * rewrite Hl2, Hto. f_equal. lia.
      * now rewrite He2, He.
Qed.

(** The parser prints one diagnostic for every [ELEMENT_ERROR] it returns
    and nothing else, whatever tokens it is given. *)
Theorem one_diagnostic_per_error (t : Token.tokenizer) (toks : list token) :
  exists es p,
    feed (parser_create t) toks = Some (es, p)
    /\ List.length (errors p) = List.length (filter is_error es).
Proof.
  destruct (feed_effects toks (parser_create t) (created_window_ok t))
    as (es & p & H & _ & He); [cbn; lia|].
  exists es, p. split; [exact H | exact He].
Qed.

(** The line counter is one more than the number of newline tokens read (as
    an [unsigned int]), whether a newline ended a line or came inside a
    pending redirection. *)
Theorem lines_are_counted (t : Token.tokenizer) (toks : list token) :
  exists es p,
    feed (parser_create t) toks = Some (es, p)
    /\ line p
       = Libc.to_unsigned
           (1 + Z.of_nat (List.length (filter is_newline toks))).
Proof.
  destruct (feed_effects toks (parser_create t) (created_window_ok t))
    as (es & p & H & Hl & _); [cbn; lia|].
  exists es, p. split; [exact H | exact Hl].
Qed.

End ParserDiagnostics.

(** * More on the interpreter *)

Section InterpreterLines.

Import Shall Lines.

Lemma items_accumulate (interactive : bool) (es : list element) :
  forall (c : command) (w : list event),
    forallb is_item es = true ->
    run_elements interactive es c w
    = Next (mkCommand (argv c ++ map Some (arguments es))
                      (redirs c ++ redirections es))%list w.
Proof.
  induction es as [|e es IH]; intros c w Hall.
  - cbn. rewrite !app_nil_r. now destruct c.
  - cbn in Hall. apply andb_prop in Hall as [He Hes].
    unfold run_elements in *.
    destruct e; try discriminate He; cbn [interpret_elements interpret_switch];
      rewrite IH by assumption; cbn; now rewrite <- ?app_assoc.
Qed.

Lemma elements_app (interactive : bool) (es es' : list element) :
  forall (c : command) (w : list event),
    run_elements interactive (es ++ es')%list c w
    = match run_elements interactive es c w with
      | Next c1 w1 => run_elements interactive es' c1 w1
      | other => other
      end.
Proof.
  unfold run_elements.
  induction es as [|e es IH]; intros c w; [reflexivity|].
  cbn [app interpret_elements].
  destruct (interpret_switch _ _ _ _ _ _ _); [apply IH | reflexivity..].
Qed.

(** A line is dispatched as one command: its arguments in the order they
    came, then the null pointer, its redirections in the order they came,
    in the background for [&] only; a line with redirections but no
    argument is dropped, and the accumulator is empty again after either.
    The prompt follows a newline only. *)
Theorem line_is_one_command (interactive : bool) (es : list element)
  (term : element) (w : list event) :
  forallb is_item es = true ->
  is_terminator term = true ->
  run_elements interactive (es ++ [term])%list command_zero w
  = Next command_zero (w ++ line_events interactive es term)%list.
Proof.
  intros Hes Hterm. rewrite elements_app, items_accumulate by assumption.
  unfold run_elements, line_events.
  cbn [argv redirs command_zero app interpret_elements].
  destruct term; try discriminate Hterm;
    cbn [interpret_switch]; unfold gotline, argc; cbn [argv];
    destruct (arguments es) as [|a args]; cbn;
    try destruct interactive; cbn;
    unfold display_prompt, record_stderr, arg_append; cbn;
    rewrite ?app_nil_r, <- ?app_assoc; reflexivity.
Qed.

Lemma line_is_one_command_witness :
  run_elements false
    [ELEMENT_REDIR_FD_OUT 2 1; ELEMENT_ARG "sort"; ELEMENT_ARG "-r";
     ELEMENT_REDIR_FILE_IN 0 "in"; ELEMENT_BACKGROUND] command_zero []
  = Next command_zero
      [Perform (mkCommand [Some "sort"; Some "-r"; None]
                  [ELEMENT_REDIR_FD_OUT 2 1; ELEMENT_REDIR_FILE_IN 0 "in"])
               true].
Proof.
  apply (line_is_one_command false
           [ELEMENT_REDIR_FD_OUT 2 1; ELEMENT_ARG "sort"; ELEMENT_ARG "-r";
            ELEMENT_REDIR_FILE_IN 0 "in"] ELEMENT_BACKGROUND []); reflexivity.
Defined.

End InterpreterLines.

Section InterpreterWords.

Import Shall Lines.

Variable World : Type.
Variable perform : command -> bool -> World -> World * bool.
Variable write_stderr : string -> World -> World.

Lemma word_ok_parts (w : list Quoting.piece) :
  word_ok w = true ->
  forallb Quoting.piece_ok w = true /\ Quoting.meant_all w <> "".
Proof.
  unfold word_ok. intros H. apply andb_prop in H as [Hok Hne].
  split; [exact Hok|]. intros E. rewrite E in Hne. discriminate.
Qed.

(** The turns of [interpret] on the words of a line: each is read up to the
    character after it and appended to the arguments, with or without
    prompts. *)
Lemma loop_words (interactive : bool) (rest : string)
  (words : list (list Quoting.piece)) :
  forall (turns fuel : nat) (ln : Z) (errs : list Parser.diagnostic)
         (c : command) (w : World),
    forallb word_ok words = true ->
    interpret_loop World perform write_stderr
      (List.length words + turns) (S fuel) interactive
      (Parser.mkParser Parser.PARSER_NEUTRAL
         (Token.tokenizer_create (words_text words ++ String newline rest))
         [] ln errs) c w
    = interpret_loop World perform write_stderr turns (S fuel) interactive
        (Parser.mkParser Parser.PARSER_NEUTRAL (at_newline words rest)
           [] ln errs)
        (mkCommand (argv c ++ map Some (map Quoting.meant_all words))%list
                   (redirs c)) w.
Proof.
  induction words as [|x words IH]; intros turns fuel ln errs c w Hall.
  - cbn. rewrite app_nil_r. now destruct c.
  - cbn in Hall. apply andb_prop in Hall as [Hx Hall].
    apply word_ok_parts in Hx as [Hok Hne].
    cbn [List.length Nat.add words_text interpret_loop Parser.parser_next
         Parser.tokenizer].
    destruct words as [|y words].
    + destruct (word_then_special x newline TOKEN_EOLN rest Hok eq_refl)
        as [_ Hnext].
      destruct (Hnext Hne) as [-> _].
      reflexivity.
    + rewrite append_assoc. cbn [append].
      rewrite next_word by (assumption || reflexivity).
      specialize (IH turns fuel ln errs (arg_append c (Some (Quoting.meant_all x)))
                     w Hall).
      cbn [List.length Nat.add] in IH.
      change (Token.mkTokenizer ?r Token.TOKENIZER_NEUTRAL NUL None)
        with (Token.tokenizer_create r).
      etransitivity; [exact IH|].
      cbn. now rewrite <- app_assoc.
Qed.

(** The turn on the newline after the words: the line is dispatched, and
    the prompt follows when the shell is interactive and [perform] came
    back. *)
Lemma loop_newline (interactive : bool) (rest : string)
  (words : list (list Quoting.piece))
  (turns fuel : nat) (ln : Z) (errs : list Parser.diagnostic)
  (c : command) (w : World) :
  exists b,
    interpret_loop World perform write_stderr (S turns) (S fuel) interactive
      (Parser.mkParser Parser.PARSER_NEUTRAL (at_newline words rest)
         [] ln errs) c w
    = match gotline World perform c false w with
      | (c1, w1, true) =>
          interpret_loop World perform write_stderr turns (S fuel) interactive
            (Parser.mkParser Parser.PARSER_NEUTRAL
               (Token.mkTokenizer rest Token.TOKENIZER_NEUTRAL b None)
               [] (Libc.to_unsigned (ln + 1)) errs) c1
            (if interactive then display_prompt World write_stderr w1 else w1)
      | (_, w1, false) => (w1, ProcessGone)
      end.
Proof.
  destruct words as [|x words]; [exists NUL | exists newline];
    cbn -[Libc.to_unsigned gotline]; unfold after_gotline;
    destruct (gotline World perform c false w) as [[c1 w1] [|]]; reflexivity.
Qed.

End InterpreterWords.

Section WordsToArguments.

Import Shall Lines.

(** From the bytes to the executor: a line of words, quoted or escaped as
    one likes, with one space between them, runs one command in the
    foreground whose arguments are the words, in order, without their
    quotes; then the interpreter reaches the end of the input.  An empty
    line runs nothing.  An interactive shell prompts before the line and
    after it, and says [EOF] at the end of the input; otherwise nothing is
    written. *)
Theorem words_are_the_arguments (words : list (list Quoting.piece))
  (fuel : nat) (interactive : bool) :
  forallb word_ok words = true ->
  (List.length words + 2 <= fuel)%nat ->
  dispatched fuel (words_text words ++ str1 newline) interactive
  = ((if interactive then [Stderr "-> "] else [])
     ++ match words with
        | [] => []
        | _ => [Perform (mkCommand
                           (map Some (map Quoting.meant_all words) ++ [None])%list
                           []) false]
        end
     ++ (if interactive
         then [Stderr "-> "; Stderr ("EOF" ++ str1 newline)]
         else []),
     Completed)%list.
Proof.
  intros Hall Hfuel. unfold dispatched, interpret.
  replace fuel with (List.length words + (fuel - List.length words))%nat at 1
    by lia.
  destruct fuel as [|fuel]; [lia|].
  unfold Parser.parser_create.
  change (str1 newline) with (String newline "").
  rewrite loop_words by assumption.
  destruct (S fuel - List.length words)%nat as [|[|turns]] eqn:E; try lia.
  match goal with
  | |- interpret_loop _ _ _ _ _ _ _ ?c ?w = _ =>
      destruct (loop_newline (list event) record_perform record_stderr
                  interactive "" words (S turns) fuel 1 [] c w) as (b & ->)
  end.
  cbn [argv redirs command_zero app].
  destruct interactive; destruct words as [|x words]; reflexivity.
Qed.

Lemma words_are_the_arguments_witness :
  dispatched 4
    (words_text [[Quoting.Plain "l"; Quoting.Plain "s"];
                 [Quoting.SingleQuoted "a b"; Quoting.Escaped ";"]]
     ++ str1 newline)
    true
  = ([Stderr "-> ";
      Perform (mkCommand [Some "ls"; Some "a b;"; None] []) false;
      Stderr "-> "; Stderr ("EOF" ++ str1 newline)], Completed).
Proof.
  apply (words_are_the_arguments
           [[Quoting.Plain "l"; Quoting.Plain "s"];
            [Quoting.SingleQuoted "a b"; Quoting.Escaped ";"]] 4 true).
  - reflexivity.
  - cbn. lia.
Defined.

Import Os.

(** [exit] ends the shell at once: after the line [exit] or [exit status]
    the shell has exited with that status (0 without one), and whatever
    follows in the input is neither read nor run.  An interactive shell has
    printed its first prompt before, and nothing else. *)
Theorem exit_ends_the_shell
  (interpret_file : Reader.reader -> bool -> M unit)
  (args : list (list Quoting.piece)) (rest : string) (fuel : nat)
  (interactive : bool) (s : os) :
  forallb word_ok args = true ->
  (List.length args <= 1)%nat ->
  (3 <= fuel)%nat ->
  let status :=
    match args with
    | w :: _ => Libc.atoi (Quoting.meant_all w)
    | [] => 0%Z
    end in
  Exec.interpret interpret_file fuel
    (words_text ([Quoting.Plain "e"; Quoting.Plain "x"; Quoting.Plain "i";
                  Quoting.Plain "t"] :: args)
     ++ String newline rest) interactive s
  = (log (Sys_exit status)
         (if interactive then log (Eprintf "-> " []) s else s),
     ProcessGone).
Proof.
  intros Hall Hlen Hfuel status. unfold Exec.interpret, interpret.
  set (words := [Quoting.Plain "e"; Quoting.Plain "x"; Quoting.Plain "i";
                 Quoting.Plain "t"] :: args).
  assert (Hwords : forallb word_ok words = true)
    by (cbn [forallb words]; now rewrite Hall).
  replace fuel with (List.length words + (fuel - List.length words))%nat at 1
    by (cbn [List.length words]; lia).
  destruct fuel as [|fuel]; [lia|].
  unfold Parser.parser_create. rewrite loop_words by assumption.
  destruct (S fuel - List.length words)%nat as [|turns] eqn:E;
    [cbn [List.length words] in E; lia|].
  match goal with
  | |- interpret_loop ?W ?p ?e _ _ _ _ ?c ?w = _ =>
      destruct (loop_newline W p e interactive rest words turns fuel 1 [] c w)
        as (b & ->)
  end.
  unfold status.
  destruct interactive;
    (destruct args as [|w [|w2 args]]; [| |cbn in Hlen; lia]); reflexivity.
Qed.

Lemma exit_ends_the_shell_witness :
  Exec.interpret Sample.no_interpret 3
    (words_text [[Quoting.Plain "e"; Quoting.Plain "x"; Quoting.Plain "i";
                  Quoting.Plain "t"]; [Quoting.Plain "3"]]
     ++ String newline "echo never") true Sample.a_system
  = (log (Sys_exit 3) (log (Eprintf "-> " []) Sample.a_system), ProcessGone).
Proof.
  apply (exit_ends_the_shell Sample.no_interpret [[Quoting.Plain "3"]]
           "echo never" 3 true Sample.a_system).
  - reflexivity.
  - cbn. lia.
  - lia.
Defined.

End WordsToArguments.

(** * More on the executor *)

Section Descriptors.

Import Os Exec.



Lemma lookup_fd_in (fd : Z) (l : list (Z * string)) :
  lookup_fd fd l <> None -> In fd (map fst l).
Proof.
  induction l as [|[k v] l IH]; cbn; [congruence|].
  destruct (Z.eqb_spec k fd); [now left | right; now apply IH].
Qed.

(** The descriptor [open] returns is not open before, and not negative. *)
Lemma lowest_free_spec (l : list (Z * string)) :
  lookup_fd (lowest_free l) l = None /\ (0 <= lowest_free l)%Z.
Proof.
  unfold lowest_free.
  set (candidates := map Z.of_nat (seq 0 (S (List.length l)))).
  set (free := fun n : Z =>
                 match lookup_fd n l with None => true | Some _ => false end).
  destruct (find free candidates) as [n|] eqn:Hfind.
  - apply find_some in Hfind as [Hin Hfree]. split.
    + unfold free in Hfree. now destruct (lookup_fd n l).
    + unfold candidates in Hin. apply in_map_iff in Hin as (k & <- & _). lia.
  - exfalso.
    assert (Hincl : incl candidates (map fst l)).
    { intros n Hin. apply lookup_fd_in.
      pose proof (find_none _ _ Hfind n Hin) as Hn. unfold free in Hn.
      destruct (lookup_fd n l); [discriminate | discriminate]. }
    assert (Hnodup : NoDup candidates).
    { unfold candidates. generalize 0%nat as a, (S (List.length l)) as n.
      intros a n. revert a. induction n as [|n IH]; intros a; cbn;
        constructor; [|apply IH].
      intros Hin. apply in_map_iff in Hin as (k & Hk & Hin).
      apply in_seq in Hin. lia. }
    pose proof (NoDup_incl_length Hnodup Hincl) as Hlen.
    unfold candidates in Hlen. rewrite !length_map, length_seq in Hlen. lia.
Qed.

Lemma lookup_emptied (name k : string) (l : list (string * string)) :
  lookup k l <> None ->
  lookup k (map (fun e => if (fst e =? name)%string then (name, "") else e) l)
  <> None.
Proof.
  induction l as [|[k1 v] l IH]; cbn; [congruence|].
  destruct (String.eqb_spec k1 name); cbn.
  - subst k1. destruct (String.eqb_spec name k); [congruence | exact IH].
  - destruct (String.eqb_spec k1 k); [congruence | exact IH].
Qed.

Lemma sys_open_done (name : string) (flags : list open_flag)
  (mode : option Z) (s : os) :
  opens name flags s = true ->
  exists files1,
    sys_open name flags mode s
    = Returned (lowest_free (fds s))
        (log (Sys_open name flags mode (lowest_free (fds s)))
           (set_fds (set_files s files1)
              ((lowest_free (fds s), name) :: fds s)))
    /\ (forall k, lookup k (files s) <> None -> lookup k files1 <> None)
    /\ (has_flag O_CREAT flags = true -> lookup name files1 <> None).
Proof.
  unfold opens, sys_open. intros Hopen.
  destruct (lookup name (files s)) as [text|] eqn:Hl.
  - eexists. split; [reflexivity|].
    assert (Hkeep : forall k, lookup k (files s) <> None ->
              lookup k (if has_flag O_TRUNC flags
                        then map (fun e => if (fst e =? name)%string
                                           then (name, "") else e) (files s)
                        else files s) <> None).
    { intros k Hk. destruct (has_flag O_TRUNC flags);
        [now apply lookup_emptied | assumption]. }
    split; [exact Hkeep|]. intros _. apply Hkeep. congruence.
  - destruct (existsb (String.eqb name) (dirs s)
              && negb (has_flag O_WRONLY flags)
              && negb (has_flag O_CREAT flags)) eqn:Hdir.
    + eexists. split; [reflexivity|]. split; [auto|].
      intros Hc. rewrite Hc, andb_false_r in Hdir. discriminate.
    + cbn [orb] in Hopen. rewrite Hopen.
      eexists. split; [reflexivity|]. split.
      * intros k Hk. cbn. destruct (String.eqb_spec name k); [congruence|].
        assumption.
      * intros _. cbn. now rewrite String.eqb_refl.
Qed.

(** An [open] that fails returns -1 and changes nothing. *)
Lemma sys_open_fails (name : string) (flags : list open_flag)
  (mode : option Z) (s : os) :
  opens name flags s = false ->
  sys_open name flags mode s
  = Returned (-1)%Z (log (Sys_open name flags mode (-1)) s).
Proof.
  unfold opens, sys_open. intros Hopen.
  destruct (lookup name (files s)); [discriminate|].
  apply orb_false_elim in Hopen as [-> ->]. reflexivity.
Qed.

(** What [open] does to the trace and to the descriptors, either way. *)
Lemma sys_open_trace (name : string) (flags : list open_flag)
  (mode : option Z) (s : os) :
  exists fd s1,
    sys_open name flags mode s = Returned fd s1
    /\ trace s1 = (trace s ++ [Sys_open name flags mode fd])%list
    /\ (fd = (-1)%Z /\ fds s1 = fds s
        \/ fd = lowest_free (fds s) /\ fds s1 = (fd, name) :: fds s).
Proof.
  destruct (opens name flags s) eqn:Hopen.
  - destruct (sys_open_done name flags mode s Hopen) as (files1 & -> & _).
    do 2 eexists. split; [reflexivity|]. split; [reflexivity|].
    right. split; reflexivity.
  - rewrite (sys_open_fails name flags mode s Hopen).
    do 2 eexists. split; [reflexivity|]. split; [reflexivity|].
    left. split; reflexivity.
Qed.


(** A file redirection that cannot be opened: the failure of [open] is not
    looked at, [dup2] fails on the descriptor -1 and the process exits with
    status 1; no file and no descriptor is changed. *)
Lemma redir_file_fails (name : string) (fd : Z) (flags : list open_flag)
  (s : os) :
  opens name flags s = false ->
  lookup_fd (-1) (fds s) = None ->
  redir_file name fd flags s
  = Stopped (ByExit 1)
      (log (Sys_exit 1)
         (log (Sys_dup2 (-1) fd (-1))
            (log (Printf (line "REDIRECT %d TO %d") [Int fd; Int (-1)])
               (log (Sys_open name flags (Some mode_0644) (-1)) s)))).
Proof.
  intros Hopen Hclosed. unfold redir_file, bind.
  rewrite sys_open_fails by assumption.
  unfold redir_fd, bind, printf, print, sys_dup2.
  cbn [fds log]. rewrite Hclosed. reflexivity.
Qed.


End Descriptors.

Section Redirections.

Import Os Exec.




Lemma remove_fd_absent (fd : Z) (l : list (Z * string)) :
  lookup_fd fd l = None -> remove_fd fd l = l.
Proof.
  induction l as [|[k v] l IH]; [reflexivity|]. cbn.
  destruct (Z.eqb_spec k fd); [discriminate|].
  intros H. unfold remove_fd in *. cbn.
  destruct (Z.eqb_spec k fd); [contradiction|]. cbn. now rewrite IH.
Qed.

(** Redirecting the very descriptor that [open] returns (the lowest one not
    open), to or from a file that can be opened, has no effect on the
    descriptors: the file is opened on it (and is there afterwards if it
    was to be created), the duplication onto itself does nothing, and the
    close closes it. *)
Theorem redirection_of_the_free_descriptor (name : string)
  (flags : list open_flag) (s : os) :
  opens name flags s = true ->
  exists s1,
    redir_file name (lowest_free (fds s)) flags s = Returned tt s1
    /\ fds s1 = fds s
    /\ lookup_fd (lowest_free (fds s)) (fds s1) = None
    /\ (has_flag O_CREAT flags = true -> lookup name (files s1) <> None)
    /\ trace s1
       = (trace s
          ++ [Sys_open name flags (Some mode_0644) (lowest_free (fds s));
              Printf (line "REDIRECT %d TO %d")
                [Int (lowest_free (fds s)); Int (lowest_free (fds s))];
              Sys_dup2 (lowest_free (fds s)) (lowest_free (fds s))
                (lowest_free (fds s));
              Sys_close (lowest_free (fds s))])%list.
Proof.
  intros Hopen.
  destruct (lowest_free_spec (fds s)) as [Hfree Hpos].
  destruct (sys_open_done name flags (Some mode_0644) s Hopen)
    as (files1 & Hrun & Hfiles & Hnew).
  set (newfd := lowest_free (fds s)) in *.
  unfold redir_file, bind. rewrite Hrun.
  unfold redir_fd, bind, printf, print, sys_dup2.
  cbn [fds set_fds log set_files lookup_fd].
  rewrite !Z.eqb_refl.
  destruct (Z.ltb_spec newfd 0); [lia|].
  destruct (Z.ltb_spec newfd 0); [lia|].
  eexists. split; [reflexivity|].
  cbn [fds set_fds log files set_files sys_close trace].
  assert (E : remove_fd newfd ((newfd, name) :: fds s) = fds s).
  { unfold remove_fd. cbn. rewrite Z.eqb_refl. cbn.
    now apply remove_fd_absent. }
  rewrite E. split; [reflexivity|]. split; [exact Hfree|].
  split; [exact Hnew|]. now rewrite <- !app_assoc.
Qed.

Lemma redirection_of_the_free_descriptor_witness :
  exists s1,
    redir_file "/tmp/out" 3 [O_WRONLY; O_CREAT; O_TRUNC] Sample.a_system
    = Returned tt s1
    /\ fds s1 = fds Sample.a_system
    /\ lookup_fd 3 (fds s1) = None
    /\ (has_flag O_CREAT [O_WRONLY; O_CREAT; O_TRUNC] = true ->
        lookup "/tmp/out" (files s1) <> None)
    /\ trace s1
       = (trace Sample.a_system
          ++ [Sys_open "/tmp/out" [O_WRONLY; O_CREAT; O_TRUNC]
                (Some mode_0644) 3;
              Printf (line "REDIRECT %d TO %d") [Int 3; Int 3];
              Sys_dup2 3 3 3;
              Sys_close 3])%list.
Proof.
  apply (redirection_of_the_free_descriptor "/tmp/out"
           [O_WRONLY; O_CREAT; O_TRUNC] Sample.a_system).
  reflexivity.
Defined.

(** A first redirection whose file cannot be opened (an input from, or an
    append to, a file that is not there, or an output to a file that cannot
    be created): the child stops with [_exit(1)] right after the failed
    [dup2], before any later redirection and before any [execv]; no file
    and no descriptor is changed.  A child in the background has ignored
    interrupts and announced itself before. *)
Theorem missing_file_stops_the_child (c : Shall.command) (background : bool)
  (fd : Z) (name : string) (flags : list open_flag) (rest : list element)
  (s : os) :
  (Shall.redirs c = ELEMENT_REDIR_FILE_IN fd name :: rest
   /\ flags = [O_RDONLY])
  \/ (Shall.redirs c = ELEMENT_REDIR_FILE_OUT fd name :: rest
      /\ flags = [O_WRONLY; O_CREAT; O_TRUNC])
  \/ (Shall.redirs c = ELEMENT_REDIR_FILE_APPEND fd name :: rest
      /\ flags = [O_WRONLY; O_APPEND]) ->
  opens name flags s = false ->
  lookup_fd (-1) (fds s) = None ->
  exists s1,
    spawn_child c background s = Stopped (ByExit 1) s1
    /\ trace s1
       = (trace s
          ++ (if background
              then [Sys_signal SIG_IGN;
                    Printf (line "process %i running in background:")
                      [Int (pid s)]]
              else [])
          ++ [Sys_open name flags (Some mode_0644) (-1);
              Printf (line "REDIRECT %d TO %d") [Int fd; Int (-1)];
              Sys_dup2 (-1) fd (-1);
              Sys_exit 1])%list
    /\ files s1 = files s /\ fds s1 = fds s
    /\ sigint s1 = (if background then SIG_IGN else sigint s).
Proof.
  intros Hredirs Hopen Hclosed.
  set (s0 := if background
             then log (Printf (line "process %i running in background:")
                         [Int (pid s)])
                      (log (Sys_signal SIG_IGN) (set_sigint s SIG_IGN))
             else s).
  assert (Hstart : forall k : M unit,
             spawn_child c background s = (redir c ;; execute c) s0).
  { intros _. unfold spawn_child, s0. destruct background; reflexivity. }
  assert (H0 : opens name flags s0 = false /\ lookup_fd (-1) (fds s0) = None)
    by (unfold s0; destruct background; split; assumption).
  destruct H0 as [Hopen0 Hclosed0].
  rewrite (Hstart (ret tt)). unfold redir, bind.
  assert (Hfile : redir_each (Shall.redirs c) s0
                  = redir_file name fd flags s0).
  { destruct Hredirs as [[-> ->]|[[-> ->]|[-> ->]]];
      cbn [redir_each redir_one]; unfold bind;
      rewrite (redir_file_fails _ _ _ _ Hopen0 Hclosed0); reflexivity. }
  rewrite Hfile, (redir_file_fails _ _ _ _ Hopen0 Hclosed0).
  eexists. split; [reflexivity|].
  unfold s0. destruct background; cbn; rewrite <- ?app_assoc; repeat split.
Qed.

Lemma missing_file_stops_the_child_witness :
  exists s1,
    spawn_child
      (Sample.command_of ["sort"]
         [ELEMENT_REDIR_FILE_OUT 1 "/nowhere/out"; ELEMENT_REDIR_FILE_IN 0 "data"])
      true Sample.a_system
    = Stopped (ByExit 1) s1
    /\ trace s1
       = (trace Sample.a_system
          ++ [Sys_signal SIG_IGN;
              Printf (line "process %i running in background:")
                [Int (pid Sample.a_system)]]
          ++ [Sys_open "/nowhere/out" [O_WRONLY; O_CREAT; O_TRUNC]
                (Some mode_0644) (-1);
              Printf (line "REDIRECT %d TO %d") [Int 1; Int (-1)];
              Sys_dup2 (-1) 1 (-1);
              Sys_exit 1])%list
    /\ files s1 = files Sample.a_system /\ fds s1 = fds Sample.a_system
    /\ sigint s1 = SIG_IGN.
Proof.
  apply (missing_file_stops_the_child
           (Sample.command_of ["sort"]
              [ELEMENT_REDIR_FILE_OUT 1 "/nowhere/out";
               ELEMENT_REDIR_FILE_IN 0 "data"])
           true 1 "/nowhere/out" [O_WRONLY; O_CREAT; O_TRUNC]
           [ELEMENT_REDIR_FILE_IN 0 "data"] Sample.a_system).
  - right. left. split; reflexivity.
  - reflexivity.
  - reflexivity.
Defined.

End Redirections.

Section Search.

Import Os Exec Path.

Lemma directories_some (path cur : string) : directories path cur <> [].
Proof.
  revert cur. induction path as [|c path IH]; intros cur; cbn; [discriminate|].
  destruct (c =? ":")%char; [discriminate | apply IH].
Qed.

Lemma directories_joined (path : string) :
  forall cur : string, joined (directories path cur) = cur ++ path.
Proof.
  induction path as [|c path IH]; intros cur; cbn.
  - now rewrite append_nil_r.
  - destruct (Ascii.eqb_spec c ":") as [->|Hc].
    + cbn [joined]. pose proof (directories_some path "") as Hne.
      destruct (directories path "") as [|d ds] eqn:E; [congruence|].
      rewrite <- E, IH. reflexivity.
    + rewrite IH, append_assoc. reflexivity.
Qed.

Lemma directories_no_colon (path : string) :
  forall cur : string,
    contains ":" cur = false ->
    Forall (fun dir => contains ":" dir = false) (directories path cur).
Proof.
  induction path as [|c path IH]; intros cur Hcur; cbn.
  - now constructor.
  - destruct (Ascii.eqb_spec c ":") as [->|Hc].
    + constructor; [exact Hcur | now apply IH].
    + apply IH. clear IH. induction cur as [|x cur IHc]; cbn in *.
      * destruct (Ascii.eqb_spec c ":"); [contradiction | reflexivity].
      * apply orb_false_elim in Hcur as [Hx Hrest].
        now rewrite Hx, IHc.
Qed.

(** The search path is split at every colon and nowhere else: joined with
    colons the directories give the path back, none of them has a colon,
    and there is always at least one (the empty one for an empty path). *)
Theorem path_is_split_at_colons (path : string) :
  joined (directories path "") = path
  /\ Forall (fun dir => contains ":" dir = false) (directories path "")
  /\ directories path "" <> [].
Proof.
  split; [apply directories_joined|].
  split; [now apply directories_no_colon | apply directories_some].
Qed.

Lemma search_fails (prog : string) (argv : list string) (dirs : list string) :
  forall s : os,
    Forall (fun dir => lookup (candidate dir prog) (programs s) = None) dirs ->
    exists s1,
      search dirs prog argv s = Returned tt s1
      /\ trace s1 = (trace s ++ map (failed prog argv) dirs)%list
      /\ programs s1 = programs s /\ environ s1 = environ s.
Proof.
  induction dirs as [|dir dirs IH]; intros s Hall.
  - exists s. cbn. now rewrite app_nil_r.
  - inversion Hall as [|? ? Hdir Hrest]; subst.
    cbn [search]. unfold bind at 1.
    assert (Hrun : (if (String.length dir =? 0)%nat
                    then sys_execv prog argv
                    else sys_execv (dir ++ "/" ++ prog) argv) s
                   = Returned (-1)%Z (log (failed prog argv dir) s)).
    { unfold failed, candidate in *.
      destruct (String.length dir =? 0)%nat; unfold sys_execv;
        now rewrite Hdir. }
    rewrite Hrun.
    destruct (IH (log (failed prog argv dir) s)) as (s1 & -> & Ht & Hp & He);
      [exact Hrest|].
    exists s1. split; [reflexivity|]. split; [|now split].
    rewrite Ht. cbn. now rewrite <- app_assoc.
Qed.

Lemma search_finds (prog : string) (argv : list string)
  (before : list string) (dir : string) (after : list string) (s : os) :
  Forall (fun d => lookup (candidate d prog) (programs s) = None) before ->
  lookup (candidate dir prog) (programs s) <> None ->
  exists s1,
    search (before ++ dir :: after) prog argv s
    = Stopped (ByExec (candidate dir prog) argv) s1
    /\ trace s1
       = (trace s ++ map (failed prog argv) before
          ++ [Sys_execv (candidate dir prog) argv 0])%list.
Proof.
  revert s. induction before as [|d before IH]; intros s Hall Hdir.
  - cbn [app search map]. unfold bind.
    assert (Hrun : (if (String.length dir =? 0)%nat
                    then sys_execv prog argv
                    else sys_execv (dir ++ "/" ++ prog) argv) s
                   = Stopped (ByExec (candidate dir prog) argv)
                       (log (Sys_execv (candidate dir prog) argv 0) s)).
    { unfold candidate in *.
      destruct (String.length dir =? 0)%nat; unfold sys_execv;
        destruct (lookup _ (programs s)); congruence. }
    rewrite Hrun. eexists. split; reflexivity.
  - inversion Hall as [|? ? Hd Hrest]; subst.
    cbn [app search map]. unfold bind at 1.
    assert (Hrun : (if (String.length d =? 0)%nat
                    then sys_execv prog argv
                    else sys_execv (d ++ "/" ++ prog) argv) s
                   = Returned (-1)%Z (log (failed prog argv d) s)).
    { unfold failed, candidate in *.
      destruct (String.length d =? 0)%nat; unfold sys_execv;
        now rewrite Hd. }
    rewrite Hrun.
    destruct (IH (log (failed prog argv d) s)) as (s1 & -> & Ht);
      [exact Hrest | exact Hdir|].
    exists s1. split; [reflexivity|]. rewrite Ht. cbn.
    now rewrite <- app_assoc.
Qed.

(** A program named without a slash is taken from the first directory of
    [PATH] that has it: the directories before it are tried in order and
    fail, none after it is tried, and the process is replaced by that
    program with the whole argument vector. *)
Theorem first_directory_wins (prog : string) (args : list (option string))
  (path : string) (before : list string) (dir : string)
  (after : list string) (s : os) :
  contains "/" prog = false ->
  lookup "PATH" (environ s) = Some path ->
  directories path "" = (before ++ dir :: after)%list ->
  Forall (fun d => lookup (candidate d prog) (programs s) = None) before ->
  lookup (candidate dir prog) (programs s) <> None ->
  exists s1,
    do_exec (Some prog :: args) s
    = Stopped (ByExec (candidate dir prog) (prog :: strings args)) s1
    /\ trace s1
       = (trace s ++ map (failed prog (prog :: strings args)) before
          ++ [Sys_execv (candidate dir prog) (prog :: strings args) 0])%list.
Proof.
  intros Hslash Hpath Hdirs Hbefore Hdir.
  unfold do_exec. cbn [nth]. rewrite Hslash. cbn [negb].
  unfold bind at 1, sys_getenv. rewrite Hpath, Hdirs.
  unfold bind at 1. cbn [strings].
  destruct (search_finds prog (prog :: strings args) before dir after s
              Hbefore Hdir) as (s1 & -> & Ht).
  now exists s1.
Qed.

Lemma first_directory_wins_witness :
  exists s1,
    do_exec [Some "sleep"; Some "1"; None] Sample.a_system
    = Stopped (ByExec "/bin/sleep" ["sleep"; "1"]) s1
    /\ trace s1
       = (trace Sample.a_system
          ++ map (failed "sleep" ["sleep"; "1"]) ["/usr/bin"]
          ++ [Sys_execv "/bin/sleep" ["sleep"; "1"] 0])%list.
Proof.
  apply (first_directory_wins "sleep" [Some "1"; None] "/usr/bin:/bin"
           ["/usr/bin"] "/bin" [] Sample.a_system).
  - reflexivity.
  - reflexivity.
  - reflexivity.
  - repeat constructor.
  - discriminate.
Defined.

(** A program that no directory of [PATH] has (or any program when [PATH]
    is not set and the working directory does not have it): every
    directory is tried in order, then [command not found] is printed and
    the process exits with status 1. *)
Theorem command_not_found (prog : string) (args : list (option string))
  (s : os) :
  contains "/" prog = false ->
  let path := match lookup "PATH" (environ s) with
              | Some p => p
              | None => ""
              end in
  Forall (fun d => lookup (candidate d prog) (programs s) = None)
         (directories path "") ->
  exists s1,
    do_exec (Some prog :: args) s = Stopped (ByExit 1) s1
    /\ trace s1
       = (trace s
          ++ map (failed prog (prog :: strings args)) (directories path "")
          ++ [Eprintf (line "%s: command not found") [Str prog];
              Sys_exit 1])%list.
Proof.
  intros Hslash path Hnone.
  unfold do_exec. cbn [nth]. rewrite Hslash. cbn [negb].
  unfold bind at 1, sys_getenv. fold path.
  unfold bind at 1. cbn [strings].
  destruct (search_fails prog (prog :: strings args) (directories path "") s
              Hnone) as (s1 & -> & Ht & _).
  eexists. split; [reflexivity|]. cbn. rewrite Ht.
  now rewrite <- !app_assoc.
Qed.

Lemma command_not_found_witness :
  exists s1,
    do_exec [Some "nosuch"; None] Sample.a_system = Stopped (ByExit 1) s1
    /\ trace s1
       = (trace Sample.a_system
          ++ map (failed "nosuch" ["nosuch"]) (directories "/usr/bin:/bin" "")
          ++ [Eprintf (line "%s: command not found") [Str "nosuch"];
              Sys_exit 1])%list.
Proof.
  apply (command_not_found "nosuch" [None] Sample.a_system).
  - reflexivity.
  - repeat constructor.
Defined.

End Search.

Section Builtins.

Import Os Exec.

(** [cd] takes at most one argument.  With more it prints its usage; with
    one it changes to that directory or says that there is none; with none
    it changes to [$HOME], and if that fails (or [HOME] is not set) it
    says nothing.  It never exits and changes nothing but the working
    directory. *)
Theorem cd_changes_directory (args : list string) (redirs : list element)
  (s : os) :
  let c := Sample.command_of ("cd" :: args) redirs in
  let there d := existsb (String.eqb d) (dirs s) in
  cd c s
  = Returned tt
      match args with
      | [] =>
          match lookup "HOME" (environ s) with
          | Some home =>
              if there home
              then log (Sys_chdir (Some home) 0) (set_cwd s home)
              else log (Sys_chdir (Some home) (-1)) s
          | None => log (Sys_chdir None (-1)) s
          end
      | [dir] =>
          if there dir
          then log (Sys_chdir (Some dir) 0) (set_cwd s dir)
          else log (Eprintf (line "No such file or directory") [])
                   (log (Sys_chdir (Some dir) (-1)) s)
      | _ => log (Eprintf (line "Usage: cd [directory]") []) s
      end.
Proof.
  cbv zeta. unfold cd, Shall.argc, Sample.command_of. cbn [Shall.argv].
  destruct args as [|dir [|more args]]; cbn [map app List.length nth].
  - cbn. unfold bind, sys_getenv, sys_chdir.
    destruct (lookup "HOME" (environ s)) as [home|]; [|reflexivity].
    destruct (existsb (String.eqb home) (dirs s)); reflexivity.
  - cbn. unfold bind, sys_chdir.
    destruct (existsb (String.eqb dir) (dirs s)); reflexivity.
  - rewrite length_app, length_map. cbn [List.length].
    replace (3 <? S (S (S (List.length args + 1))))%nat with true
      by (symmetry; apply Nat.ltb_lt; lia).
    reflexivity.
Qed.

(** [exit] takes at most one argument.  With more it prints its usage and
    the shell goes on; with one the shell exits with the number [atoi]
    reads in it (0 if it is no number), and with none it exits with 0. *)
Theorem exit_takes_a_status (args : list string) (redirs : list element)
  (s : os) :
  do_exit (Sample.command_of ("exit" :: args) redirs) s
  = match args with
    | [] => Stopped (ByExit 0) (log (Sys_exit 0) s)
    | [status] =>
        Stopped (ByExit (Libc.atoi status)) (log (Sys_exit (Libc.atoi status)) s)
    | _ => Returned tt (log (Eprintf (line "Usage: exit [status]") []) s)
    end.
Proof.
  unfold do_exit, Shall.argc, Sample.command_of. cbn [Shall.argv].
  destruct args as [|status [|more args]]; cbn [map app List.length nth].
  - reflexivity.
  - reflexivity.
  - rewrite length_app, length_map. cbn [List.length].
    replace (3 <? S (S (S (List.length args + 1))))%nat with true
      by (symmetry; apply Nat.ltb_lt; lia).
    reflexivity.
Qed.

(** Running an external command leaves the shell as it is: whatever the
    command and its redirections, in the foreground or in the background,
    the shell's own descriptors, signal handling, working directory,
    environment and identity are the same after [spawn]. *)
Theorem spawn_keeps_the_shell (c : Shall.command) (background : bool)
  (s : os) :
  let s1 := os_of (spawn c background s) in
  fds s1 = fds s /\ sigint s1 = sigint s /\ cwd s1 = cwd s
  /\ environ s1 = environ s /\ pid s1 = pid s.
Proof.
  cbv zeta. unfold spawn, bind, sys_fork.
  destruct (max_children s <=? List.length (children s))%nat;
    [now cbn|].
  destruct (next_pid s <? 0)%Z; [now cbn|].
  destruct background; cbn [negb]; [now cbn|].
  unfold sys_wait.
  cbn [children set_children log set_files].
  destruct (children s ++ _)%list eqn:E; [now cbn|].
  destruct (earliest _) as [[[ch t] w]|]; [|now cbn].
  destruct w; now cbn.
Qed.

End Builtins.

(** * The shell and the files it sources *)

Section Kept.

Import Os Exec Nested.

Lemma kept_refl (s : os) : kept s s.
Proof. exists []. split; [now rewrite app_nil_r | reflexivity]. Qed.

Lemma kept_trans (s s1 s2 : os) : kept s s1 -> kept s1 s2 -> kept s s2.
Proof.
  intros (t1 & H1 & F1) (t2 & H2 & F2). exists (t1 ++ t2)%list. split.
  - now rewrite H2, H1, app_assoc.
  - rewrite existsb_app. intros E Hc. apply orb_false_elim in E as [E1 E2].
    specialize (F1 E1 Hc). rewrite F2; [exact F1 | exact E2 | now rewrite F1].
Qed.

(** A step that leaves the descriptors alone and is no [dup2]. *)
Lemma kept_step (s s1 s2 : os) (t : list call) :
  kept s s1 -> trace s2 = (trace s1 ++ t)%list -> existsb is_dup2 t = false ->
  fds s2 = fds s1 -> kept s s2.
Proof.
  intros H Ht Hd Hf. apply (kept_trans s s1 s2 H).
  exists t. split; [exact Ht | intros _ _; exact Hf].
Qed.

Lemma kept_dup2 (s s1 : os) (t : list call) :
  trace s1 = (trace s ++ t)%list -> existsb is_dup2 t = true -> kept s s1.
Proof.
  intros Ht Hd. exists t. split; [exact Ht|]. rewrite Hd. discriminate.
Qed.

End Kept.

Section InterpreterInvariant.

Import Shall.

Variable World : Type.
Variable perform : command -> bool -> World -> World * bool.
Variable write_stderr : string -> World -> World.

(** What every [perform] that comes back and every message keeps. *)
Variable Q : World -> Prop.
Hypothesis perform_keeps :
  forall c background w w1,
    Q w -> perform c background w = (w1, true) -> Q w1.
Hypothesis write_keeps : forall msg w, Q w -> Q (write_stderr msg w).

Lemma switch_keeps (interactive : bool) (elt : element) (c : command)
  (w : World) :
  Q w ->
  match interpret_switch World perform write_stderr interactive elt c w with
  | Next _ w1 => Q w1
  | Last _ w1 => Q w1
  | Gone _ => True
  end.
Proof.
  intros Hw.
  assert (Hgot : forall background w0 (k : command -> World -> turn World),
             Q w0 ->
             (forall c1 w1, Q w1 ->
                match k c1 w1 with
                | Next _ w2 => Q w2
                | Last _ w2 => Q w2
                | Gone _ => True
                end) ->
             match after_gotline World
                     (gotline World perform c background w0) k with
             | Next _ w1 => Q w1
             | Last _ w1 => Q w1
             | Gone _ => True
             end).
  { intros background w0 k Hw0 Hk. unfold gotline, after_gotline.
    destruct (0 <? argc c)%nat.
    - destruct (perform (arg_append c None) background w0) as [w1 [|]] eqn:Hp;
        [|exact I].
      apply Hk. exact (perform_keeps _ _ _ _ Hw0 Hp).
    - now apply Hk. }
  destruct elt; cbn [interpret_switch]; try exact Hw;
    try (apply Hgot;
         [try exact Hw; destruct interactive; unfold display_prompt; auto
         |intros c1 w1 H1; try exact H1;
          destruct interactive; unfold display_prompt; auto]).
  destruct interactive; unfold display_prompt; auto.
Qed.

Lemma loop_keeps (interactive : bool) (fuel : nat) :
  forall (turns : nat) (p : Parser.parser) (c : command) (w w1 : World),
    Q w ->
    interpret_loop World perform write_stderr turns fuel interactive p c w
    = (w1, Completed) ->
    Q w1.
Proof.
  induction turns as [|turns IH]; intros p c w w1 Hw Hrun; [discriminate|].
  cbn [interpret_loop] in Hrun.
  destruct (Parser.parser_next fuel p) as [[elt p1]| |]; try discriminate.
  pose proof (switch_keeps interactive elt c w Hw) as Hturn.
  destruct (interpret_switch _ _ _ _ _ _ _) as [c1 w2|c1 w2|w2].
  - exact (IH p1 c1 w2 w1 Hturn Hrun).
  - inversion Hrun. now subst.
  - discriminate.
Qed.

Lemma interpret_keeps (interactive : bool) (fuel : nat)
  (reader : Reader.reader) (w w1 : World) :
  Q w ->
  interpret World perform write_stderr fuel reader interactive w
  = (w1, Completed) ->
  Q w1.
Proof.
  intros Hw. unfold interpret. apply loop_keeps.
  destruct interactive; [now apply write_keeps | exact Hw].
Qed.

End InterpreterInvariant.

Section ShellDescriptors.

Import Os Exec Nested.

Lemma redir_fd_dups (fd1 fd2 : Z) (s s1 : os) :
  redir_fd fd1 fd2 s = Returned tt s1 ->
  exists t, trace s1 = (trace s ++ t)%list /\ existsb is_dup2 t = true.
Proof.
  unfold redir_fd, bind, printf, print, sys_dup2. cbn [fds log].
  destruct (lookup_fd fd2 (fds s)); [|discriminate].
  destruct (fd1 <? 0)%Z eqn:E; [discriminate|]. rewrite E.
  intros H. inversion H.
  exists [Printf (line "REDIRECT %d TO %d") [Int fd1; Int fd2];
          Sys_dup2 fd2 fd1 fd1].
  split; [cbn; now rewrite <- app_assoc | reflexivity].
Qed.

Lemma redir_one_dups (elt : element) (s s1 : os) :
  redir_one elt s = Returned tt s1 ->
  exists t, trace s1 = (trace s ++ t)%list /\ existsb is_dup2 t = true.
Proof.
  assert (Hfile : forall name fd flags,
             redir_file name fd flags s = Returned tt s1 ->
             exists t, trace s1 = (trace s ++ t)%list
                       /\ existsb is_dup2 t = true).
  { intros name fd flags. unfold redir_file, bind.
    destruct (sys_open_trace name flags (Some mode_0644) s)
      as (newfd & s2 & -> & Ht & _).
    destruct (redir_fd fd newfd s2) as [[] s3|] eqn:Hfd; [|discriminate].
    destruct (redir_fd_dups _ _ _ _ Hfd) as (t & Ht3 & Hd).
    unfold sys_close. intros H. inversion H.
    exists ([Sys_open name flags (Some mode_0644) newfd] ++ t
            ++ [Sys_close newfd])%list.
    split.
    - cbn [trace log set_fds]. rewrite Ht3, Ht. now rewrite <- !app_assoc.
    - rewrite !existsb_app, Hd. reflexivity. }
  destruct elt; cbn [redir_one]; try discriminate;
    try apply Hfile; apply redir_fd_dups.
Qed.

Lemma redir_each_kept (l : list element) :
  forall s s1, redir_each l s = Returned tt s1 -> kept s s1.
Proof.
  induction l as [|elt l IH]; intros s s1 H.
  - inversion H. apply kept_refl.
  - cbn [redir_each] in H. unfold bind in H.
    destruct (redir_one elt s) as [[] s2|] eqn:Hone; [|discriminate].
    destruct (redir_one_dups _ _ _ Hone) as (t & Ht & Hd).
    destruct (IH _ _ H) as (t2 & Ht2 & _).
    apply (kept_dup2 s s1 (t ++ t2)%list).
    + now rewrite Ht2, Ht, app_assoc.
    + now rewrite existsb_app, Hd.
Qed.

Lemma do_exec_stops (argv : list (option string)) (s s1 : os) :
  do_exec argv s <> Returned tt s1.
Proof.
  unfold do_exec. destruct (nth 0 argv None) as [prog|]; [|discriminate].
  destruct (negb (contains "/" prog)); unfold bind, sys_getenv.
  - destruct (search _ _ _ _); discriminate.
  - destruct (sys_execv _ _ _); discriminate.
Qed.

Lemma exec_kept (c : Shall.command) (s s1 : os) :
  exec c s = Returned tt s1 -> kept s s1.
Proof.
  unfold exec, bind, redir.
  destruct (redir_each (Shall.redirs c) s) as [[] s2|] eqn:Hr; [|discriminate].
  destruct (2 <? Shall.argc c)%nat.
  - intros H. now apply do_exec_stops in H.
  - intros H. inversion H. subst. eapply redir_each_kept; eassumption.
Qed.

End ShellDescriptors.

Section ShellCommands.

Import Os Exec Nested.

Lemma kept_log (s s1 : os) (c : call) :
  kept s s1 -> is_dup2 c = false -> kept s (log c s1).
Proof.
  intros H Hc. apply (kept_step s s1 (log c s1) [c] H); [reflexivity| |reflexivity].
  cbn. now rewrite Hc.
Qed.

Lemma cd_kept (c : Shall.command) (s s1 : os) :
  cd c s = Returned tt s1 -> kept s s1.
Proof.
  unfold cd, eprintf, print, bind, sys_getenv, sys_chdir.
  assert (Hcwd : forall d, kept s (set_cwd s d))
    by (intros d; exists []; split; [cbn; now rewrite app_nil_r | reflexivity]).
  destruct (3 <? Shall.argc c)%nat.
  - intros H. inversion H. apply kept_log; [apply kept_refl | reflexivity].
  - destruct (nth 1 (Shall.argv c) None) as [dir|].
    + destruct (existsb (String.eqb dir) (dirs s)); cbn;
        intros H; inversion H; repeat (apply kept_log; [|reflexivity]);
        (apply Hcwd || apply kept_refl).
    + destruct (lookup "HOME" (environ s)) as [home|];
        [destruct (existsb (String.eqb home) (dirs s))|];
        intros H; inversion H; repeat (apply kept_log; [|reflexivity]);
        (apply Hcwd || apply kept_refl).
Qed.

Lemma do_exit_kept (c : Shall.command) (s s1 : os) :
  do_exit c s = Returned tt s1 -> kept s s1.
Proof.
  unfold do_exit, eprintf, print.
  destruct (3 <? Shall.argc c)%nat.
  - intros H. inversion H. apply kept_log; [apply kept_refl | reflexivity].
  - destruct (nth 1 (Shall.argv c) None); discriminate.
Qed.

Lemma builtin_check_kept (c : Shall.command) (background ok : bool)
  (s s1 : os) :
  builtin_check c background s = Returned ok s1 -> kept s s1.
Proof.
  unfold builtin_check, bind, eprintf, print.
  destruct background; [|destruct (0 <? Shall.nredirs c)%nat];
    intros H; inversion H;
    try (apply kept_log; [|reflexivity]); apply kept_refl.
Qed.

Lemma spawn_kept (c : Shall.command) (background : bool) (s s1 : os) :
  spawn c background s = Returned tt s1 -> kept s s1.
Proof.
  assert (Hsame : forall s0 : os,
             trace s0 = trace s -> fds s0 = fds s -> kept s s0).
  { intros s0 Ht Hf. exists []. split; [now rewrite app_nil_r | now intros]. }
  unfold spawn, bind, sys_fork, eprintf, print.
  destruct (max_children s <=? List.length (children s))%nat.
  - cbn. intros H. inversion H.
    repeat (apply kept_log; [|reflexivity]). apply kept_refl.
  - destruct (next_pid s <? 0)%Z.
    + intros H. inversion H.
      repeat (apply kept_log; [|reflexivity]). now apply Hsame.
    + destruct background; cbn [negb].
      * intros H. inversion H.
        repeat (apply kept_log; [|reflexivity]). now apply Hsame.
      * unfold sys_wait. cbn [children set_children log set_files].
        destruct (children s ++ _)%list eqn:E.
        -- cbn. intros H. inversion H.
           repeat (apply kept_log; [|reflexivity]). now apply Hsame.
        -- destruct (earliest _) as [[[ch t] w]|]; [|discriminate].
           destruct w; cbn; unfold printf, print; intros H; inversion H;
             repeat (apply kept_log; [|reflexivity]); now apply Hsame.
Qed.

End ShellCommands.

Section ShellSource.

Import Os Exec Nested.

Variable interpret : Reader.reader -> bool -> M unit.
Hypothesis interpret_kept :
  forall r interactive s s1,
    interpret r interactive s = Returned tt s1 -> kept s s1.

Lemma source_each_kept (args : list (option string)) :
  forall s s1, source_each interpret args s = Returned tt s1 -> kept s s1.
Proof.
  induction args as [|[file|] args IH]; intros s s1 H;
    [inversion H; apply kept_refl| |inversion H; apply kept_refl].
  cbn [source_each] in H. unfold bind at 1 in H.
  destruct (lowest_free_spec (fds s)) as [Hfree Hpos].
  assert (Hgo : forall (fd : Z) (s0 : os),
             trace s0 = (trace s ++ [Sys_open file [O_RDONLY] None fd])%list ->
             (fd = (-1)%Z /\ fds s0 = fds s
              \/ fd = lowest_free (fds s) /\ fds s0 = (fd, file) :: fds s) ->
             (reader <- reader_create fd;;
              interpret reader false;; sys_close fd;;
              source_each interpret args) s0 = Returned tt s1 ->
             kept s s1).
  { intros fd s0 Ht Hfd Hrun. unfold bind, reader_create in Hrun.
    match type of Hrun with
    | context [interpret ?r false s0] =>
        destruct (interpret r false s0) as [[] s2|] eqn:Hi; [|discriminate]
    end.
    apply interpret_kept in Hi. destruct Hi as (t & Ht2 & Hf2).
    unfold sys_close in Hrun. apply IH in Hrun.
    refine (kept_trans s _ s1 _ Hrun).
    exists ([Sys_open file [O_RDONLY] None fd] ++ t ++ [Sys_close fd])%list.
    split.
    - cbn [trace log set_fds]. rewrite Ht2, Ht. now rewrite <- !app_assoc.
    - rewrite !existsb_app. cbn [existsb is_dup2 orb].
      rewrite orb_false_r. intros Hd Hclosed. cbn [fds log set_fds].
      destruct Hfd as [[-> Hs0]|[-> Hs0]].
      + rewrite Hf2; [|exact Hd|now rewrite Hs0].
        rewrite Hs0. now apply remove_fd_absent.
      + rewrite Hf2; [|exact Hd|].
        * rewrite Hs0. unfold remove_fd. cbn. rewrite Z.eqb_refl. cbn.
          now apply remove_fd_absent.
        * rewrite Hs0. cbn [lookup_fd].
          destruct (Z.eqb_spec (lowest_free (fds s)) (-1)); [lia | exact Hclosed]. }
  destruct (sys_open_trace file [O_RDONLY] None s) as (fd & s0 & Ho & Ht & Hfd).
  rewrite Ho in H. exact (Hgo fd s0 Ht Hfd H).
Qed.

Lemma perform_kept (c : Shall.command) (background : bool) (s s1 : os) :
  perform interpret c background s = Returned tt s1 -> kept s s1.
Proof.
  unfold perform.
  assert (Hbuiltin : forall body : Shall.command -> M unit,
             (forall s0 s2, body c s0 = Returned tt s2 -> kept s0 s2) ->
             (ok <- builtin_check c background;;
              if ok then body c else ret tt) s = Returned tt s1 ->
             kept s s1).
  { intros body Hbody. unfold bind.
    destruct (builtin_check c background s) as [ok s2|] eqn:Hc; [|discriminate].
    apply builtin_check_kept in Hc.
    destruct ok; intros H.
    - exact (kept_trans _ _ _ Hc (Hbody _ _ H)).
    - inversion H. now subst. }
  destruct (nth 0 (Shall.argv c) None) as [name|]; [|discriminate].
  destruct (name =? "cd")%string; [apply Hbuiltin, cd_kept|].
  destruct (name =? "source")%string.
  { apply Hbuiltin. intros s0 s2. apply source_each_kept. }
  destruct (name =? "exit")%string; [apply Hbuiltin, do_exit_kept|].
  destruct (name =? "exec")%string; [|apply spawn_kept].
  destruct background; [|apply exec_kept].
  unfold eprintf, print. intros H. inversion H.
  apply kept_log; [apply kept_refl | reflexivity].
Qed.

Lemma interpret_call_kept (fuel : nat) (reader : Reader.reader)
  (interactive : bool) (s s1 : os) :
  interpret_call interpret fuel reader interactive s = Returned tt s1 ->
  kept s s1.
Proof.
  unfold interpret_call.
  match goal with
  | |- context [Shall.interpret ?W ?p ?e fuel reader interactive ?w0] =>
      pose proof (interpret_keeps W p e (fun x => kept s (fst x))) as Hkeeps;
      destruct (Shall.interpret W p e fuel reader interactive w0)
        as [[s2 why] ending] eqn:Hrun
  end.
  destruct ending; try discriminate. intros H. inversion H. subst s2.
  apply (Hkeeps) in Hrun; [exact Hrun| | |apply kept_refl].
  - intros c background [s0 why0] w1 Hw. cbn [fst snd].
    destruct (perform interpret c background s0) as [[] s3|] eqn:Hp;
      [|discriminate].
    intros E. inversion E. cbn.
    exact (kept_trans _ _ _ Hw (perform_kept _ _ _ _ Hp)).
  - intros msg [s0 why0] Hw. cbn. apply kept_log; [exact Hw | reflexivity].
Qed.

End ShellSource.

Section TwoWorlds.

Import Shall Nested.

(** The interpreter against two executors that do the same, each on its
    own world. *)
Variables World1 World2 : Type.
Variable perform1 : command -> bool -> World1 -> World1 * bool.
Variable perform2 : command -> bool -> World2 -> World2 * bool.
Variable write1 : string -> World1 -> World1.
Variable write2 : string -> World2 -> World2.
Variable same : World1 -> World2 -> Prop.
Hypothesis perform_same :
  forall c background w1 w2,
    same w1 w2 ->
    same (fst (perform1 c background w1)) (fst (perform2 c background w2))
    /\ snd (perform1 c background w1) = snd (perform2 c background w2).
Hypothesis write_same :
  forall msg w1 w2, same w1 w2 -> same (write1 msg w1) (write2 msg w2).

Lemma switch_same (interactive : bool) (elt : element) (c : command)
  (w1 : World1) (w2 : World2) :
  same w1 w2 ->
  same_turn same (interpret_switch World1 perform1 write1 interactive elt c w1)
            (interpret_switch World2 perform2 write2 interactive elt c w2).
Proof.
  intros Hw.
  assert (Hgot : forall background v1 v2
                        (k1 : command -> World1 -> turn World1)
                        (k2 : command -> World2 -> turn World2),
             same v1 v2 ->
             (forall c1 u1 u2, same u1 u2 -> same_turn same (k1 c1 u1) (k2 c1 u2)) ->
             same_turn same
               (after_gotline World1 (gotline World1 perform1 c background v1) k1)
               (after_gotline World2 (gotline World2 perform2 c background v2) k2)).
  { intros background v1 v2 k1 k2 Hv Hk. unfold gotline, after_gotline.
    destruct (0 <? argc c)%nat; [|now apply Hk].
    destruct (perform_same (arg_append c None) background v1 v2 Hv)
      as [Hs Hb].
    destruct (perform1 _ _ v1) as [u1 b1], (perform2 _ _ v2) as [u2 b2].
    cbn in Hs, Hb. subst b2. destruct b1; [now apply Hk | exact Hs]. }
  destruct elt; cbn [interpret_switch]; try (split; [reflexivity | exact Hw]);
    try (apply Hgot;
         [try exact Hw; destruct interactive; unfold display_prompt; auto
         |intros c1 u1 u2 Hu; split; [reflexivity|]; try exact Hu;
          destruct interactive; unfold display_prompt; auto]).
  split; [reflexivity|]. destruct interactive; unfold display_prompt; auto.
Qed.

Lemma loop_same (interactive : bool) (fuel : nat) :
  forall (turns : nat) (p : Parser.parser) (c : command)
         (w1 : World1) (w2 : World2),
    same w1 w2 ->
    same (fst (interpret_loop World1 perform1 write1 turns fuel interactive
                 p c w1))
         (fst (interpret_loop World2 perform2 write2 turns fuel interactive
                 p c w2))
    /\ snd (interpret_loop World1 perform1 write1 turns fuel interactive
              p c w1)
       = snd (interpret_loop World2 perform2 write2 turns fuel interactive
                p c w2).
Proof.
  induction turns as [|turns IH]; intros p c w1 w2 Hw; [now split|].
  cbn [interpret_loop].
  destruct (Parser.parser_next fuel p) as [[elt p1]| |]; try now split.
  pose proof (switch_same interactive elt c w1 w2 Hw) as Hturn.
  destruct (interpret_switch World1 _ _ _ _ _ _) as [c1 u1|c1 u1|u1],
           (interpret_switch World2 _ _ _ _ _ _) as [c2 u2|c2 u2|u2];
    cbn in Hturn; try contradiction.
  - destruct Hturn as [<- Hu]. now apply IH.
  - destruct Hturn as [_ Hu]. now split.
  - now split.
Qed.

End TwoWorlds.

Section ShellItselfSources.

Import Os Exec Nested.

(** The call is the interpreter of [Exec.interpret]: the same system
    afterwards, and it comes back exactly when that one is completed. *)
Lemma interpret_call_agrees
  (interpret_file : Reader.reader -> bool -> M unit) (fuel : nat)
  (reader : Reader.reader) (interactive : bool) (s : os) :
  os_of (interpret_call interpret_file fuel reader interactive s)
  = fst (Exec.interpret interpret_file fuel reader interactive s)
  /\ ((exists s1, interpret_call interpret_file fuel reader interactive s
                  = Returned tt s1)
      <-> snd (Exec.interpret interpret_file fuel reader interactive s)
          = Shall.Completed).
Proof.
  unfold interpret_call, Exec.interpret, Shall.interpret.
  match goal with
  | |- context [Shall.interpret_loop os ?p1 ?e1 fuel fuel interactive ?p0 ?c0 ?w1] =>
      match goal with
      | |- context [Shall.interpret_loop (os * stop) ?p2 ?e2 fuel fuel
                      interactive p0 c0 ?w2] =>
          pose proof (fun Hp Hw =>
                        loop_same os (os * stop) p1 p2 e1 e2
                          (fun a b => a = fst b) Hp Hw
                          interactive fuel fuel p0 c0 w1 w2) as Hloop
      end
  end.
  destruct Hloop as [Hs He].
  - intros c background s1 [s2 why] E. cbn in E. subst s2. cbn [fst snd].
    unfold run. destruct (perform interpret_file c background s1); now split.
  - intros msg s1 [s2 why] E. cbn in *. now subst.
  - destruct interactive; reflexivity.
  - rewrite He, Hs.
    destruct (Shall.interpret_loop (os * stop) _ _ _ _ _ _ _ _)
      as [[s2 why] ending].
    cbn [fst snd os_of].
    destruct ending; (split; [reflexivity|]); split;
      try (intros [s1 H]; discriminate H); try discriminate; eauto.
Qed.

Lemma shell_kept (fuel depth : nat) :
  forall r interactive s s1,
    shell depth fuel r interactive s = Returned tt s1 -> kept s s1.
Proof.
  induction depth as [|depth IH]; intros r interactive s s1; [discriminate|].
  cbn [shell]. now apply interpret_call_kept.
Qed.

(** [source] closes every descriptor it opens: when it comes back, and the
    shell has made no [dup2] meanwhile (no [exec] with a redirection in the
    files), the descriptors of the shell are those before it, however many
    files are named, whether they exist or not, and whatever they run,
    other [source]s included. *)
Theorem source_closes_its_files (depth fuel : nat) (c : Shall.command)
  (s s1 : os) :
  source (shell depth fuel) c s = Returned tt s1 ->
  lookup_fd (-1) (fds s) = None ->
  exists t,
    trace s1 = (trace s ++ t)%list
    /\ (existsb is_dup2 t = false -> fds s1 = fds s).
Proof.
  intros Hrun Hclosed. unfold source in Hrun.
  apply (source_each_kept _ (shell_kept fuel depth)) in Hrun.
  destruct Hrun as (t & Ht & Hf). exists t. split; [exact Ht | auto].
Qed.

Lemma source_closes_its_files_witness :
  let c := Sample.command_of ["source"; "/tmp/rc"] [] in
  exists s1,
    source (shell 3 40) c Sample.scripts = Returned tt s1
    /\ fds s1 = fds Sample.scripts
    /\ exists t,
         trace s1 = (trace Sample.scripts ++ t)%list
         /\ (existsb is_dup2 t = false -> fds s1 = fds Sample.scripts).
Proof.
  cbv zeta.
  exists (os_of (source (shell 3 40)
                   (Sample.command_of ["source"; "/tmp/rc"] [])
                   Sample.scripts)).
  split; [vm_compute; reflexivity|]. split; [vm_compute; reflexivity|].
  apply (source_closes_its_files 3 40
           (Sample.command_of ["source"; "/tmp/rc"] []) Sample.scripts).
  - vm_compute. reflexivity.
  - reflexivity.
Defined.

End ShellItselfSources.

Section ShellItself.

Import Os Exec.



Lemma interpret_completes_witness :
  snd (Shall.dispatched 19 ("ls" ++ str1 newline) true) = Shall.Completed.
Proof.
  apply (interpret_completes 19 ("ls" ++ str1 newline) true). cbn. lia.
Defined.


Lemma background_does_not_wait_witness :
  exists s1,
    spawn (Sample.command_of ["sleep"; "100"] []) true Sample.a_system
    = Returned tt s1
    /\ clock s1 = clock Sample.a_system
    /\ (trace s1
        = (trace Sample.a_system ++ [Sys_fork (next_pid Sample.a_system)])%list
        \/ trace s1
           = (trace Sample.a_system
              ++ [Sys_fork (-1); Eprintf (line "fork failed") []])%list).
Proof.
  apply (background_does_not_wait (Sample.command_of ["sleep"; "100"] [])
           Sample.a_system).
  cbn. lia.
Defined.

End ShellItself.
